(** * Voice relay: tool dispatcher, relay session and client audio pipeline

    A shallow embedding of [server.ts] (the tool dispatcher [executeTool]
    and the relay session [handleRealtimeConnection]) and of the voice
    assistant page (the PCM16 codec, the playback scheduler and barge-in),
    with the properties of the specification stated over it.

    Conventions of the embedding:
    - a JavaScript value that came out of [JSON.parse] is a [json]; a
      possibly [undefined] value is an [option json];
    - a JavaScript exception is the [Thrown] case of [outcome];
    - [JSON.parse], [JSON.stringify], [atob] and [Buffer.toString] are
      platform functions, so the theorems quantify over them; concrete
      readers and writers are given in the modules [JsonText], [Base64]
      and [Utf8] and used on examples;
    - audio samples and clock readings are rationals ([Q]); the codec is
      given in exact arithmetic and a second time with the IEEE rounding
      of each operation ([encode_sample_ieee], [decode_sample_ieee]); the
      playback scheduler computes in doubles: [buffer.duration] and the
      sum that advances the cursor are rounded ([to_double]);
    - [console.log] / [console.error] calls and React status updates that
      nothing reads back are left out. *)

From Stdlib Require Import List String Ascii Bool Arith ZArith Lia.
From Stdlib Require Import QArith Qround Qminmax Qabs Qpower Lqa.
From Stdlib Require Import Numbers.DecimalString.
Import ListNotations.

Set Warnings "-register-all".

Open Scope list_scope.
Open Scope string_scope.

(** ** JavaScript values and exceptions *)

Inductive json : Type :=
| JNull
| JBool (b : bool)
| JNum (n : Z)
| JStr (s : string)
| JArr (items : list json)
| JObj (fields : list (string * json)).

(** [None] is JavaScript's [undefined]. *)
Definition jsval : Type := option json.

Inductive js_error : Type :=
| TypeError
| SyntaxError
| RangeError
| NotSupportedError
| InvalidCharacterError
| NotOpenError.

Inductive outcome (A : Type) : Type :=
| Returned (a : A)
| Thrown (e : js_error).

Arguments Returned {A} a.
Arguments Thrown {A} e.

Definition bind {A B : Type} (m : outcome A) (k : A -> outcome B) : outcome B :=
  match m with
  | Returned a => k a
  | Thrown e => Thrown e
  end.

Notation "x <- m ;; k" := (bind m (fun x => k))
  (at level 61, m at next level, right associativity).

Definition returns {A : Type} (m : outcome A) : bool :=
  match m with Returned _ => true | Thrown _ => false end.

(** The double-quote character, written by its code. *)
Definition dq : string := String "034"%char EmptyString.

Definition quoted (s : string) : string := dq ++ s ++ dq.

(** ** Platform functions *)

(** [JSON.parse] ([None]: it throws a SyntaxError), [JSON.stringify],
    [String.prototype.toLowerCase], the browser's [atob] ([None]: it
    throws), whose results are binary strings, and [toString] of a Node
    [Buffer], which reads the bytes of a frame as UTF-8 text.  On the
    server a string is written as its UTF-8 bytes, so that a frame that
    is well-formed UTF-8 and its text are the same string. *)
Record Platform : Type := {
  JSON_parse : string -> option json;
  JSON_stringify : json -> string;
  toLowerCase : string -> string;
  atob : string -> option string;
  toString : string -> string
}.

Definition parse (pf : Platform) (text : string) : outcome json :=
  match JSON_parse pf text with
  | Some v => Returned v
  | None => Thrown SyntaxError
  end.

(** ** String primitives *)


(** [s.includes(t)]: [t] occurs in [s] at some position. *)
Fixpoint includes (s t : string) : bool :=
  if prefix t s then true
  else match s with
       | EmptyString => false
       | String _ r => includes r t
       end.

(** [xs.join(sep)] on strings. *)
Fixpoint join (sep : string) (xs : list string) : string :=
  match xs with
  | [] => EmptyString
  | [x] => x
  | x :: r => x ++ sep ++ join sep r
  end.

Definition Z_to_string (z : Z) : string := NilEmpty.string_of_int (Z.to_int z).

(** The [ToString] coercion, as template literals and [JSON.parse] apply it. *)
Fixpoint ToString (v : json) : string :=
  match v with
  | JNull => "null"
  | JBool true => "true"
  | JBool false => "false"
  | JNum n => Z_to_string n
  | JStr s => s
  | JArr items =>
      join "," (map (fun x => match x with
                              | JNull => EmptyString
                              | _ => ToString x
                              end) items)
  | JObj _ => "[object Object]"
  end.

Definition ToString_val (v : jsval) : string :=
  match v with
  | None => "undefined"
  | Some j => ToString j
  end.

(** Truthiness, as [if (v)] tests it. *)
Definition truthy (v : jsval) : bool :=
  match v with
  | None | Some JNull | Some (JBool false) => false
  | Some (JNum n) => negb (n =? 0)%Z
  | Some (JStr s) => negb (s =? EmptyString)
  | Some _ => true
  end.

Fixpoint assoc (k : string) (fields : list (string * json)) : jsval :=
  match fields with
  | [] => None
  | (k', v) :: r => if k' =? k then Some v else assoc k r
  end.

(** Property read [v.k] for the property names the program uses (none of
    them is an index or [length]): [null.k] throws, a missing property is
    [undefined]. *)
Definition get_prop (v : json) (k : string) : outcome jsval :=
  match v with
  | JNull => Thrown TypeError
  | JObj fields => Returned (assoc k fields)
  | _ => Returned None
  end.

(** Method call [v.toLowerCase()]: only strings have the method. *)
Definition call_toLowerCase (pf : Platform) (v : jsval) : outcome string :=
  match v with
  | Some (JStr s) => Returned (toLowerCase pf s)
  | _ => Thrown TypeError
  end.

(** An object literal: a field whose value is [undefined] is not written by
    [JSON.stringify]. *)
Fixpoint object_literal (fields : list (string * jsval)) : list (string * json) :=
  match fields with
  | [] => []
  | (k, Some v) :: r => (k, v) :: object_literal r
  | (_, None) :: r => object_literal r
  end.

(** ** Knowledge base (employee.json, about.json, faq.json) *)

Module Emp.
Record t : Type := mk {
  name : string;
  designation : string;
  email : string;
  rest : list (string * json)
}.
End Emp.

Module Service.
Record t : Type := mk {
  title : string;
  description : string;
  rest : list (string * json)
}.
End Service.

Module Faq.
Record t : Type := mk {
  question : string;
  answer : string;
  rest : list (string * json)
}.
End Faq.

Module FaqCategory.
Record t : Type := mk {
  title_highlight : string;
  faqs : list Faq.t
}.
End FaqCategory.

Module About.
Record t : Type := mk {
  company_name : jsval;
  description : jsval;
  closing_statement : jsval;
  services_intro : jsval;
  services : list Service.t
}.
End About.

Record KnowledgeBase : Type := {
  employees : list Emp.t;
  aboutData : About.t;
  faqData : list FaqCategory.t
}.

(** ** Tool dispatcher *)

Record EmpSummary : Type := {
  sum_name : string;
  sum_designation : string;
  sum_email : string
}.

Record FaqHit : Type := {
  hit_category : string;
  hit_question : string;
  hit_answer : string
}.

(** The object literals [executeTool] returns, one constructor per shape. *)
Inductive ToolResult : Type :=
| Failure (message : string)
| EmployeesByName (found : list Emp.t)
| EmployeesByDesignation (count : nat) (found : list Emp.t)
| AllEmployees (count : nat) (summary : list EmpSummary)
| CompanyInfo (company description closingStatement : jsval)
| ServicesFound (found : list Service.t)
| ServicesAll (intro : jsval) (services : list Service.t)
| FaqsFound (count : nat) (results : list FaqHit)
| FaqCategoryFound (category : string) (count : nat) (faqs : list Faq.t).

Definition success (r : ToolResult) : bool :=
  match r with
  | Failure _ => false
  | _ => true
  end.

Definition executeTool (pf : Platform) (kb : KnowledgeBase) (name : jsval)
    (args : json)
  : outcome ToolResult :=
  match name with
  | Some (JStr tool) =>
      if tool =? "getEmployeeByName" then
        arg <- get_prop args "name" ;;
        searchTerm <- call_toLowerCase pf arg ;;
        let found :=
          filter (fun emp => includes (toLowerCase pf (Emp.name emp)) searchTerm)
                 (employees kb) in
        if (List.length found =? 0)%nat then
          Returned (Failure ("No employee found matching " ++ quoted (ToString_val arg)))
        else Returned (EmployeesByName found)
      else if tool =? "getEmployeeByDesignation" then
        arg <- get_prop args "designation" ;;
        searchTerm <- call_toLowerCase pf arg ;;
        let found :=
          filter (fun emp => includes (toLowerCase pf (Emp.designation emp)) searchTerm)
                 (employees kb) in
        if (List.length found =? 0)%nat then
          Returned (Failure ("No employees found with designation "
                             ++ quoted (ToString_val arg)))
        else Returned (EmployeesByDesignation (List.length found) found)
      else if tool =? "getAllEmployees" then
        let summary :=
          map (fun emp => {| sum_name := Emp.name emp;
                             sum_designation := Emp.designation emp;
                             sum_email := Emp.email emp |})
              (employees kb) in
        Returned (AllEmployees (List.length (employees kb)) summary)
      else if tool =? "getCompanyInfo" then
        Returned (CompanyInfo (About.company_name (aboutData kb))
                              (About.description (aboutData kb))
                              (About.closing_statement (aboutData kb)))
      else if tool =? "getServices" then
        arg <- get_prop args "serviceName" ;;
        if truthy arg then
          searchTerm <- call_toLowerCase pf arg ;;
          let found :=
            filter (fun service =>
                      includes (toLowerCase pf (Service.title service)) searchTerm
                      || includes (toLowerCase pf (Service.description service)) searchTerm)
                   (About.services (aboutData kb)) in
          if (List.length found =? 0)%nat then
            Returned (Failure ("No service found matching " ++ quoted (ToString_val arg)))
          else Returned (ServicesFound found)
        else
          Returned (ServicesAll (About.services_intro (aboutData kb))
                                (About.services (aboutData kb)))
      else if tool =? "searchFAQ" then
        arg <- get_prop args "query" ;;
        searchTerm <- call_toLowerCase pf arg ;;
        let results :=
          flat_map (fun category =>
                      map (fun faq => {| hit_category := FaqCategory.title_highlight category;
                                         hit_question := Faq.question faq;
                                         hit_answer := Faq.answer faq |})
                          (filter (fun faq =>
                                     includes (toLowerCase pf (Faq.question faq)) searchTerm
                                     || includes (toLowerCase pf (Faq.answer faq)) searchTerm)
                                  (FaqCategory.faqs category)))
                   (faqData kb) in
        if (List.length results =? 0)%nat then
          Returned (Failure ("No FAQs found matching " ++ quoted (ToString_val arg)))
        else Returned (FaqsFound (List.length results) results)
      else if tool =? "getFAQsByCategory" then
        arg <- get_prop args "category" ;;
        searchTerm <- call_toLowerCase pf arg ;;
        match find (fun cat => includes (toLowerCase pf (FaqCategory.title_highlight cat))
                                        searchTerm)
                   (faqData kb) with
        | None =>
            let categories := map FaqCategory.title_highlight (faqData kb) in
            Returned (Failure ("Category not found. Available: " ++ join ", " categories))
        | Some found =>
            Returned (FaqCategoryFound (FaqCategory.title_highlight found)
                                       (List.length (FaqCategory.faqs found))
                                       (FaqCategory.faqs found))
        end
      else Returned (Failure ("Unknown tool: " ++ tool))
  | _ => Returned (Failure ("Unknown tool: " ++ ToString_val name))
  end.

(** ** Serialisation of tool results

    [JSON.stringify(result)] walks the object literal; these functions give
    the literal of each result shape, with the keys of the literal in
    source order.  A record of the knowledge base is written with the
    fields the program reads first and its other fields after them; the
    key order of the data files, which the program does not depend on, is
    not modelled. *)

Definition Emp_to_json (e : Emp.t) : json :=
  JObj ([("name", JStr (Emp.name e));
         ("designation", JStr (Emp.designation e));
         ("email", JStr (Emp.email e))] ++ Emp.rest e).

Definition EmpSummary_to_json (e : EmpSummary) : json :=
  JObj [("name", JStr (sum_name e));
        ("designation", JStr (sum_designation e));
        ("email", JStr (sum_email e))].

Definition Service_to_json (s : Service.t) : json :=
  JObj ([("title", JStr (Service.title s));
         ("description", JStr (Service.description s))] ++ Service.rest s).

Definition Faq_to_json (f : Faq.t) : json :=
  JObj ([("question", JStr (Faq.question f));
         ("answer", JStr (Faq.answer f))] ++ Faq.rest f).

Definition FaqHit_to_json (h : FaqHit) : json :=
  JObj [("category", JStr (hit_category h));
        ("question", JStr (hit_question h));
        ("answer", JStr (hit_answer h))].

Definition JCount (n : nat) : json := JNum (Z.of_nat n).

Definition ToolResult_to_json (r : ToolResult) : json :=
  match r with
  | Failure message =>
      JObj [("success", JBool false); ("message", JStr message)]
  | EmployeesByName found =>
      JObj [("success", JBool true); ("employees", JArr (map Emp_to_json found))]
  | EmployeesByDesignation count found =>
      JObj [("success", JBool true); ("count", JCount count);
            ("employees", JArr (map Emp_to_json found))]
  | AllEmployees count summary =>
      JObj [("success", JBool true); ("count", JCount count);
            ("employees", JArr (map EmpSummary_to_json summary))]
  | CompanyInfo company description closingStatement =>
      JObj (object_literal [("success", Some (JBool true));
                            ("company", company);
                            ("description", description);
                            ("closingStatement", closingStatement)])
  | ServicesFound found =>
      JObj [("success", JBool true); ("services", JArr (map Service_to_json found))]
  | ServicesAll intro services =>
      JObj (object_literal [("success", Some (JBool true));
                            ("intro", intro);
                            ("services", Some (JArr (map Service_to_json services)))])
  | FaqsFound count results =>
      JObj [("success", JBool true); ("count", JCount count);
            ("faqs", JArr (map FaqHit_to_json results))]
  | FaqCategoryFound category count faqs =>
      JObj [("success", JBool true); ("category", JStr category);
            ("count", JCount count); ("faqs", JArr (map Faq_to_json faqs))]
  end.

(** ** Relay session ([handleRealtimeConnection]) *)

Inductive ReadyState : Type := CONNECTING | OPEN | CLOSING | CLOSED.

Definition is_OPEN (st : ReadyState) : bool :=
  match st with OPEN => true | _ => false end.

(** A connection handle of the [ws] package: its state and the frames it
    has put on the wire, oldest first. *)
Record WebSocket : Type := {
  readyState : ReadyState;
  sent : list string
}.

(** [ws.send(data)] without a callback: throws while connecting, transmits
    when open, and drops the frame once closing or closed. *)
Definition ws_send (ws : WebSocket) (data : string) : outcome WebSocket :=
  match readyState ws with
  | CONNECTING => Thrown NotOpenError
  | OPEN => Returned {| readyState := OPEN; sent := sent ws ++ [data] |}
  | CLOSING | CLOSED => Returned ws
  end.

(** [ws.close()]: starts the closing handshake unless already closed. *)
Definition ws_close (ws : WebSocket) : WebSocket :=
  match readyState ws with
  | CLOSED => ws
  | _ => {| readyState := CLOSING; sent := sent ws |}
  end.

Definition with_state (st : ReadyState) (ws : WebSocket) : WebSocket :=
  {| readyState := st; sent := sent ws |}.

Record RelaySession : Type := {
  clientWs : WebSocket;
  openaiWs : WebSocket
}.

(** The session right after [handleRealtimeConnection] returned: the client
    is connected, the upstream dial is in progress. *)
Definition handleRealtimeConnection : RelaySession :=
  {| clientWs := {| readyState := OPEN; sent := [] |};
     openaiWs := {| readyState := CONNECTING; sent := [] |} |}.

(** [v === "literal"]. *)
Definition strict_eq_string (v : jsval) (literal : string) : bool :=
  match v with
  | Some (JStr s) => s =? literal
  | _ => false
  end.

(** Destructuring read of a property of a value known not to be null. *)
Definition prop (v : json) (k : string) : jsval :=
  match v with
  | JObj fields => assoc k fields
  | _ => None
  end.

Definition function_call_output (call_id : jsval) (output : string) : json :=
  JObj [("type", JStr "conversation.item.create");
        ("item", JObj (object_literal
                         [("type", Some (JStr "function_call_output"));
                          ("call_id", call_id);
                          ("output", Some (JStr output))]))].

Definition response_create : json := JObj [("type", JStr "response.create")].

(** The [open] handler; [session_update] is the object literal of the
    [session.update] message (lines 277-297 of server.ts). *)
Definition on_openai_open (pf : Platform) (session_update : json)
    (s : RelaySession) : RelaySession :=
  match ws_send (openaiWs s) (JSON_stringify pf session_update) with
  | Returned up => {| clientWs := clientWs s; openaiWs := up |}
  | Thrown _ => s
  end.

(** Relay messages: client to OpenAI.  [data] is the payload of the
    frame, text or binary. *)
Definition on_client_message (pf : Platform) (s : RelaySession) (data : string)
  : RelaySession :=
  match parse pf (toString pf data) with
  | Thrown _ => s
  | Returned message =>
      if is_OPEN (readyState (openaiWs s)) then
        match ws_send (openaiWs s) (JSON_stringify pf message) with
        | Returned up => {| clientWs := clientWs s; openaiWs := up |}
        | Thrown _ => s
        end
      else s
  end.

(** The inner [try] block of the tool-call branch (lines 335-360): the
    result is the upstream handle when the block is left, normally or
    through the [catch]. *)
Definition handle_tool_call (pf : Platform) (kb : KnowledgeBase) (msg : json)
    (up : WebSocket) : WebSocket :=
  let call_id := prop msg "call_id" in
  let name := prop msg "name" in
  let argsString := prop msg "arguments" in
  match (args <- parse pf (ToString_val argsString) ;; executeTool pf kb name args) with
  | Thrown _ => up
  | Returned result =>
      let output := JSON_stringify pf (ToolResult_to_json result) in
      match ws_send up (JSON_stringify pf (function_call_output call_id output)) with
      | Thrown _ => up
      | Returned up1 =>
          match ws_send up1 (JSON_stringify pf response_create) with
          | Thrown _ => up1
          | Returned up2 => up2
          end
      end
  end.

(** Relay messages: OpenAI to client, with the tool-call interception. *)
Definition on_openai_message (pf : Platform) (kb : KnowledgeBase)
    (s : RelaySession) (data : string) : RelaySession :=
  let responseString := toString pf data in
  let client :=
    if is_OPEN (readyState (clientWs s)) then
      match ws_send (clientWs s) responseString with
      | Returned c => c
      | Thrown _ => clientWs s
      end
    else clientWs s in
  let up :=
    match (msg <- parse pf responseString ;;
           ty <- get_prop msg "type" ;;
           Returned (msg, ty)) with
    | Thrown _ => openaiWs s
    | Returned (msg, ty) =>
        if strict_eq_string ty "response.function_call_arguments.done"
        then handle_tool_call pf kb msg (openaiWs s)
        else openaiWs s
    end in
  {| clientWs := client; openaiWs := up |}.

(** Cleanup on close. *)
Definition on_client_close (s : RelaySession) : RelaySession :=
  if is_OPEN (readyState (openaiWs s))
  then {| clientWs := clientWs s; openaiWs := ws_close (openaiWs s) |}
  else s.

Definition on_openai_close (s : RelaySession) : RelaySession :=
  if is_OPEN (readyState (clientWs s))
  then {| clientWs := ws_close (clientWs s); openaiWs := openaiWs s |}
  else s.

(** The events the session has handlers for.  A message event carries the
    payload bytes of the frame that arrived, text or binary (the handlers
    do not read the [isBinary] flag).  The [ws] package updates the
    handle's [readyState] before it calls the handler. *)
Inductive event : Type :=
| OpenaiOpen
| OpenaiError
| ClientMessage (data : string)
| OpenaiMessage (data : string)
| ClientClose
| OpenaiClose.

Definition deliver (pf : Platform) (session_update : json) (kb : KnowledgeBase)
    (s : RelaySession) (e : event) : RelaySession :=
  match e with
  | OpenaiOpen =>
      on_openai_open pf session_update
        {| clientWs := clientWs s; openaiWs := with_state OPEN (openaiWs s) |}
  | OpenaiError => s
  | ClientMessage data => on_client_message pf s data
  | OpenaiMessage data => on_openai_message pf kb s data
  | ClientClose =>
      on_client_close
        {| clientWs := with_state CLOSED (clientWs s); openaiWs := openaiWs s |}
  | OpenaiClose =>
      on_openai_close
        {| clientWs := clientWs s; openaiWs := with_state CLOSED (openaiWs s) |}
  end.

Definition run (pf : Platform) (session_update : json) (kb : KnowledgeBase)
    (s : RelaySession) (es : list event) : RelaySession :=
  fold_left (deliver pf session_update kb) es s.

(** ** Booking route (app/api/bookings/route.ts) *)

Module Booking.
Record t : Type := mk {
  email : jsval;
  phone : jsval;
  name : jsval;
  createdAt : Z
}.
End Booking.

(** The [bookings] collection: [insertOne] appends the document and
    returns its identifier, here its position. *)
Definition insertOne (collection : list Booking.t) (booking : Booking.t)
  : list Booking.t * nat :=
  ((collection ++ [booking])%list, List.length collection).

(** [POST]: [now] is the value of [new Date()], [body] the outcome of
    [req.json()], [db] the outcome of [connectToDatabase()] with the
    collection it gives access to.  The result is the status, the JSON body
    of the response and the collection afterwards. *)
Definition POST (now : Z) (body : outcome json) (db : outcome (list Booking.t))
  : nat * json * outcome (list Booking.t) :=
  let failed := (500%nat, JObj [("error", JStr "Failed to create booking")], db) in
  match (b <- body ;;
         email <- get_prop b "email" ;;
         phone <- get_prop b "phone" ;;
         name <- get_prop b "name" ;;
         Returned (email, phone, name)) with
  | Thrown _ => failed
  | Returned (email, phone, name) =>
      if negb (truthy email) || negb (truthy phone) || negb (truthy name)
      then (400%nat,
            JObj [("error", JStr "Missing required fields: email, phone, name")],
            db)
      else
        match db with
        | Thrown _ => failed
        | Returned collection =>
            let booking := Booking.mk email phone name now in
            let (collection', insertedId) := insertOne collection booking in
            (201%nat,
             JObj [("success", JBool true);
                   ("message", JStr "Booking created successfully");
                   ("bookingId", JCount insertedId)],
             Returned collection')
        end
  end.

(** ** Audio codec (voice assistant page) *)

Definition Qltb (x y : Q) : bool := negb (Qle_bool y x).

(** [Math.max(-1, Math.min(1, x))]. *)
Definition clamp (x : Q) : Q := Qmax (-1) (Qmin 1 x).

(** Truncation toward zero, the first step of [ToInt16]. *)
Definition Qtrunc (x : Q) : Z :=
  if Qltb x 0 then Qceiling x else Qfloor x.

(** [ToInt16]: truncate, reduce modulo 2^16, read as two's complement. *)
Definition ToInt16 (x : Q) : Z :=
  let m := (Qtrunc x mod 65536)%Z in
  if (32768 <=? m)%Z then (m - 65536)%Z else m.

(** The value [view.setInt16] receives for one sample. *)
Definition encode_sample (x : Q) : Z :=
  let s := clamp x in
  ToInt16 (if Qltb s 0 then s * 32768 else s * 32767).

(** [view.setInt16(offset, v, true)]: low byte first. *)
Definition setInt16_le (v : Z) : list Z :=
  let u := (v mod 65536)%Z in [(u mod 256)%Z; (u / 256)%Z].

Definition floatTo16BitPCM (float32Array : list Q) : list Z :=
  flat_map (fun x => setInt16_le (encode_sample x)) float32Array.

(** One element of an [Int16Array] over little-endian bytes. *)
Definition int16_of_bytes (lo hi : Z) : Z :=
  let u := (lo + 256 * hi)%Z in
  if (32768 <=? u)%Z then (u - 65536)%Z else u.

(** [new Int16Array(buffer)]: a RangeError unless the byte length is even. *)
Fixpoint Int16Array_of_buffer (bytes : list Z) : outcome (list Z) :=
  match bytes with
  | [] => Returned []
  | [_] => Thrown RangeError
  | lo :: hi :: r =>
      samples <- Int16Array_of_buffer r ;;
      Returned (int16_of_bytes lo hi :: samples)
  end.

(** [pcm16[i] / 0x7fff]. *)
Definition decode_sample (v : Z) : Q := inject_Z v / 32767.

Definition Uint8Array_new (n : nat) : list Z := repeat 0%Z n.

(** [bytes[i] = v] on a [Uint8Array]: the value is reduced modulo 256, and
    a write outside the array is ignored. *)
Fixpoint typed_set (bytes : list Z) (i : nat) (v : Z) : list Z :=
  match bytes, i with
  | [], _ => []
  | _ :: r, O => (v mod 256)%Z :: r
  | b :: r, S j => b :: typed_set r j v
  end.

(** [s.charCodeAt(i)]; out of range it is NaN, which a typed array stores
    as 0. *)
Definition charCodeAt (s : string) (i : nat) : Z :=
  match String.get i s with
  | Some c => Z.of_nat (nat_of_ascii c)
  | None => 0%Z
  end.

(** Lines 205-209: the byte array, padded to an even length, filled from
    the binary string. *)
Definition bytes_of_binaryString (binaryString : string) : list Z :=
  let len := String.length binaryString in
  let bytes := Uint8Array_new (if Nat.even len then len else len + 1) in
  fold_left (fun bytes i => typed_set bytes i (charCodeAt binaryString i))
            (seq 0 len) bytes.

(** Lines 203-217: from the transport payload to float samples. *)
Definition decode_chunk (pf : Platform) (base64Audio : string) : outcome (list Q) :=
  match atob pf base64Audio with
  | None => Thrown InvalidCharacterError
  | Some binaryString =>
      pcm16 <- Int16Array_of_buffer (bytes_of_binaryString binaryString) ;;
      Returned (map decode_sample pcm16)
  end.

(** ** IEEE-754 rounding

    The page computes in double arithmetic and stores decoded samples in
    a [Float32Array].  [round_to] is rounding to nearest, ties to even,
    into the binary format with [prec] significant bits and least
    exponent [emin]; the samples and the clock values of the page are far
    from overflow, which is left out. *)

Definition pow2 (e : Z) : Q := 2 ^ e.

(** The floor of the binary logarithm of [n / d], for positive [n], [d]. *)
Definition log2_ratio (n d : Z) : Z :=
  let k := (Z.log2 n - Z.log2 d)%Z in
  if (0 <=? k)%Z
  then (if (Z.shiftl d k <=? n)%Z then k else k - 1)%Z
  else (if (d <=? Z.shiftl n (- k))%Z then k else k - 1)%Z.

(** Rounding, over the Euclidean division [div_eucl] it is computed with:
    [e] is the exponent of the unit in the last place, [num / den] is
    | q | / 2^e, and the quotient is rounded to the nearest integer, to the
    even one on a tie. *)
Definition round_with (div_eucl : Z -> Z -> Z * Z) (prec emin : Z) (q : Q) : Q :=
  let n := Z.abs (Qnum q) in
  let d := Zpos (Qden q) in
  if (n =? 0)%Z then 0
  else
    let e := Z.max (log2_ratio n d - (prec - 1)) emin in
    let num := if (e <? 0)%Z then Z.shiftl n (- e) else n in
    let den := if (e <? 0)%Z then d else Z.shiftl d e in
    let (f, r) := div_eucl num den in
    let m := if (2 * r <? den)%Z then f
             else if (den <? 2 * r)%Z then (f + 1)%Z
             else if Z.even f then f else (f + 1)%Z in
    let m := if (Qnum q <? 0)%Z then (- m)%Z else m in
    if (e <? 0)%Z then Qmake m (Z.to_pos (2 ^ (- e)))
    else inject_Z (Z.shiftl m e).

Definition round_to : Z -> Z -> Q -> Q := round_with Z.div_eucl.

(** The result of an arithmetic operation on Numbers. *)
Definition to_double (q : Q) : Q := round_to 53 (-1074) q.

(** A store into a [Float32Array]. *)
Definition to_float32 (q : Q) : Q := round_to 24 (-149) q.

(** ** Playback scheduler and barge-in *)

Definition sampleRate : Q := 24000.

Inductive AudioContextState : Type := suspended | running | closed.

(** A started [AudioBufferSourceNode]: its samples, its start time and
    whether [stop()] was called on it. *)
Record SourceNode : Type := {
  channelData : list Q;
  startTime : Q;
  stopped : bool
}.

(** [buffer.duration]: the length divided by the sample rate, a Number. *)
Definition duration (n : SourceNode) : Q :=
  to_double (inject_Z (Z.of_nat (List.length (channelData n))) / sampleRate).

(** The refs of the page.  [nodes] is the store of source nodes created so
    far; [audioQueueRef] holds references (indices) into it. *)
Record Page : Type := {
  audioContextRef : option AudioContextState;
  nodes : list SourceNode;
  audioQueueRef : list nat;
  nextStartTimeRef : Q
}.

(** [audioContext.createBuffer(1, length, 24000)] rejects a zero length. *)
Definition createBuffer (samples : list Q) : outcome (list Q) :=
  match samples with
  | [] => Thrown NotSupportedError
  | _ => Returned samples
  end.

Definition resume (st : AudioContextState) : AudioContextState :=
  match st with
  | suspended => running
  | _ => st
  end.

(** [playAudioChunk]; [currentTime] is the reading of
    [audioContext.currentTime] at line 228.  [Math.max] is exact; the sum
    [startTime + buffer.duration] at line 237 is a double addition. *)
Definition playAudioChunk (pf : Platform) (currentTime : Q)
    (base64Audio : string) (p : Page) : Page :=
  match audioContextRef p with
  | None => p
  | Some audioContext =>
      let p0 := {| audioContextRef := Some (resume audioContext);
                   nodes := nodes p;
                   audioQueueRef := audioQueueRef p;
                   nextStartTimeRef := nextStartTimeRef p |} in
      match (float32 <- decode_chunk pf base64Audio ;; createBuffer float32) with
      | Thrown _ => p0
      | Returned buffer =>
          let start := Qmax currentTime (nextStartTimeRef p) in
          let source := {| channelData := buffer;
                           startTime := start;
                           stopped := false |} in
          {| audioContextRef := Some (resume audioContext);
             nodes := nodes p ++ [source];
             audioQueueRef := audioQueueRef p ++ [List.length (nodes p)];
             nextStartTimeRef := to_double (start + duration source) |}
      end
  end.

Definition mark_stopped (n : SourceNode) : SourceNode :=
  {| channelData := channelData n; startTime := startTime n; stopped := true |}.

(** [source.stop()] on the node a reference points to. *)
Fixpoint stop_node (store : list SourceNode) (ref : nat) : list SourceNode :=
  match store, ref with
  | [], _ => []
  | n :: r, O => mark_stopped n :: r
  | n :: r, S j => n :: stop_node r j
  end.

Definition stopAudioPlayback (p : Page) : Page :=
  match audioContextRef p with
  | None => p
  | Some audioContext =>
      {| audioContextRef := Some audioContext;
         nodes := fold_left stop_node (audioQueueRef p) (nodes p);
         audioQueueRef := [];
         nextStartTimeRef := 0 |}
  end.

(** [handleServerMessage]; the cases that only set the status line fall
    under the last branch. *)
Definition handleServerMessage (pf : Platform) (currentTime : Q)
    (data : string) (p : Page) : Page :=
  match (message <- parse pf data ;;
         ty <- get_prop message "type" ;;
         Returned (message, ty)) with
  | Thrown _ => p
  | Returned (message, ty) =>
      if strict_eq_string ty "response.audio.delta" then
        playAudioChunk pf currentTime (ToString_val (prop message "delta")) p
      else if strict_eq_string ty "input_audio_buffer.speech_started" then
        stopAudioPlayback p
      else p
  end.

(** The page once [startAssistant] has created the audio context. *)
Definition page_started : Page :=
  {| audioContextRef := Some running;
     nodes := [];
     audioQueueRef := [];
     nextStartTimeRef := 0 |}.

(** A run of the message callback: each message comes with the clock
    reading its handler would see. *)
Definition handle_all (pf : Platform) (msgs : list (Q * string)) (p : Page) : Page :=
  fold_left (fun p m => handleServerMessage pf (fst m) (snd m) p) msgs p.

(** A run of audio chunks through [playAudioChunk], with no other message
    in between. *)
Definition play_all (pf : Platform) (chunks : list (Q * string)) (p : Page) : Page :=
  fold_left (fun p c => playAudioChunk pf (fst c) (snd c) p) chunks p.

(** ** A concrete platform, for running the model on examples *)

Definition chr (n : nat) : string := String (ascii_of_nat n) EmptyString.

Fixpoint drop (n : nat) (s : string) : string :=
  match n, s with
  | O, _ => s
  | S m, String _ r => drop m r
  | S _, EmptyString => EmptyString
  end.

(** A reader and a writer for the JSON texts whose numbers are integer
    numerals and whose strings use no [\u] escape. *)
Module JsonText.

Inductive token : Type :=
| TLBrace | TRBrace | TLBrack | TRBrack | TColon | TComma
| TLit (v : json).

Definition is_ws (c : ascii) : bool :=
  let n := nat_of_ascii c in
  (n =? 32)%nat || (n =? 9)%nat || (n =? 10)%nat || (n =? 13)%nat.

Definition digit_of (c : ascii) : option Z :=
  let n := nat_of_ascii c in
  if (48 <=? n)%nat && (n <=? 57)%nat then Some (Z.of_nat (n - 48)) else None.

(** The character an escape letter stands for. *)
Definition unescape (c : ascii) : option ascii :=
  let n := nat_of_ascii c in
  if (n =? 34)%nat then Some c
  else if (n =? 92)%nat then Some c
  else if (n =? 47)%nat then Some c
  else if (n =? 98)%nat then Some (ascii_of_nat 8)
  else if (n =? 102)%nat then Some (ascii_of_nat 12)
  else if (n =? 110)%nat then Some (ascii_of_nat 10)
  else if (n =? 114)%nat then Some (ascii_of_nat 13)
  else if (n =? 116)%nat then Some (ascii_of_nat 9)
  else None.

(** The body of a string literal, after its opening quote. *)
Fixpoint lex_string (s : string) (acc : string) : option (string * string) :=
  match s with
  | EmptyString => None
  | String c r =>
      let n := nat_of_ascii c in
      if (n =? 34)%nat then Some (acc, r)
      else if (n =? 92)%nat then
        match r with
        | String e r' =>
            match unescape e with
            | Some ch => lex_string r' (acc ++ String ch EmptyString)
            | None => None
            end
        | EmptyString => None
        end
      else if (n <? 32)%nat then None
      else lex_string r (acc ++ String c EmptyString)
  end.

Fixpoint lex_digits (s : string) (acc : Z) (count : nat) : Z * nat * string :=
  match s with
  | EmptyString => (acc, count, s)
  | String c r =>
      match digit_of c with
      | Some d => lex_digits r (10 * acc + d)%Z (S count)
      | None => (acc, count, s)
      end
  end.

(** An integer numeral: no leading zero, no fraction, no exponent. *)
Definition lex_number (s : string) : option (Z * string) :=
  let '(negative, body) :=
    match s with
    | String "-"%char r => (true, r)
    | _ => (false, s)
    end in
  let '(value, count, rest) := lex_digits body 0%Z 0 in
  let leading_zero :=
    match body with
    | String "0"%char _ => (1 <? count)%nat
    | _ => false
    end in
  let continues :=
    match rest with
    | String c _ =>
        let n := nat_of_ascii c in
        (n =? 46)%nat || (n =? 101)%nat || (n =? 69)%nat
    | EmptyString => false
    end in
  if (count =? 0)%nat || leading_zero || continues then None
  else Some (if negative then (- value)%Z else value, rest).

Definition cons_token (t : token) (r : option (list token)) : option (list token) :=
  match r with
  | Some ts => Some (t :: ts)
  | None => None
  end.

Fixpoint lex (fuel : nat) (s : string) : option (list token) :=
  match fuel with
  | O => None
  | S f =>
      match s with
      | EmptyString => Some []
      | String c r =>
          let n := nat_of_ascii c in
          if is_ws c then lex f r
          else if (n =? 123)%nat then cons_token TLBrace (lex f r)
          else if (n =? 125)%nat then cons_token TRBrace (lex f r)
          else if (n =? 91)%nat then cons_token TLBrack (lex f r)
          else if (n =? 93)%nat then cons_token TRBrack (lex f r)
          else if (n =? 58)%nat then cons_token TColon (lex f r)
          else if (n =? 44)%nat then cons_token TComma (lex f r)
          else if (n =? 34)%nat then
            match lex_string r EmptyString with
            | Some (str, rest) => cons_token (TLit (JStr str)) (lex f rest)
            | None => None
            end
          else if prefix "true" s then cons_token (TLit (JBool true)) (lex f (drop 4 s))
          else if prefix "false" s then cons_token (TLit (JBool false)) (lex f (drop 5 s))
          else if prefix "null" s then cons_token (TLit JNull) (lex f (drop 4 s))
          else
            match lex_number s with
            | Some (z, rest) => cons_token (TLit (JNum z)) (lex f rest)
            | None => None
            end
      end
  end.

(** A later member with the same key replaces the value of the earlier. *)
Fixpoint put (k : string) (v : json) (fields : list (string * json))
  : list (string * json) :=
  match fields with
  | [] => [(k, v)]
  | (k', v') :: r => if k' =? k then (k', v) :: r else (k', v') :: put k v r
  end.

Fixpoint parse_value (fuel : nat) (ts : list token) : option (json * list token) :=
  match fuel with
  | O => None
  | S f =>
      match ts with
      | TLit v :: r => Some (v, r)
      | TLBrack :: TRBrack :: r => Some (JArr [], r)
      | TLBrack :: r => parse_elements f r []
      | TLBrace :: TRBrace :: r => Some (JObj [], r)
      | TLBrace :: r => parse_members f r []
      | _ => None
      end
  end
with parse_elements (fuel : nat) (ts : list token) (acc : list json)
  : option (json * list token) :=
  match fuel with
  | O => None
  | S f =>
      match parse_value f ts with
      | Some (v, TComma :: r) => parse_elements f r (acc ++ [v])
      | Some (v, TRBrack :: r) => Some (JArr (acc ++ [v]), r)
      | _ => None
      end
  end
with parse_members (fuel : nat) (ts : list token) (acc : list (string * json))
  : option (json * list token) :=
  match fuel with
  | O => None
  | S f =>
      match ts with
      | TLit (JStr k) :: TColon :: r =>
          match parse_value f r with
          | Some (v, TComma :: r') => parse_members f r' (put k v acc)
          | Some (v, TRBrace :: r') => Some (JObj (put k v acc), r')
          | _ => None
          end
      | _ => None
      end
  end.

Definition parse_text (text : string) : option json :=
  match lex (S (String.length text)) text with
  | None => None
  | Some ts =>
      match parse_value (2 * List.length ts + 2) ts with
      | Some (v, []) => Some v
      | _ => None
      end
  end.

Definition hex_digit (n : nat) : string :=
  chr (if (n <? 10)%nat then 48 + n else 87 + n).

Definition escape_char (c : ascii) : string :=
  let n := nat_of_ascii c in
  if (n =? 34)%nat then chr 92 ++ chr 34
  else if (n =? 92)%nat then chr 92 ++ chr 92
  else if (n =? 8)%nat then chr 92 ++ "b"
  else if (n =? 12)%nat then chr 92 ++ "f"
  else if (n =? 10)%nat then chr 92 ++ "n"
  else if (n =? 13)%nat then chr 92 ++ "r"
  else if (n =? 9)%nat then chr 92 ++ "t"
  else if (n <? 32)%nat then chr 92 ++ "u00" ++ hex_digit (n / 16) ++ hex_digit (n mod 16)
  else String c EmptyString.

Fixpoint escape (s : string) : string :=
  match s with
  | EmptyString => EmptyString
  | String c r => escape_char c ++ escape r
  end.

Definition quote (s : string) : string := dq ++ escape s ++ dq.

Fixpoint stringify (v : json) : string :=
  match v with
  | JNull => "null"
  | JBool true => "true"
  | JBool false => "false"
  | JNum n => Z_to_string n
  | JStr s => quote s
  | JArr items => "[" ++ join "," (map stringify items) ++ "]"
  | JObj fields =>
      "{" ++ join "," (map (fun kv => (quote (fst kv) ++ ":" ++ stringify (snd kv))%string)
                           fields)
          ++ "}"
  end.

End JsonText.

(** The forgiving base64 decoder behind [atob]. *)
Module Base64.

Definition is_ws (c : ascii) : bool :=
  let n := nat_of_ascii c in
  (n =? 32)%nat || (n =? 9)%nat || (n =? 10)%nat || (n =? 12)%nat || (n =? 13)%nat.

Fixpoint strip_ws (s : string) : list ascii :=
  match s with
  | EmptyString => []
  | String c r => if is_ws c then strip_ws r else c :: strip_ws r
  end.

Definition is_pad (c : ascii) : bool := (nat_of_ascii c =? 61)%nat.

(** Drops one or two trailing [=] of an input whose length is a multiple
    of four. *)
Definition strip_padding (cs : list ascii) : list ascii :=
  if (List.length cs mod 4 =? 0)%nat then
    match rev cs with
    | p1 :: p2 :: r =>
        if is_pad p1 then (if is_pad p2 then rev r else rev (p2 :: r)) else cs
    | _ => cs
    end
  else cs.

Definition sextet (c : ascii) : option Z :=
  let n := nat_of_ascii c in
  if (65 <=? n)%nat && (n <=? 90)%nat then Some (Z.of_nat (n - 65))
  else if (97 <=? n)%nat && (n <=? 122)%nat then Some (Z.of_nat (n - 71))
  else if (48 <=? n)%nat && (n <=? 57)%nat then Some (Z.of_nat (n + 4))
  else if (n =? 43)%nat then Some 62%Z
  else if (n =? 47)%nat then Some 63%Z
  else None.

Fixpoint sextets (cs : list ascii) : option (list Z) :=
  match cs with
  | [] => Some []
  | c :: r =>
      match sextet c, sextets r with
      | Some v, Some vs => Some (v :: vs)
      | _, _ => None
      end
  end.

Definition byte (z : Z) : string :=
  String (ascii_of_N (Z.to_N (z mod 256))) EmptyString.

Fixpoint bytes_of_sextets (vs : list Z) : string :=
  match vs with
  | a :: b :: c :: d :: r =>
      let n := (((a * 64 + b) * 64 + c) * 64 + d)%Z in
      byte (n / 65536) ++ byte (n / 256) ++ byte n ++ bytes_of_sextets r
  | [a; b; c] =>
      let n := (((a * 64 + b) * 64 + c) / 4)%Z in
      byte (n / 256) ++ byte n
  | [a; b] => byte ((a * 64 + b) / 16)
  | _ => EmptyString
  end.

Definition atob (data : string) : option string :=
  let cs := strip_padding (strip_ws data) in
  if (List.length cs mod 4 =? 1)%nat then None
  else
    match sextets cs with
    | Some vs => Some (bytes_of_sextets vs)
    | None => None
    end.

End Base64.

(** [Buffer.prototype.toString()]: the bytes are read as UTF-8, and every
    maximal ill-formed part is replaced by U+FFFD; the text is written in
    UTF-8 again, so well-formed input comes back unchanged. *)
Module Utf8.

Definition between (lo hi : nat) (c : ascii) : bool :=
  ((lo <=? nat_of_ascii c) && (nat_of_ascii c <=? hi))%nat.

(** U+FFFD, the bytes EF BF BD. *)
Definition replacement : string :=
  String "239" (String "191" (String "189" EmptyString)).

(** The bytes that may follow the lead byte of a sequence of three or
    four: E0 and F0 exclude the overlong forms, ED the surrogates and F4
    the code points above U+10FFFF. *)
Definition second_lo (lead : ascii) : nat :=
  if (nat_of_ascii lead =? 224)%nat then 160
  else if (nat_of_ascii lead =? 240)%nat then 144
  else 128.

Definition second_hi (lead : ascii) : nat :=
  if (nat_of_ascii lead =? 237)%nat then 159
  else if (nat_of_ascii lead =? 244)%nat then 143
  else 191.

Fixpoint decode (s : string) : string :=
  match s with
  | EmptyString => EmptyString
  | String b r =>
      if between 0 127 b then String b (decode r)
      else if between 194 223 b then
        match r with
        | String c1 r1 =>
            if between 128 191 c1 then String b (String c1 (decode r1))
            else replacement ++ decode r
        | EmptyString => replacement
        end
      else if between 224 239 b then
        match r with
        | String c1 r1 =>
            if between (second_lo b) (second_hi b) c1 then
              match r1 with
              | String c2 r2 =>
                  if between 128 191 c2
                  then String b (String c1 (String c2 (decode r2)))
                  else replacement ++ decode r1
              | EmptyString => replacement
              end
            else replacement ++ decode r
        | EmptyString => replacement
        end
      else if between 240 244 b then
        match r with
        | String c1 r1 =>
            if between (second_lo b) (second_hi b) c1 then
              match r1 with
              | String c2 r2 =>
                  if between 128 191 c2 then
                    match r2 with
                    | String c3 r3 =>
                        if between 128 191 c3
                        then String b (String c1 (String c2 (String c3 (decode r3))))
                        else replacement ++ decode r2
                    | EmptyString => replacement
                    end
                  else replacement ++ decode r1
              | EmptyString => replacement
              end
            else replacement ++ decode r
        | EmptyString => replacement
        end
      else replacement ++ decode r
  end.

End Utf8.

(** [toLowerCase] on the ASCII letters. *)
Definition lower_ascii (c : ascii) : ascii :=
  let n := nat_of_ascii c in
  if (65 <=? n)%nat && (n <=? 90)%nat then ascii_of_nat (n + 32) else c.

Fixpoint ascii_toLowerCase (s : string) : string :=
  match s with
  | EmptyString => EmptyString
  | String c r => String (lower_ascii c) (ascii_toLowerCase r)
  end.

Definition browser : Platform :=
  {| JSON_parse := JsonText.parse_text;
     JSON_stringify := JsonText.stringify;
     toLowerCase := ascii_toLowerCase;
     atob := Base64.atob;
     toString := Utf8.decode |}.

(** A small knowledge base in the shape of the three JSON files. *)
Definition demo_kb : KnowledgeBase :=
  {| employees :=
       [Emp.mk "John Carter" "CTO" "john@sb.example" [];
        Emp.mk "Johnny Lee" "Full-Stack Engineer" "johnny@sb.example"
               [("phone", JStr "555-0101")];
        Emp.mk "Alice Moore" "Designer" "alice@sb.example" []];
     aboutData :=
       About.mk (Some (JStr "StrategyByte")) (Some (JStr "A digital agency"))
                (Some (JStr "Talk to us")) (Some (JStr "What we do"))
                [Service.mk "Website Development" "Fast sites" [];
                 Service.mk "SEO" "Search ranking for your website" []];
     faqData :=
       [FaqCategory.mk "Marketing Agency"
          [Faq.mk "What does it cost?" "It depends on scope." []];
        FaqCategory.mk "Content Marketing"
          [Faq.mk "Do you write blogs?" "Yes."  [];
           Faq.mk "How often?" "Weekly." []];
        FaqCategory.mk "Website Development"
          [Faq.mk "Which stack?" "Next.js." []];
        FaqCategory.mk "Brand Management" []] |}.

(** ** Vocabulary of the statements *)

(** The seven cases of the [switch] in [executeTool]. *)
Definition tool_names : list string :=
  ["getEmployeeByName"; "getEmployeeByDesignation"; "getAllEmployees";
   "getCompanyInfo"; "getServices"; "searchFAQ"; "getFAQsByCategory"].

Definition known_tool (name : jsval) : bool :=
  match name with
  | Some (JStr tool) => existsb (String.eqb tool) tool_names
  | _ => false
  end.

Definition is_string (v : jsval) : bool :=
  match v with
  | Some (JStr _) => true
  | _ => false
  end.

(** The argument objects a tool can work with: the argument it reads is a
    string (for [getServices]: a string or a falsy value, on a non-null
    object).  Tools that read no argument accept everything. *)
Definition args_accepted (name : jsval) (args : json) : bool :=
  match name with
  | Some (JStr tool) =>
      if tool =? "getEmployeeByName" then is_string (prop args "name")
      else if tool =? "getEmployeeByDesignation" then is_string (prop args "designation")
      else if tool =? "getAllEmployees" then true
      else if tool =? "getCompanyInfo" then true
      else if tool =? "getServices" then
        match args with
        | JNull => false
        | _ => negb (truthy (prop args "serviceName"))
               || is_string (prop args "serviceName")
        end
      else if tool =? "searchFAQ" then is_string (prop args "query")
      else if tool =? "getFAQsByCategory" then is_string (prop args "category")
      else true
  | _ => true
  end.

(** The number of records a lookup result carries. *)
Definition matches_of (r : ToolResult) : option nat :=
  match r with
  | EmployeesByName found => Some (List.length found)
  | EmployeesByDesignation _ found => Some (List.length found)
  | ServicesFound found => Some (List.length found)
  | FaqsFound _ results => Some (List.length results)
  | _ => None
  end.

(** [term] occurs in [field], letter case ignored. *)
Definition ci_contains (pf : Platform) (field term : string) : Prop :=
  exists a b, toLowerCase pf field = a ++ toLowerCase pf term ++ b.

Definition ci_includes (pf : Platform) (field term : string) : bool :=
  includes (toLowerCase pf field) (toLowerCase pf term).

(** ** Sample frames and sessions *)

(** A [response.function_call_arguments.done] frame as the upstream writes
    it. *)
Definition tool_call_frame (call_id name arguments : string) : string :=
  JsonText.stringify
    (JObj [("type", JStr "response.function_call_arguments.done");
           ("call_id", JStr call_id);
           ("name", JStr name);
           ("arguments", JStr arguments)]).

(** A session with both connections open and nothing sent yet. *)
Definition session_active : RelaySession :=
  {| clientWs := {| readyState := OPEN; sent := [] |};
     openaiWs := {| readyState := OPEN; sent := [] |} |}.

(** A [session.update] message, for runs that include the upstream open
    event. *)
Definition sample_session_update : json :=
  JObj [("type", JStr "session.update");
        ("session", JObj [("voice", JStr "alloy");
                          ("input_audio_format", JStr "pcm16");
                          ("output_audio_format", JStr "pcm16")])].

(** The character codes of a binary string. *)
Definition char_codes (s : string) : list Z :=
  map (fun c => Z.of_nat (nat_of_ascii c)) (list_ascii_of_string s).

(** The values a Number can hold, overflow aside. *)
Definition is_double (q : Q) : Prop :=
  exists m e : Z,
    (Z.abs m < 2 ^ 53)%Z /\ (-1074 <= e)%Z /\ q == inject_Z m * pow2 e.

(** The end of a source as line 237 computes it: [startTime +
    buffer.duration], a double addition. *)
Definition scheduled_end (n : SourceNode) : Q :=
  to_double (startTime n + duration n).

(** Consecutive sources are in sequence: each one starts no earlier than
    the scheduled end of the previous one. *)
Fixpoint in_sequence (l : list SourceNode) : Prop :=
  match l with
  | a :: (b :: _) as r => scheduled_end a <= startTime b /\ in_sequence r
  | _ => True
  end.

(** Sources scheduled one after the other from a cursor value: each starts
    at or after the cursor it found, and leaves the cursor at its
    scheduled end. *)
Fixpoint chained (cursor : Q) (l : list SourceNode) (final : Q) : Prop :=
  match l with
  | [] => final = cursor
  | n :: r => cursor <= startTime n /\ chained (scheduled_end n) r final
  end.

(** The chunks of a run that decode to a non-empty buffer, each with the
    clock reading of its call. *)
Definition playable (pf : Platform) (chunks : list (Q * string))
  : list (Q * list Q) :=
  flat_map (fun c =>
              match (float32 <- decode_chunk pf (snd c) ;; createBuffer float32) with
              | Returned buffer => [(fst c, buffer)]
              | Thrown _ => []
              end)
           chunks.

(** Every source that was not stopped is referenced by the queue. *)
Definition queue_covers (p : Page) : Prop :=
  forall ref n, nth_error (nodes p) ref = Some n -> stopped n = false ->
                In ref (audioQueueRef p).

Definition frame_of_type (type : string) : string :=
  JsonText.stringify (JObj [("type", JStr type)]).

Definition audio_delta_frame (delta : string) : string :=
  JsonText.stringify (JObj [("type", JStr "response.audio.delta");
                            ("delta", JStr delta)]).

Definition append_audio_frame (audio : string) : string :=
  JsonText.stringify (JObj [("type", JStr "input_audio_buffer.append");
                            ("audio", JStr audio)]).

(** ** The codec with IEEE-754 rounding *)

(** The values a [Float32Array] can hold. *)
Definition is_float32 (q : Q) : Prop :=
  exists m e : Z,
    (Z.abs m < 2 ^ 24)%Z /\ (-149 <= e)%Z /\ q == inject_Z m * pow2 e.

(** [s < 0 ? s * 0x8000 : s * 0x7fff] computed in double arithmetic, on a
    float32 sample read from the input array. *)
Definition encode_sample_ieee (x : Q) : Z :=
  let s := clamp x in
  ToInt16 (if Qltb s 0 then to_double (s * 32768) else to_double (s * 32767)).

(** [float32[i] = pcm16[i] / 0x7fff] with both roundings. *)
Definition decode_sample_ieee (v : Z) : Q :=
  to_float32 (to_double (inject_Z v / 32767)).

(** Euclidean division that shifts when the divisor is a power of two, and
    the decoding computed with it. *)
Definition div_eucl_shift (a b : Z) : Z * Z :=
  if (b =? 2 ^ Z.log2 b)%Z
  then (Z.shiftr a (Z.log2 b), Z.land a (Z.ones (Z.log2 b)))
  else Z.div_eucl a b.

Definition decode_sample_shift (v : Z) : Q :=
  round_with div_eucl_shift 24 (-149)
    (round_with div_eucl_shift 53 (-1074) (inject_Z v / 32767)).

(** The check behind the rounded round trip, for the magnitude [n] of a
    16-bit value and its decoded value [D]: [D] is within one step of
    every float32 sample that encodes to [n], and [- D] of every one that
    encodes to [- n].  The non-negative samples that encode to [n] lie in
    [n/32767, (n+1)/32767); being float32 values of at least 2^-k, they are
    multiples of 2^-(k+23), and [A] is the numerator of the largest such
    multiple below (n+1)/32767.  The magnitudes of the negative samples
    that encode to [- n] lie in [n/32768, (n+1)/32768). *)
Definition round_trip_ok_at (n : Z) (D : Q) : bool :=
  Qle_bool D ((inject_Z n + 1) / 32767)
  && (Qle_bool (inject_Z n / 32767) D
      || (let k := (- log2_ratio n 32767)%Z in
          let A := (((n + 1) * 2 ^ (k + 23) - 1) / 32767)%Z in
          (0 <=? k)%Z
          && (32767 <=? n * 2 ^ k)%Z
          && Qle_bool (Qmake A (Z.to_pos (2 ^ (k + 23)))) (D + (1 # 32767))))
  && Qle_bool ((inject_Z n + 1) / 32768 - D) (1 # 32767)
  && Qle_bool (- (1 # 32767)) (inject_Z n / 32768 - D).

(** The check on [count] consecutive magnitudes from [n] on. *)
Fixpoint round_trip_ok_from (count : nat) (n : Z) : bool :=
  match count with
  | O => true
  | S c => round_trip_ok_at n (decode_sample_shift n)
           && round_trip_ok_from c (n + 1)
  end.

(** * The rest of the program

    The tool descriptors of [server.ts], the capture path and the cleanup
    of the voice assistant page, the [GET] handler of the bookings route
    with the page that calls it, the database connection cache
    ([lib/db.ts]) and the tools of the chat route
    ([app/api/sb-info-bank/route.ts]). *)

Open Scope list_scope.
Open Scope string_scope.

(** ** Tool descriptors (server.ts, lines 24-128) *)

(** One element of the [tools] array; every parameter is declared with
    [type: "string"]. *)
Definition tool_descriptor (name description : string)
    (properties : list (string * string)) (required : list string) : json :=
  JObj [("type", JStr "function");
        ("name", JStr name);
        ("description", JStr description);
        ("parameters",
         JObj [("type", JStr "object");
               ("properties",
                JObj (map (fun p => (fst p, JObj [("type", JStr "string");
                                                  ("description", JStr (snd p))]))
                          properties));
               ("required", JArr (map JStr required))])].

Definition tools : list json :=
  [tool_descriptor "getEmployeeByName"
     "Search for an employee by name. Returns employee details if found."
     [("name", "The name or partial name of the employee to search for")]
     ["name"];
   tool_descriptor "getEmployeeByDesignation"
     "Get all employees with a specific designation/role"
     [("designation",
       "The job designation to filter by (e.g., 'Full-Stack Engineer', 'CTO')")]
     ["designation"];
   tool_descriptor "getAllEmployees"
     "Get a list of all employees at StrategyByte"
     [] [];
   tool_descriptor "getCompanyInfo"
     "Get information about StrategyByte company including description and mission"
     [] [];
   tool_descriptor "getServices"
     "Get list of services offered by StrategyByte"
     [("serviceName",
       "Optional service name to filter (e.g., 'Website', 'SEO', 'Brand')")]
     [];
   tool_descriptor "searchFAQ"
     "Search FAQs by keyword. Use when user asks about services, pricing, or processes."
     [("query", "Search term to find relevant FAQs (e.g., 'cost', 'SEO', 'brand')")]
     ["query"];
   tool_descriptor "getFAQsByCategory"
     "Get all FAQs for a specific category (Marketing, Content, Website, Brand)"
     [("category",
       "Category: 'Marketing Agency', 'Content Marketing', 'Website Development', or 'Brand Management'")]
     ["category"]].

(** What a descriptor advertises: the tool's name, the parameters it
    declares and the ones it marks as required. *)
Definition descriptor_name (d : json) : jsval := prop d "name".

Definition descriptor_properties (d : json) : list string :=
  match prop d "parameters" with
  | Some parameters =>
      match prop parameters "properties" with
      | Some (JObj fields) => map fst fields
      | _ => []
      end
  | None => []
  end.

Definition descriptor_required (d : json) : list string :=
  match prop d "parameters" with
  | Some parameters =>
      match prop parameters "required" with
      | Some (JArr items) =>
          flat_map (fun item => match item with JStr k => [k] | _ => [] end) items
      | _ => []
      end
  | None => []
  end.

(** The [count] a result announces, with the length of the list it
    announces it for. *)
Definition counted (r : ToolResult) : option (nat * nat) :=
  match r with
  | EmployeesByDesignation count found => Some (count, List.length found)
  | AllEmployees count summary => Some (count, List.length summary)
  | FaqsFound count results => Some (count, List.length results)
  | FaqCategoryFound _ count faqs => Some (count, List.length faqs)
  | _ => None
  end.

(** The hit [searchFAQ] records for a question of a category. *)
Definition faq_hit (category : FaqCategory.t) (faq : Faq.t) : FaqHit :=
  {| hit_category := FaqCategory.title_highlight category;
     hit_question := Faq.question faq;
     hit_answer := Faq.answer faq |}.

(** ** Relay session: what a run of events forwards *)


(** ** Capture path (voice assistant page, lines 80-88 and 120-133) *)

(** [String.fromCharCode(b)] for an element of a [Uint8Array]. *)
Definition fromCharCode (b : Z) : string :=
  String (ascii_of_nat (Z.to_nat b)) EmptyString.

(** [arrayBufferToBase64]; [btoa] is [window.btoa], a platform function
    like [atob]. *)
Definition arrayBufferToBase64 (btoa : string -> string) (buffer : list Z) : string :=
  let binary :=
    fold_left (fun binary b => binary ++ fromCharCode b) buffer EmptyString in
  btoa binary.

(** The [onaudioprocess] callback on one block of microphone samples.  The
    socket is the browser's, whose [send] transmits when the socket is
    open, which the guard of the first line has checked. *)
Definition onaudioprocess (pf : Platform) (btoa : string -> string)
    (ws : WebSocket) (inputData : list Q) : WebSocket :=
  if negb (is_OPEN (readyState ws)) then ws
  else
    let pcm16Buffer := floatTo16BitPCM inputData in
    let base64Audio := arrayBufferToBase64 btoa pcm16Buffer in
    match ws_send ws (JSON_stringify pf
                        (JObj [("type", JStr "input_audio_buffer.append");
                               ("audio", JStr base64Audio)])) with
    | Returned ws' => ws'
    | Thrown _ => ws
    end.

(** The base64 encoder behind [btoa], for binary strings. *)
Module Base64Encoder.

Definition digit (v : Z) : ascii :=
  if (v <? 26)%Z then ascii_of_nat (Z.to_nat (v + 65))
  else if (v <? 52)%Z then ascii_of_nat (Z.to_nat (v + 71))
  else if (v <? 62)%Z then ascii_of_nat (Z.to_nat (v - 4))
  else if (v =? 62)%Z then "+"%char
  else "/"%char.

Fixpoint encode (bytes : list Z) : list ascii :=
  match bytes with
  | a :: b :: c :: r =>
      let n := ((a * 256 + b) * 256 + c)%Z in
      digit (n / 262144) :: digit (n / 4096 mod 64) :: digit (n / 64 mod 64)
            :: digit (n mod 64) :: encode r
  | [a; b] =>
      let n := ((a * 256 + b) * 4)%Z in
      [digit (n / 4096); digit (n / 64 mod 64); digit (n mod 64); "="%char]
  | [a] =>
      let n := (a * 16)%Z in
      [digit (n / 64); digit (n mod 64); "="%char; "="%char]
  | [] => []
  end.

Definition btoa (binary : string) : string :=
  string_of_list_ascii (encode (char_codes binary)).

End Base64Encoder.

(** ** Playback: vocabulary of the statements *)

(** The sources the queue refers to, in queue order. *)
Definition queued (p : Page) : list SourceNode :=
  flat_map (fun ref => match nth_error (nodes p) ref with
                       | Some n => [n]
                       | None => []
                       end)
           (audioQueueRef p).

(** The queue refers to sources of the store, none of them stopped or
    empty, scheduled one after the other, from a cursor value that is a
    non-negative double, up to the cursor. *)
Definition schedule_invariant (p : Page) : Prop :=
  Forall (fun ref => (ref < List.length (nodes p))%nat) (audioQueueRef p)
  /\ Forall (fun n => stopped n = false /\ channelData n <> []) (queued p)
  /\ exists cursor,
       (0 <= cursor)%Q /\ is_double cursor
       /\ chained cursor (queued p) (nextStartTimeRef p).

(** What the scheduler works on: the store, the queue and the cursor. *)
Definition schedule (p : Page) : list SourceNode * list nat * Q :=
  (nodes p, audioQueueRef p, nextStartTimeRef p).

(** Each source starts at the value the previous one left in the cursor,
    the first at [cursor], and the last one leaves [final]. *)
Fixpoint back_to_back (cursor : Q) (l : list SourceNode) (final : Q) : Prop :=
  match l with
  | [] => final = cursor
  | n :: r => (startTime n == cursor)%Q /\ back_to_back (scheduled_end n) r final
  end.

(** ** Vocabulary for the base64 codec *)

Definition is_byte (b : Z) : Prop := (0 <= b < 256)%Z.

(** The sextets the encoder writes, without the padding. *)
Fixpoint sextets_of (bytes : list Z) : list Z :=
  match bytes with
  | a :: b :: c :: r =>
      let n := ((a * 256 + b) * 256 + c)%Z in
      (n / 262144 :: n / 4096 mod 64 :: n / 64 mod 64 :: n mod 64 :: sextets_of r)%Z
  | [a; b] =>
      let n := ((a * 256 + b) * 4)%Z in
      [n / 4096; n / 64 mod 64; n mod 64]%Z
  | [a] =>
      let n := (a * 16)%Z in
      [n / 64; n mod 64]%Z
  | [] => []
  end.

(** The padding the encoder ends with. *)
Fixpoint padding_of (bytes : list Z) : list ascii :=
  match bytes with
  | _ :: _ :: _ :: r => padding_of r
  | [_; _] => ["="%char]
  | [_] => ["="%char; "="%char]
  | [] => []
  end.

(** The decoder reads back the digit the encoder writes for [v], and the
    digit is neither white space nor padding. *)
Definition digit_ok (v : Z) : bool :=
  match Base64.sextet (Base64Encoder.digit v) with
  | Some w => (w =? v)%Z
  | None => false
  end
  && negb (Base64.is_ws (Base64Encoder.digit v))
  && negb (Base64.is_pad (Base64Encoder.digit v)).

(** ** Bookings route: a run of [POST] requests, and [GET] *)

(** A booking has its three fields set to truthy values. *)
Definition complete (b : Booking.t) : bool :=
  truthy (Booking.email b) && truthy (Booking.phone b) && truthy (Booking.name b).

(** Requests served one after the other on a reachable datastore; each
    comes with the reading of the clock and the outcome of [req.json()].
    The result is the list of statuses and the collection afterwards. *)
Fixpoint POST_all (requests : list (Z * outcome json)) (collection : list Booking.t)
  : list nat * list Booking.t :=
  match requests with
  | [] => ([], collection)
  | (now, body) :: rest =>
      match POST now body (Returned collection) with
      | (status, _, Returned collection') =>
          let (statuses, final) := POST_all rest collection' in
          (status :: statuses, final)
      | (status, _, Thrown _) =>
          let (statuses, final) := POST_all rest collection in
          (status :: statuses, final)
      end
  end.

(** [collection.find({})]: the documents with their identifiers, which are
    their positions (see [insertOne]). *)
Definition find_all (collection : list Booking.t) : list (nat * Booking.t) :=
  combine (seq 0 (List.length collection)) collection.

(** [.sort({ createdAt: -1 })]: newest first; documents of the same date
    stay in the order of the collection. *)
Fixpoint insert_newest_first (d : nat * Booking.t) (sorted : list (nat * Booking.t))
  : list (nat * Booking.t) :=
  match sorted with
  | [] => [d]
  | e :: r =>
      if (Booking.createdAt (snd e) <=? Booking.createdAt (snd d))%Z
      then d :: sorted
      else e :: insert_newest_first d r
  end.

Definition sort_newest_first (docs : list (nat * Booking.t)) : list (nat * Booking.t) :=
  fold_right insert_newest_first [] docs.

(** Newest first: no document is followed by a newer one. *)
Fixpoint newest_first (docs : list (nat * Booking.t)) : Prop :=
  match docs with
  | a :: (b :: _) as r =>
      (Booking.createdAt (snd b) <= Booking.createdAt (snd a))%Z /\ newest_first r
  | _ => True
  end.

(** A stored document as [Response.json] writes it; [toISOString] is the
    platform's rendering of a date. *)
Definition Booking_to_json (toISOString : Z -> string) (d : nat * Booking.t) : json :=
  JObj (object_literal
          [("_id", Some (JCount (fst d)));
           ("email", Booking.email (snd d));
           ("phone", Booking.phone (snd d));
           ("name", Booking.name (snd d));
           ("createdAt", Some (JStr (toISOString (Booking.createdAt (snd d)))))]).

(** [GET]: [db] is the outcome of [connectToDatabase()] with the collection
    it gives access to.  The result is the status and the JSON body. *)
Definition GET (toISOString : Z -> string) (db : outcome (list Booking.t))
  : nat * json :=
  match db with
  | Thrown _ => (500%nat, JObj [("error", JStr "Failed to fetch bookings")])
  | Returned collection =>
      let bookings := sort_newest_first (find_all collection) in
      (200%nat,
       JObj [("success", JBool true);
             ("count", JCount (List.length bookings));
             ("bookings", JArr (map (Booking_to_json toISOString) bookings))])
  end.

(** ** Bookings page ([fetchBookings]) *)

(** The state of the page: [error] is [None] for [null]. *)
Record BookingPage : Type := {
  bookings : jsval;
  loading : bool;
  error : jsval
}.

Definition BookingPage_initial : BookingPage :=
  {| bookings := Some (JArr []); loading := true; error := None |}.

(** [fetchBookings], from the call to the end of its [finally] block;
    [response] is the outcome of [fetch] followed by [response.json()]. *)
Definition fetchBookings (response : outcome json) (st : BookingPage) : BookingPage :=
  let failed := {| bookings := bookings st;
                   loading := false;
                   error := Some (JStr "Failed to fetch bookings") |} in
  match (data <- response ;;
         success <- get_prop data "success" ;;
         Returned (data, success)) with
  | Thrown _ => failed
  | Returned (data, success) =>
      if truthy success then
        {| bookings := prop data "bookings"; loading := false; error := error st |}
      else
        {| bookings := bookings st;
           loading := false;
           error := if truthy (prop data "error") then prop data "error"
                    else Some (JStr "Failed to fetch bookings") |}
  end.

(** The error banner is rendered under [error && ...]. *)
Definition error_banner_shown (st : BookingPage) : bool := truthy (error st).

(** The page after a series of refreshes. *)
Definition refresh_all (responses : list (outcome json)) (st : BookingPage)
  : BookingPage :=
  fold_left (fun st response => fetchBookings response st) responses st.

(** A response that makes [fetchBookings] take the success branch. *)
Definition is_success_response (response : outcome json) : bool :=
  match response with
  | Returned (JObj fields) => truthy (assoc "success" fields)
  | _ => false
  end.

(** ** Database connection cache (lib/db.ts) *)

(** The module state: the two cached handles and the number of
    [MongoClient] objects constructed so far.  A client is named by its
    serial number, a database handle by the client it belongs to. *)
Record DbModule : Type := {
  cachedClient : option nat;
  cachedDb : option nat;
  clients : nat
}.

Definition DbModule_initial : DbModule :=
  {| cachedClient := None; cachedDb := None; clients := 0 |}.

(** [connectToDatabase]; [connect] is the outcome of [client.connect()]
    should this call get to it. *)
Definition connectToDatabase (connect : outcome unit) (m : DbModule)
  : outcome (nat * nat) * DbModule :=
  match cachedClient m, cachedDb m with
  | Some client, Some db => (Returned (client, db), m)
  | _, _ =>
      let client := clients m in
      match connect with
      | Thrown e =>
          (Thrown e,
           {| cachedClient := cachedClient m;
              cachedDb := cachedDb m;
              clients := S (clients m) |})
      | Returned _ =>
          let db := client in
          (Returned (client, db),
           {| cachedClient := Some client;
              cachedDb := Some db;
              clients := S (clients m) |})
      end
  end.

(** Calls made one after the other, none started before the previous one
    has settled. *)
Fixpoint connect_all (connects : list (outcome unit)) (m : DbModule)
  : list (outcome (nat * nat)) * DbModule :=
  match connects with
  | [] => ([], m)
  | connect :: rest =>
      let (result, m1) := connectToDatabase connect m in
      let (results, final) := connect_all rest m1 in
      (result :: results, final)
  end.

(** The number of [MongoClient] objects a run of calls constructs: one per
    failed attempt, up to and including the first that succeeds. *)
Fixpoint attempts (connects : list (outcome unit)) : nat :=
  match connects with
  | [] => 0
  | Thrown _ :: rest => S (attempts rest)
  | Returned _ :: _ => 1
  end.

(** ** Tools of the chat route (app/api/sb-info-bank/route.ts)

    The [execute] function of each tool, on the input its schema admits:
    a string where the schema says [z.string()], an optional string for
    [serviceName].  The knowledge base is the same three files. *)
Module InfoBank.

Definition getEmployeeByName (pf : Platform) (kb : KnowledgeBase) (name : string)
  : ToolResult :=
  let searchTerm := toLowerCase pf name in
  let found :=
    filter (fun emp => includes (toLowerCase pf (Emp.name emp)) searchTerm)
           (employees kb) in
  if (List.length found =? 0)%nat then
    Failure ("No employee found with name matching " ++ quoted name)
  else EmployeesByName found.

Definition getEmployeeByDesignation (pf : Platform) (kb : KnowledgeBase)
    (designation : string) : ToolResult :=
  let searchTerm := toLowerCase pf designation in
  let found :=
    filter (fun emp => includes (toLowerCase pf (Emp.designation emp)) searchTerm)
           (employees kb) in
  if (List.length found =? 0)%nat then
    Failure ("No employees found with designation " ++ quoted designation)
  else EmployeesByDesignation (List.length found) found.

Definition getAllEmployees (kb : KnowledgeBase) : ToolResult :=
  let summary :=
    map (fun emp => {| sum_name := Emp.name emp;
                       sum_designation := Emp.designation emp;
                       sum_email := Emp.email emp |})
        (employees kb) in
  AllEmployees (List.length (employees kb)) summary.

Definition getCompanyInfo (kb : KnowledgeBase) : ToolResult :=
  CompanyInfo (About.company_name (aboutData kb))
              (About.description (aboutData kb))
              (About.closing_statement (aboutData kb)).

Definition getServices (pf : Platform) (kb : KnowledgeBase)
    (serviceName : option string) : ToolResult :=
  match serviceName with
  | Some term =>
      if negb (term =? EmptyString) then
        let searchTerm := toLowerCase pf term in
        let found :=
          filter (fun service =>
                    includes (toLowerCase pf (Service.title service)) searchTerm
                    || includes (toLowerCase pf (Service.description service)) searchTerm)
                 (About.services (aboutData kb)) in
        if (List.length found =? 0)%nat then
          Failure ("No service found matching " ++ quoted term)
        else ServicesFound found
      else ServicesAll (About.services_intro (aboutData kb))
                       (About.services (aboutData kb))
  | None => ServicesAll (About.services_intro (aboutData kb))
                        (About.services (aboutData kb))
  end.

Definition searchFAQ (pf : Platform) (kb : KnowledgeBase) (query : string)
  : ToolResult :=
  let searchTerm := toLowerCase pf query in
  let results :=
    flat_map (fun category =>
                map (fun faq => {| hit_category := FaqCategory.title_highlight category;
                                   hit_question := Faq.question faq;
                                   hit_answer := Faq.answer faq |})
                    (filter (fun faq =>
                               includes (toLowerCase pf (Faq.question faq)) searchTerm
                               || includes (toLowerCase pf (Faq.answer faq)) searchTerm)
                            (FaqCategory.faqs category)))
             (faqData kb) in
  if (List.length results =? 0)%nat then
    Failure ("No FAQs found matching " ++ quoted query)
  else FaqsFound (List.length results) results.

Definition getFAQsByCategory (pf : Platform) (kb : KnowledgeBase)
    (category : string) : ToolResult :=
  let searchTerm := toLowerCase pf category in
  match find (fun cat => includes (toLowerCase pf (FaqCategory.title_highlight cat))
                                  searchTerm)
             (faqData kb) with
  | None =>
      let categories := map FaqCategory.title_highlight (faqData kb) in
      Failure ("Category " ++ quoted category ++ " not found. Available categories: "
               ++ join ", " categories)
  | Some found =>
      FaqCategoryFound (FaqCategory.title_highlight found)
                       (List.length (FaqCategory.faqs found))
                       (FaqCategory.faqs found)
  end.

(** A tool call the model can make, with its validated input. *)
Inductive call : Type :=
| ByName (name : string)
| ByDesignation (designation : string)
| Everyone
| Company
| Services (serviceName : option string)
| SearchFAQ (query : string)
| ByCategory (category : string).

Definition execute (pf : Platform) (kb : KnowledgeBase) (c : call) : ToolResult :=
  match c with
  | ByName name => getEmployeeByName pf kb name
  | ByDesignation designation => getEmployeeByDesignation pf kb designation
  | Everyone => getAllEmployees kb
  | Company => getCompanyInfo kb
  | Services serviceName => getServices pf kb serviceName
  | SearchFAQ query => searchFAQ pf kb query
  | ByCategory category => getFAQsByCategory pf kb category
  end.

(** The same call as the realtime model would make it to the relay: the
    tool name and the argument object. *)
Definition as_relay_call (c : call) : string * json :=
  match c with
  | ByName name => ("getEmployeeByName", JObj [("name", JStr name)])
  | ByDesignation designation =>
      ("getEmployeeByDesignation", JObj [("designation", JStr designation)])
  | Everyone => ("getAllEmployees", JObj [])
  | Company => ("getCompanyInfo", JObj [])
  | Services (Some term) => ("getServices", JObj [("serviceName", JStr term)])
  | Services None => ("getServices", JObj [])
  | SearchFAQ query => ("searchFAQ", JObj [("query", JStr query)])
  | ByCategory category => ("getFAQsByCategory", JObj [("category", JStr category)])
  end.

End InfoBank.

(** Two results agree when both are failures or they are the same
    success. *)
Definition same_answer (r1 r2 : ToolResult) : Prop :=
  match r1, r2 with
  | Failure _, Failure _ => True
  | _, _ => r1 = r2
  end.

(** ** Relay session: the frames that go upstream *)

(** A tool call of a run that the dispatcher returned for: an upstream
    frame among the events whose text parses to the message [msg], of type
    [response.function_call_arguments.done], whose argument string parses
    and for which [executeTool] returned [result]. *)
Definition answered_call (pf : Platform) (kb : KnowledgeBase) (es : list event)
    (msg : json) (result : ToolResult) : Prop :=
  exists data args,
    In (OpenaiMessage data) es
    /\ JSON_parse pf (toString pf data) = Some msg
    /\ prop msg "type" = Some (JStr "response.function_call_arguments.done")
    /\ JSON_parse pf (ToString_val (prop msg "arguments")) = Some args
    /\ executeTool pf kb (prop msg "name") args = Returned result.

(** The four kinds of frame the handlers of the session write to the
    upstream connection, each with the event of the run it is written
    for: the [session.update] message for the [open] event, the
    re-serialisation of a client frame whose text parsed, and for an
    answered tool call its [function_call_output] and a
    [response.create]. *)
Inductive upstream_frame (pf : Platform) (session_update : json)
    (kb : KnowledgeBase) (es : list event) : string -> Prop :=
| frame_session_update :
    In OpenaiOpen es ->
    upstream_frame pf session_update kb es (JSON_stringify pf session_update)
| frame_client_message (data : string) (message : json) :
    In (ClientMessage data) es ->
    JSON_parse pf (toString pf data) = Some message ->
    upstream_frame pf session_update kb es (JSON_stringify pf message)
| frame_tool_output (msg : json) (result : ToolResult) :
    answered_call pf kb es msg result ->
    upstream_frame pf session_update kb es
      (JSON_stringify pf
         (function_call_output (prop msg "call_id")
            (JSON_stringify pf (ToolResult_to_json result))))
| frame_response_create (msg : json) (result : ToolResult) :
    answered_call pf kb es msg result ->
    upstream_frame pf session_update kb es (JSON_stringify pf response_create).

(** ** Voice assistant page: stopping *)

(** The refs and the state of the component that [cleanup] and the stop
    path touch.  [streamRef] holds the stream with whether its tracks are
    live, [processorRef] the processor with whether it is connected. *)
Record Assistant : Type := {
  page : Page;
  wsRef : option WebSocket;
  streamRef : option bool;
  processorRef : option bool;
  isConnected : bool;
  isListening : bool;
  status : string
}.

(** [cleanup] (lines 244-257). *)
Definition cleanup (a : Assistant) : Assistant :=
  {| page :=
       {| audioContextRef := option_map (fun _ => closed) (audioContextRef (page a));
          nodes := fold_left stop_node (audioQueueRef (page a)) (nodes (page a));
          audioQueueRef := [];
          nextStartTimeRef := nextStartTimeRef (page a) |};
     wsRef := wsRef a;
     streamRef := option_map (fun _ => false) (streamRef a);
     processorRef := option_map (fun _ => false) (processorRef a);
     isConnected := isConnected a;
     isListening := false;
     status := status a |}.

(** [stopAssistant] (lines 260-264). *)
Definition stopAssistant (a : Assistant) : Assistant :=
  let a1 := cleanup {| page := page a;
                       wsRef := option_map ws_close (wsRef a);
                       streamRef := streamRef a;
                       processorRef := processorRef a;
                       isConnected := isConnected a;
                       isListening := isListening a;
                       status := status a |} in
  {| page := page a1;
     wsRef := wsRef a1;
     streamRef := streamRef a1;
     processorRef := processorRef a1;
     isConnected := isConnected a1;
     isListening := isListening a1;
     status := "Stopped" |}.

(** The [onclose] handler of the socket (lines 52-56); the socket is
    closed when the handler runs. *)
Definition ws_onclose (a : Assistant) : Assistant :=
  cleanup {| page := page a;
             wsRef := option_map (with_state CLOSED) (wsRef a);
             streamRef := streamRef a;
             processorRef := processorRef a;
             isConnected := false;
             isListening := isListening a;
             status := "Disconnected" |}.

(** * Properties *)

(** ** Strings and lists *)

Lemma prefix_app (t s : string) :
  prefix t s = true <-> exists b, s = t ++ b.
Proof.
  revert s; induction t as [|c t IH]; intros s; simpl.
  - split; [intros _; exists s; reflexivity | intros _; destruct s; reflexivity].
  - destruct s as [|d s].
    + split; [discriminate | intros [b Hb]; discriminate].
    + simpl. destruct (ascii_dec c d) as [->|Hne].
      * rewrite IH. split; intros [b Hb]; exists b; [now rewrite Hb | now inversion Hb].
      * split; [discriminate | intros [b Hb]; inversion Hb; congruence].
Qed.

Lemma includes_nil (t : string) : includes EmptyString t = prefix t EmptyString.
Proof.
  change (includes EmptyString t)
    with (if prefix t EmptyString then true else false).
  now destruct (prefix t EmptyString).
Qed.

Lemma includes_cons (c : ascii) (s t : string) :
  includes (String c s) t = prefix t (String c s) || includes s t.
Proof. reflexivity. Qed.

Lemma includes_spec (s t : string) :
  includes s t = true <-> exists a b, s = a ++ t ++ b.
Proof.
  split.
  - induction s as [|c s IH].
    + rewrite includes_nil. intros P.
      apply prefix_app in P as [b Hb]. now exists EmptyString, b.
    + rewrite includes_cons. intros H. apply orb_true_iff in H as [P|H].
      * apply prefix_app in P as [b Hb]. now exists EmptyString, b.
      * destruct (IH H) as (a & b & ->). now exists (String c a), b.
  - intros (a & b & ->). induction a as [|c a IH].
    + assert (P : prefix t (t ++ b) = true) by (apply prefix_app; now exists b).
      simpl. destruct (t ++ b); [now rewrite includes_nil|].
      rewrite includes_cons, P. reflexivity.
    + change (String c a ++ t ++ b) with (String c (a ++ t ++ b)).
      rewrite includes_cons, IH. apply orb_true_r.
Qed.

Lemma includes_empty (s : string) : includes s EmptyString = true.
Proof. apply includes_spec. now exists EmptyString, s. Qed.
Lemma ci_includes_spec pf (field term : string) :
  ci_includes pf field term = true <-> ci_contains pf field term.
Proof. apply includes_spec. Qed.

Lemma filter_all {A : Type} (f : A -> bool) (l : list A) :
  (forall x, In x l -> f x = true) -> filter f l = l.
Proof.
  induction l as [|x l IH]; intros H; simpl; [reflexivity|].
  rewrite (H x (or_introl eq_refl)), IH; [reflexivity|].
  intros y Hy. apply H. now right.
Qed.

Lemma prop_get_prop (args : json) (k : string) (v : json) :
  prop args k = Some v -> get_prop args k = Returned (Some v).
Proof. destruct args; simpl; intros H; try discriminate. now rewrite H. Qed.

Lemma is_string_inv (v : jsval) :
  is_string v = true -> exists s, v = Some (JStr s).
Proof. destruct v as [[]|]; try discriminate. intros _. now eexists. Qed.

Lemma length_zero_iff {A : Type} (l : list A) :
  (List.length l =? 0)%nat = true <-> l = [].
Proof. destruct l; simpl; split; intros; congruence. Qed.

(** The branch of each tool, once its argument is known to be a string. *)
Lemma executeTool_getEmployeeByName pf kb args term :
  prop args "name" = Some (JStr term) ->
  executeTool pf kb (Some (JStr "getEmployeeByName")) args =
  let found := filter (fun emp => ci_includes pf (Emp.name emp) term) (employees kb) in
  match found with
  | [] => Returned (Failure ("No employee found matching " ++ quoted term))
  | _ => Returned (EmployeesByName found)
  end.
Proof.
  intros H. unfold executeTool. cbn [String.eqb Ascii.eqb Bool.eqb].
  rewrite (prop_get_prop _ _ _ H). cbn [bind call_toLowerCase ToString_val ToString].
  unfold ci_includes. now destruct (filter _ _).
Qed.

Lemma executeTool_getEmployeeByDesignation pf kb args term :
  prop args "designation" = Some (JStr term) ->
  executeTool pf kb (Some (JStr "getEmployeeByDesignation")) args =
  let found :=
    filter (fun emp => ci_includes pf (Emp.designation emp) term) (employees kb) in
  match found with
  | [] => Returned (Failure ("No employees found with designation " ++ quoted term))
  | _ => Returned (EmployeesByDesignation (List.length found) found)
  end.
Proof.
  intros H. unfold executeTool. cbn [String.eqb Ascii.eqb Bool.eqb].
  rewrite (prop_get_prop _ _ _ H). cbn [bind call_toLowerCase ToString_val ToString].
  unfold ci_includes. now destruct (filter _ _).
Qed.

Lemma executeTool_getServices pf kb args term :
  prop args "serviceName" = Some (JStr term) -> term <> EmptyString ->
  executeTool pf kb (Some (JStr "getServices")) args =
  let found :=
    filter (fun service => ci_includes pf (Service.title service) term
                           || ci_includes pf (Service.description service) term)
           (About.services (aboutData kb)) in
  match found with
  | [] => Returned (Failure ("No service found matching " ++ quoted term))
  | _ => Returned (ServicesFound found)
  end.
Proof.
  intros H Hne. unfold executeTool. cbn [String.eqb Ascii.eqb Bool.eqb].
  rewrite (prop_get_prop _ _ _ H). cbn [bind truthy].
  destruct (String.eqb_spec term EmptyString) as [->|_]; [congruence|].
  cbn [negb bind call_toLowerCase ToString_val ToString].
  unfold ci_includes. now destruct (filter _ _).
Qed.

Lemma executeTool_getFAQsByCategory pf kb args term :
  prop args "category" = Some (JStr term) ->
  executeTool pf kb (Some (JStr "getFAQsByCategory")) args =
  match find (fun cat => ci_includes pf (FaqCategory.title_highlight cat) term)
             (faqData kb) with
  | None =>
      Returned (Failure ("Category not found. Available: "
                         ++ join ", " (map FaqCategory.title_highlight (faqData kb))))
  | Some found =>
      Returned (FaqCategoryFound (FaqCategory.title_highlight found)
                                 (List.length (FaqCategory.faqs found))
                                 (FaqCategory.faqs found))
  end.
Proof.
  intros H. unfold executeTool. cbn [String.eqb Ascii.eqb Bool.eqb].
  rewrite (prop_get_prop _ _ _ H). reflexivity.
Qed.

Lemma executeTool_unknown pf kb name args :
  known_tool name = false ->
  executeTool pf kb name args = Returned (Failure ("Unknown tool: " ++ ToString_val name)).
Proof.
  unfold known_tool, executeTool.
  destruct name as [[| | |tool| |]|]; try reflexivity.
  cbn [existsb tool_names]. intros H.
  repeat (apply orb_false_elim in H as [E H]; rewrite E; clear E).
  reflexivity.
Qed.

(** Case analysis over the branches of [executeTool]. *)
Ltac dispatch_step :=
  cbn [get_prop bind call_toLowerCase truthy negb orb prop is_string returns matches_of];
  match goal with
  | |- context [if (?n =? 0)%nat then _ else _] => destruct (Nat.eqb_spec n 0)
  | |- context [(?n =? 0)%Z] => destruct (n =? 0)%Z
  | |- context [(?s =? EmptyString)%string] => destruct (s =? EmptyString)%string
  | |- context [assoc ?k ?f] => destruct (assoc k f) as [[|[]| | | |]|]
  | |- context [find ?f ?l] => destruct (find f l)
  end.

Ltac dispatch_cases tool args :=
  repeat match goal with
         | |- context [if (tool =? ?lit) then _ else _] => destruct (tool =? lit)
         end;
  destruct args;
  repeat dispatch_step;
  cbn [get_prop bind call_toLowerCase truthy negb orb prop is_string returns matches_of].

(** The names of [tool_names] are the ones the [switch] has a case for:
    for them, and only for them, the dispatcher never takes the [default]
    branch. *)
Lemma executeTool_known pf kb name args :
  known_tool name = true ->
  executeTool pf kb name args
  <> Returned (Failure ("Unknown tool: " ++ ToString_val name)).
Proof.
  unfold known_tool, executeTool.
  destruct name as [[| | |tool| |]|]; try discriminate.
  cbn [existsb tool_names ToString_val ToString].
  dispatch_cases tool args; cbn [orb]; try discriminate;
    intros _ [= E]; discriminate E.
Qed.

Lemma known_tool_iff pf kb name :
  known_tool name = true
  <-> forall args,
        executeTool pf kb name args
        <> Returned (Failure ("Unknown tool: " ++ ToString_val name)).
Proof.
  split; [intros H args; now apply executeTool_known|].
  intros H. destruct (known_tool name) eqn:K; [reflexivity|].
  destruct (H JNull). now apply executeTool_unknown.
Qed.

Lemma executeTool_returns pf kb name args :
  returns (executeTool pf kb name args) = args_accepted name args.
Proof.
  unfold executeTool, args_accepted.
  destruct name as [[| | |tool| |]|]; try reflexivity.
  dispatch_cases tool args; reflexivity.
Qed.

Lemma executeTool_throws_TypeError pf kb name args e :
  executeTool pf kb name args = Thrown e -> e = TypeError.
Proof.
  unfold executeTool.
  destruct name as [[| | |tool| |]|]; try discriminate.
  dispatch_cases tool args; congruence.
Qed.

Lemma executeTool_nonempty_matches pf kb name args r :
  executeTool pf kb name args = Returned r -> matches_of r <> Some 0%nat.
Proof.
  unfold executeTool.
  destruct name as [[| | |tool| |]|]; try (intros [= <-]; discriminate).
  dispatch_cases tool args; try discriminate;
    intros [= <-]; cbn [matches_of]; congruence.
Qed.
Lemma find_first {A : Type} (p : A -> bool) (before after : list A) (x : A) :
  (forall y, In y before -> p y = false) -> p x = true ->
  find p (before ++ x :: after) = Some x.
Proof.
  induction before as [|y before IH]; intros Hb Hx; simpl.
  - now rewrite Hx.
  - rewrite (Hb y (or_introl eq_refl)). apply IH; [|exact Hx].
    intros z Hz. apply Hb. now right.
Qed.

Lemma find_none {A : Type} (p : A -> bool) (l : list A) :
  (forall y, In y l -> p y = false) -> find p l = None.
Proof.
  induction l as [|y l IH]; intros H; simpl; [reflexivity|].
  rewrite (H y (or_introl eq_refl)). apply IH. intros z Hz. apply H. now right.
Qed.

Lemma not_ci_contains pf (field term : string) :
  ~ ci_contains pf field term -> ci_includes pf field term = false.
Proof.
  intros H. destruct (ci_includes pf field term) eqn:E; [|reflexivity].
  now apply ci_includes_spec in E.
Qed.

(** ** Tool dispatcher: the claims *)

(** C2 (as stated, refuted): [getEmployeeByName] called with an argument
    object that has no [name] field raises a TypeError instead of returning
    a failure result. *)
Lemma executeTool_missing_name_throws :
  executeTool browser demo_kb (Some (JStr "getEmployeeByName")) (JObj []) = Thrown TypeError
  /\ ~ (exists r, executeTool browser demo_kb (Some (JStr "getEmployeeByName")) (JObj [])
                  = Returned r).
Proof.
  split; [reflexivity|]. intros [r H]. discriminate H.
Qed.

(** C2 (amended): [executeTool] returns a ToolResult exactly when the
    argument the tool reads is a string (for [getServices], a string or a
    falsy value on a non-null object), and raises a TypeError otherwise; an
    unknown tool name yields the failure [Unknown tool: <name>]; a lookup
    with zero matches yields a failure, never a success carrying an empty
    list. *)
Theorem executeTool_result_or_TypeError
    (pf : Platform) (kb : KnowledgeBase) (name : jsval) (args : json) :
  (args_accepted name args = true ->
   exists r, executeTool pf kb name args = Returned r)
  /\ (args_accepted name args = false ->
      executeTool pf kb name args = Thrown TypeError)
  /\ (known_tool name = false ->
      executeTool pf kb name args
      = Returned (Failure ("Unknown tool: " ++ ToString_val name)))
  /\ (forall term,
        name = Some (JStr "getEmployeeByName") ->
        prop args "name" = Some (JStr term) ->
        filter (fun emp => ci_includes pf (Emp.name emp) term) (employees kb) = [] ->
        executeTool pf kb name args
        = Returned (Failure ("No employee found matching " ++ quoted term)))
  /\ (forall r, executeTool pf kb name args = Returned r ->
                matches_of r <> Some 0%nat).
Proof.
  pose proof (executeTool_returns pf kb name args) as R.
  repeat split.
  - intros H. rewrite H in R. destruct (executeTool pf kb name args) as [r|e];
      [now exists r | discriminate].
  - intros H. rewrite H in R.
    destruct (executeTool pf kb name args) as [r|e] eqn:E; [discriminate|].
    now rewrite (executeTool_throws_TypeError _ _ _ _ _ E).
  - apply executeTool_unknown.
  - intros term -> Hp Hf. rewrite (executeTool_getEmployeeByName _ _ _ _ Hp).
    cbv zeta. now rewrite Hf.
  - apply executeTool_nonempty_matches.
Qed.

Lemma executeTool_result_or_TypeError_witness :
  (exists r, executeTool browser demo_kb (Some (JStr "getEmployeeByName"))
                         (JObj [("name", JStr "zed")]) = Returned r)
  /\ executeTool browser demo_kb (Some (JStr "getEmployeeByName")) (JObj [])
     = Thrown TypeError
  /\ executeTool browser demo_kb (Some (JStr "bookFlight")) JNull
     = Returned (Failure "Unknown tool: bookFlight")
  /\ executeTool browser demo_kb (Some (JStr "getEmployeeByName"))
                 (JObj [("name", JStr "zed")])
     = Returned (Failure ("No employee found matching " ++ quoted "zed")).
Proof.
  split; [|split; [|split]].
  - apply (executeTool_result_or_TypeError browser demo_kb
             (Some (JStr "getEmployeeByName")) (JObj [("name", JStr "zed")])).
    reflexivity.
  - apply (executeTool_result_or_TypeError browser demo_kb
             (Some (JStr "getEmployeeByName")) (JObj [])).
    reflexivity.
  - apply (executeTool_result_or_TypeError browser demo_kb
             (Some (JStr "bookFlight")) JNull).
    reflexivity.
  - apply (executeTool_result_or_TypeError browser demo_kb
             (Some (JStr "getEmployeeByName")) (JObj [("name", JStr "zed")]));
      reflexivity.
Defined.

(** C6 (as stated, refuted): two category labels contain the search term
    [marketing], and [getFAQsByCategory] returns the first of them only. *)
Lemma getFAQsByCategory_returns_first_only :
  executeTool browser demo_kb (Some (JStr "getFAQsByCategory"))
              (JObj [("category", JStr "marketing")])
  = Returned (FaqCategoryFound "Marketing Agency" 1
                [Faq.mk "What does it cost?" "It depends on scope." []])
  /\ ci_includes browser "Marketing Agency" "marketing" = true
  /\ ci_includes browser "Content Marketing" "marketing" = true
  /\ In (FaqCategory.mk "Content Marketing"
           [Faq.mk "Do you write blogs?" "Yes."  [];
            Faq.mk "How often?" "Weekly." []]) (faqData demo_kb).
Proof.
  repeat split; try reflexivity. simpl. auto.
Qed.

(** C6 (amended): the name, designation and service lookups compare by
    case-insensitive substring and return every matching record, in file
    order; [getFAQsByCategory] compares the same way and returns the first
    matching category only. *)
Theorem lookups_return_all_matches_category_first
    (pf : Platform) (kb : KnowledgeBase) (args : json) (term : string) :
  (prop args "name" = Some (JStr term) ->
   exists found,
     found = filter (fun emp => ci_includes pf (Emp.name emp) term) (employees kb)
     /\ (forall emp, In emp found <->
                     In emp (employees kb) /\ ci_contains pf (Emp.name emp) term)
     /\ executeTool pf kb (Some (JStr "getEmployeeByName")) args
        = match found with
          | [] => Returned (Failure ("No employee found matching " ++ quoted term))
          | _ => Returned (EmployeesByName found)
          end)
  /\ (prop args "designation" = Some (JStr term) ->
      exists found,
        found = filter (fun emp => ci_includes pf (Emp.designation emp) term)
                       (employees kb)
        /\ (forall emp, In emp found <->
                        In emp (employees kb)
                        /\ ci_contains pf (Emp.designation emp) term)
        /\ executeTool pf kb (Some (JStr "getEmployeeByDesignation")) args
           = match found with
             | [] => Returned (Failure ("No employees found with designation "
                                        ++ quoted term))
             | _ => Returned (EmployeesByDesignation (List.length found) found)
             end)
  /\ (prop args "serviceName" = Some (JStr term) -> term <> EmptyString ->
      exists found,
        found = filter (fun service =>
                          ci_includes pf (Service.title service) term
                          || ci_includes pf (Service.description service) term)
                       (About.services (aboutData kb))
        /\ (forall service, In service found <->
                            In service (About.services (aboutData kb))
                            /\ (ci_contains pf (Service.title service) term
                                \/ ci_contains pf (Service.description service) term))
        /\ executeTool pf kb (Some (JStr "getServices")) args
           = match found with
             | [] => Returned (Failure ("No service found matching " ++ quoted term))
             | _ => Returned (ServicesFound found)
             end)
  /\ (prop args "category" = Some (JStr term) ->
      (forall (before after : list FaqCategory.t) (cat : FaqCategory.t),
          faqData kb = (before ++ cat :: after)%list ->
          (forall c, In c before ->
                     ~ ci_contains pf (FaqCategory.title_highlight c) term) ->
          ci_contains pf (FaqCategory.title_highlight cat) term ->
          executeTool pf kb (Some (JStr "getFAQsByCategory")) args
          = Returned (FaqCategoryFound (FaqCategory.title_highlight cat)
                                       (List.length (FaqCategory.faqs cat))
                                       (FaqCategory.faqs cat)))
      /\ ((forall c, In c (faqData kb) ->
                     ~ ci_contains pf (FaqCategory.title_highlight c) term) ->
          executeTool pf kb (Some (JStr "getFAQsByCategory")) args
          = Returned (Failure ("Category not found. Available: "
                               ++ join ", " (map FaqCategory.title_highlight
                                                 (faqData kb)))))).
Proof.
  split; [|split; [|split]].
  - intros H. eexists. split; [reflexivity|]. split.
    + intros emp. rewrite filter_In, ci_includes_spec. reflexivity.
    + apply (executeTool_getEmployeeByName _ _ _ _ H).
  - intros H. eexists. split; [reflexivity|]. split.
    + intros emp. rewrite filter_In, ci_includes_spec. reflexivity.
    + apply (executeTool_getEmployeeByDesignation _ _ _ _ H).
  - intros H Hne. eexists. split; [reflexivity|]. split.
    + intros service. rewrite filter_In, orb_true_iff, !ci_includes_spec.
      reflexivity.
    + apply (executeTool_getServices _ _ _ _ H Hne).
  - intros H. rewrite (executeTool_getFAQsByCategory _ _ _ _ H). split.
    + intros before after cat E Hb Hc. rewrite E. rewrite find_first; [reflexivity| |].
      * intros c Hin. apply not_ci_contains. now apply Hb.
      * now apply ci_includes_spec.
    + intros Hn. rewrite find_none; [reflexivity|].
      intros c Hin. apply not_ci_contains. now apply Hn.
Qed.

Lemma lookups_return_all_matches_category_first_witness :
  executeTool browser demo_kb (Some (JStr "getEmployeeByName")) (JObj [("name", JStr "JOHN")])
  = Returned (EmployeesByName
                [Emp.mk "John Carter" "CTO" "john@sb.example" [];
                 Emp.mk "Johnny Lee" "Full-Stack Engineer" "johnny@sb.example"
                        [("phone", JStr "555-0101")]])
  /\ executeTool browser demo_kb (Some (JStr "getEmployeeByDesignation"))
                 (JObj [("designation", JStr "cto")])
     = Returned (EmployeesByDesignation 1
                   [Emp.mk "John Carter" "CTO" "john@sb.example" []])
  /\ executeTool browser demo_kb (Some (JStr "getServices"))
                 (JObj [("serviceName", JStr "Website")])
     = Returned (ServicesFound
                   [Service.mk "Website Development" "Fast sites" [];
                    Service.mk "SEO" "Search ranking for your website" []])
  /\ executeTool browser demo_kb (Some (JStr "getFAQsByCategory"))
                 (JObj [("category", JStr "content")])
     = Returned (FaqCategoryFound "Content Marketing" 2
                   [Faq.mk "Do you write blogs?" "Yes."  [];
                    Faq.mk "How often?" "Weekly." []])
  /\ executeTool browser demo_kb (Some (JStr "getFAQsByCategory"))
                 (JObj [("category", JStr "pricing")])
     = Returned (Failure "Category not found. Available: Marketing Agency, Content Marketing, Website Development, Brand Management").
Proof.
  split; [|split; [|split; [|split]]].
  - destruct (lookups_return_all_matches_category_first browser demo_kb
                (JObj [("name", JStr "JOHN")]) "JOHN") as (H & _).
    destruct (H eq_refl) as (found & -> & _ & E). exact E.
  - destruct (lookups_return_all_matches_category_first browser demo_kb
                (JObj [("designation", JStr "cto")]) "cto") as (_ & H & _).
    destruct (H eq_refl) as (found & -> & _ & E). exact E.
  - destruct (lookups_return_all_matches_category_first browser demo_kb
                (JObj [("serviceName", JStr "Website")]) "Website") as (_ & _ & H & _).
    destruct (H eq_refl ltac:(discriminate)) as (found & -> & _ & E). exact E.
  - destruct (lookups_return_all_matches_category_first browser demo_kb
                (JObj [("category", JStr "content")]) "content") as (_ & _ & _ & H).
    destruct (H eq_refl) as (H1 & _).
    apply (H1 [FaqCategory.mk "Marketing Agency"
                 [Faq.mk "What does it cost?" "It depends on scope." []]]
              [FaqCategory.mk "Website Development"
                 [Faq.mk "Which stack?" "Next.js." []];
               FaqCategory.mk "Brand Management" []]
              (FaqCategory.mk "Content Marketing"
                 [Faq.mk "Do you write blogs?" "Yes."  [];
                  Faq.mk "How often?" "Weekly." []])).
    + reflexivity.
    + intros c [<-|[]] Hc. apply ci_includes_spec in Hc. discriminate Hc.
    + apply ci_includes_spec. reflexivity.
  - destruct (lookups_return_all_matches_category_first browser demo_kb
                (JObj [("category", JStr "pricing")]) "pricing") as (_ & _ & _ & H).
    destruct (H eq_refl) as (_ & H2). apply H2.
    intros c Hin Hc. apply ci_includes_spec in Hc.
    simpl in Hin. destruct Hin as [<-|[<-|[<-|[<-|[]]]]]; discriminate Hc.
Defined.

(** What the claim describes is what the HTTP route does: with the three
    fields present and truthy and the datastore reachable, [POST] stores a
    record stamped with the server's clock and answers 201 with its
    identifier. *)
Lemma POST_creates_booking (now : Z) (b : json) (email phone name : json)
    (collection : list Booking.t) :
  prop b "email" = Some email -> prop b "phone" = Some phone ->
  prop b "name" = Some name ->
  truthy (Some email) = true -> truthy (Some phone) = true ->
  truthy (Some name) = true ->
  POST now (Returned b) (Returned collection)
  = (201%nat,
     JObj [("success", JBool true);
           ("message", JStr "Booking created successfully");
           ("bookingId", JCount (List.length collection))],
     Returned (collection
               ++ [Booking.mk (Some email) (Some phone) (Some name) now])%list).
Proof.
  intros He Hp Hn Te Tp Tn. unfold POST. cbn [bind].
  rewrite (prop_get_prop _ _ _ He), (prop_get_prop _ _ _ Hp),
    (prop_get_prop _ _ _ Hn).
  cbn [bind]. rewrite Te, Tp, Tn. reflexivity.
Qed.

(** C8 (the code at the failing input): the dispatcher has no
    booking-creation case; a [createBooking] call falls to the default
    branch and yields a failure, whatever the arguments, and nothing is
    persisted. *)
Theorem executeTool_createBooking_unknown
    (pf : Platform) (kb : KnowledgeBase) (args : json) :
  known_tool (Some (JStr "createBooking")) = false
  /\ executeTool pf kb (Some (JStr "createBooking")) args
     = Returned (Failure "Unknown tool: createBooking")
  /\ success (Failure "Unknown tool: createBooking") = false.
Proof. repeat split. Qed.

(** C10: with the empty string as [name], [getEmployeeByName] on a
    non-empty employee collection returns success with every employee
    (lower-casing the empty string gives the empty string). *)
Theorem getEmployeeByName_empty_string_returns_all
    (pf : Platform) (kb : KnowledgeBase) (args : json) :
  toLowerCase pf EmptyString = EmptyString ->
  employees kb <> [] ->
  prop args "name" = Some (JStr EmptyString) ->
  executeTool pf kb (Some (JStr "getEmployeeByName")) args
  = Returned (EmployeesByName (employees kb))
  /\ success (EmployeesByName (employees kb)) = true.
Proof.
  intros Hlow Hne Hp. split; [|reflexivity].
  rewrite (executeTool_getEmployeeByName _ _ _ _ Hp). cbv zeta.
  rewrite filter_all.
  - destruct (employees kb); [contradiction|reflexivity].
  - intros emp _. unfold ci_includes. rewrite Hlow. apply includes_empty.
Qed.

Lemma getEmployeeByName_empty_string_returns_all_witness :
  executeTool browser demo_kb (Some (JStr "getEmployeeByName"))
              (JObj [("name", JStr EmptyString)])
  = Returned (EmployeesByName (employees demo_kb)).
Proof.
  apply (getEmployeeByName_empty_string_returns_all browser demo_kb
           (JObj [("name", JStr EmptyString)])).
  - reflexivity.
  - discriminate.
  - reflexivity.
Defined.

(** ** Relay session: the claims *)

Lemma ws_send_open (ws : WebSocket) (data : string) :
  readyState ws = OPEN ->
  ws_send ws data = Returned {| readyState := OPEN; sent := sent ws ++ [data] |}.
Proof. intros H. unfold ws_send. now rewrite H. Qed.

Lemma prop_type_get_prop (msg : json) (k : string) (v : json) :
  prop msg k = Some v -> get_prop msg k = Returned (prop msg k).
Proof. destruct msg; simpl; intros H; try discriminate. reflexivity. Qed.

(** [on_openai_message] on a frame whose text parses to a tool call: the
    client side is the forwarding, the upstream side is
    [handle_tool_call]. *)
Lemma on_openai_message_tool_call pf kb s data msg :
  JSON_parse pf (toString pf data) = Some msg ->
  prop msg "type" = Some (JStr "response.function_call_arguments.done") ->
  openaiWs (on_openai_message pf kb s data)
  = handle_tool_call pf kb msg (openaiWs s).
Proof.
  intros Hp Ht. unfold on_openai_message, parse. rewrite Hp.
  cbn [bind openaiWs]. rewrite (prop_type_get_prop _ _ _ Ht), Ht. reflexivity.
Qed.

(** C1 (as stated, refuted): a tool-call frame for [getEmployeeByName]
    whose arguments carry no [name] is forwarded to the client, and nothing
    at all is sent upstream for it. *)
Lemma tool_call_without_reply :
  let data := tool_call_frame "call_1" "getEmployeeByName" "{}" in
  let s' := on_openai_message browser demo_kb session_active data in
  option_map (fun msg => prop msg "type")
             (JSON_parse browser (toString browser data))
  = Some (Some (JStr "response.function_call_arguments.done"))
  /\ sent (clientWs s') = [data]
  /\ sent (openaiWs s') = [].
Proof. vm_compute. repeat split. Qed.

(** C1 (amended): for an upstream frame whose text parses to a message of
    type [response.function_call_arguments.done], received on an open
    upstream connection, whose argument string parses and for which the
    dispatcher
    returns a ToolResult (success or failure), the relay sends upstream
    exactly one [conversation.item.create] whose item is a
    [function_call_output] with the same [call_id] and the serialised
    result, immediately followed by exactly one [response.create]; when the
    argument string does not parse or the dispatcher throws, nothing is
    sent upstream. *)
Theorem tool_call_reply
    (pf : Platform) (kb : KnowledgeBase) (s : RelaySession)
    (data : string) (msg : json) :
  JSON_parse pf (toString pf data) = Some msg ->
  prop msg "type" = Some (JStr "response.function_call_arguments.done") ->
  readyState (openaiWs s) = OPEN ->
  let s' := on_openai_message pf kb s data in
  (forall args result,
      JSON_parse pf (ToString_val (prop msg "arguments")) = Some args ->
      executeTool pf kb (prop msg "name") args = Returned result ->
      sent (openaiWs s')
      = (sent (openaiWs s)
         ++ [JSON_stringify pf
               (function_call_output
                  (prop msg "call_id")
                  (JSON_stringify pf (ToolResult_to_json result)));
             JSON_stringify pf response_create])%list)
  /\ (JSON_parse pf (ToString_val (prop msg "arguments")) = None ->
      sent (openaiWs s') = sent (openaiWs s))
  /\ (forall args e,
         JSON_parse pf (ToString_val (prop msg "arguments")) = Some args ->
         executeTool pf kb (prop msg "name") args = Thrown e ->
         sent (openaiWs s') = sent (openaiWs s)).
Proof.
  intros Hp Ht Hopen s'. subst s'.
  rewrite (on_openai_message_tool_call _ _ _ _ _ Hp Ht).
  unfold handle_tool_call, parse. repeat split.
  - intros args result Ha Hr. rewrite Ha. cbn [bind]. rewrite Hr.
    rewrite (ws_send_open _ _ Hopen).
    rewrite ws_send_open by reflexivity.
    cbn [sent]. now rewrite <- app_assoc.
  - intros Ha. rewrite Ha. reflexivity.
  - intros args e Ha He. rewrite Ha. cbn [bind]. rewrite He. reflexivity.
Qed.

Lemma tool_call_reply_witness :
  let data := tool_call_frame "call_7" "getEmployeeByDesignation"
                (JsonText.stringify (JObj [("designation", JStr "pilot")])) in
  sent (openaiWs (on_openai_message browser demo_kb session_active data))
  = [JsonText.stringify
       (function_call_output
          (Some (JStr "call_7"))
          (JsonText.stringify
             (ToolResult_to_json
                (Failure ("No employees found with designation "
                          ++ quoted "pilot")))));
     JsonText.stringify response_create].
Proof.
  cbv zeta.
  refine (proj1 (tool_call_reply browser demo_kb session_active
                   (tool_call_frame "call_7" "getEmployeeByDesignation"
                      (JsonText.stringify (JObj [("designation", JStr "pilot")])))
                   (JObj [("type", JStr "response.function_call_arguments.done");
                          ("call_id", JStr "call_7");
                          ("name", JStr "getEmployeeByDesignation");
                          ("arguments",
                           JStr (JsonText.stringify
                                   (JObj [("designation", JStr "pilot")])))])
                   _ _ _)
                (JObj [("designation", JStr "pilot")])
                (Failure ("No employees found with designation " ++ quoted "pilot"))
                _ _); vm_compute; reflexivity.
Defined.

(** From a state where both connections are open, the close of either
    side makes the handler call [close()] on the other side in the same
    step: the closed side is CLOSED and the other is CLOSING. *)
Lemma cascading_close_from_open
    (pf : Platform) (session_update : json) (kb : KnowledgeBase)
    (s : RelaySession) :
  readyState (clientWs s) = OPEN ->
  readyState (openaiWs s) = OPEN ->
  (let s' := deliver pf session_update kb s ClientClose in
   readyState (clientWs s') = CLOSED /\ readyState (openaiWs s') = CLOSING)
  /\ (let s' := deliver pf session_update kb s OpenaiClose in
      readyState (openaiWs s') = CLOSED /\ readyState (clientWs s') = CLOSING).
Proof.
  intros Hc Ho. unfold deliver, on_client_close, on_openai_close, ws_close.
  cbn [clientWs openaiWs with_state readyState]. rewrite Hc, Ho.
  cbn. repeat split.
Qed.

(** Once the client is gone and the upstream is open, no handler of the
    session closes the upstream: only its own close event ends it. *)
Lemma ws_send_readyState (ws ws' : WebSocket) (data : string) :
  ws_send ws data = Returned ws' -> readyState ws' = readyState ws.
Proof.
  unfold ws_send. destruct (readyState ws) eqn:E; intros [= <-]; cbn; congruence.
Qed.

Lemma handle_tool_call_readyState pf kb msg up :
  readyState (handle_tool_call pf kb msg up) = readyState up.
Proof.
  unfold handle_tool_call.
  destruct (bind _ _) as [result|e]; [|reflexivity].
  destruct (ws_send up _) as [up1|e1] eqn:E1; [|reflexivity].
  destruct (ws_send up1 _) as [up2|e2] eqn:E2.
  - rewrite (ws_send_readyState _ _ _ E2). apply (ws_send_readyState _ _ _ E1).
  - apply (ws_send_readyState _ _ _ E1).
Qed.

Lemma half_open_step pf session_update kb s e :
  readyState (clientWs s) = CLOSED ->
  readyState (openaiWs s) = OPEN ->
  e <> ClientClose -> e <> OpenaiClose ->
  readyState (clientWs (deliver pf session_update kb s e)) = CLOSED
  /\ readyState (openaiWs (deliver pf session_update kb s e)) = OPEN.
Proof.
  intros Hc Ho N1 N2. destruct e; try congruence; cbn [deliver].
  - unfold on_openai_open. cbn [openaiWs clientWs].
    rewrite ws_send_open by reflexivity. cbn. now split.
  - now split.
  - unfold on_client_message. destruct (parse pf _); [|now split].
    rewrite Ho. cbn [is_OPEN]. rewrite (ws_send_open _ _ Ho). cbn. now split.
  - unfold on_openai_message. rewrite Hc. cbn [is_OPEN clientWs openaiWs].
    split; [exact Hc|].
    destruct (bind _ _) as [[msg ty]|err]; [|exact Ho].
    destruct (strict_eq_string ty _); [|exact Ho].
    now rewrite handle_tool_call_readyState.
Qed.

Lemma half_open_persists pf session_update kb es : forall s,
  readyState (clientWs s) = CLOSED ->
  readyState (openaiWs s) = OPEN ->
  Forall (fun e => e <> ClientClose /\ e <> OpenaiClose) es ->
  readyState (clientWs (run pf session_update kb s es)) = CLOSED
  /\ readyState (openaiWs (run pf session_update kb s es)) = OPEN.
Proof.
  induction es as [|e es IH]; intros s Hc Ho Hes; [now split|].
  inversion Hes as [|? ? [N1 N2] Hes']; subst.
  destruct (half_open_step pf session_update kb s e Hc Ho N1 N2) as [Hc' Ho'].
  apply (IH _ Hc' Ho' Hes').
Qed.

(** C7 (the code diverges from the claim): the client closes while the
    upstream dial is still in progress.  The close handler tests
    [openaiWs.readyState === WebSocket.OPEN], finds CONNECTING and does not
    call [close()]; the dial then completes, and whatever arrives
    afterwards short of a close event, the client stays CLOSED and the
    upstream stays OPEN. *)
Theorem client_close_during_dial_leaves_upstream_open
    (pf : Platform) (session_update : json) (kb : KnowledgeBase)
    (s : RelaySession) (es : list event) :
  readyState (clientWs s) = OPEN ->
  readyState (openaiWs s) = CONNECTING ->
  Forall (fun e => e <> ClientClose /\ e <> OpenaiClose) es ->
  let s1 := deliver pf session_update kb s ClientClose in
  let s2 := run pf session_update kb s1 (OpenaiOpen :: es) in
  readyState (clientWs s1) = CLOSED
  /\ openaiWs s1 = openaiWs s
  /\ readyState (clientWs s2) = CLOSED
  /\ readyState (openaiWs s2) = OPEN.
Proof.
  intros Hc Ho Hes s1 s2.
  assert (E1 : s1 = {| clientWs := with_state CLOSED (clientWs s);
                       openaiWs := openaiWs s |}).
  { subst s1. unfold deliver, on_client_close. cbn [openaiWs]. now rewrite Ho. }
  split; [now rewrite E1|]. split; [now rewrite E1|].
  subst s2. unfold run. cbn [fold_left]. fold (run pf session_update kb).
  apply half_open_persists; [| |exact Hes]; rewrite E1;
    unfold deliver, on_openai_open; cbn [clientWs openaiWs];
    rewrite ws_send_open by reflexivity; reflexivity.
Qed.

Lemma client_close_during_dial_leaves_upstream_open_witness :
  let s := run browser sample_session_update demo_kb handleRealtimeConnection
               [ClientClose; OpenaiOpen;
                OpenaiMessage (frame_of_type "response.done")] in
  readyState (clientWs s) = CLOSED /\ readyState (openaiWs s) = OPEN.
Proof.
  cbv zeta.
  destruct (client_close_during_dial_leaves_upstream_open
              browser sample_session_update demo_kb handleRealtimeConnection
              [OpenaiMessage (frame_of_type "response.done")]
              eq_refl eq_refl)
    as (_ & _ & Hc & Ho).
  - repeat constructor; discriminate.
  - split; [exact Hc | exact Ho].
Defined.

(** ** End-to-end scenario *)

(** Three append-audio frames from the client, then a tool call for
    [getAllEmployees] from upstream: the upstream connection has carried
    the three frames, one [conversation.item.create] with the summary of
    the three employees of the knowledge base, and one [response.create];
    the client has received the tool-call frame. *)
Example relay_end_to_end :
  let call := tool_call_frame "call_1" "getAllEmployees" "{}" in
  let s := run browser sample_session_update demo_kb session_active
               [ClientMessage (append_audio_frame "AAA=");
                ClientMessage (append_audio_frame "AQI=");
                ClientMessage (append_audio_frame "AwQ=");
                OpenaiMessage call] in
  sent (openaiWs s)
  = [append_audio_frame "AAA="; append_audio_frame "AQI="; append_audio_frame "AwQ=";
     JsonText.stringify
       (function_call_output
          (Some (JStr "call_1"))
          (JsonText.stringify
             (ToolResult_to_json
                (AllEmployees 3
                   [{| sum_name := "John Carter"; sum_designation := "CTO";
                       sum_email := "john@sb.example" |};
                    {| sum_name := "Johnny Lee";
                       sum_designation := "Full-Stack Engineer";
                       sum_email := "johnny@sb.example" |};
                    {| sum_name := "Alice Moore"; sum_designation := "Designer";
                       sum_email := "alice@sb.example" |}]))));
     JsonText.stringify response_create]
  /\ sent (clientWs s) = [call].
Proof. vm_compute. split; reflexivity. Qed.

(** ** Playback decode path: the claims *)

Open Scope nat_scope.

Lemma get_list_ascii (s : string) (i : nat) :
  String.get i s = nth_error (list_ascii_of_string s) i.
Proof.
  revert i; induction s as [|c s IH]; intros [|i]; simpl; auto.
Qed.

Lemma char_codes_length (s : string) :
  List.length (char_codes s) = String.length s.
Proof.
  unfold char_codes. rewrite length_map.
  induction s; simpl; congruence.
Qed.

Lemma charCodeAt_nth (s : string) (i : nat) :
  i < String.length s ->
  (charCodeAt s i mod 256)%Z = nth i (char_codes s) 0%Z.
Proof.
  intros H. unfold charCodeAt, char_codes. rewrite get_list_ascii.
  rewrite <- char_codes_length in H. unfold char_codes in H.
  rewrite length_map in H.
  destruct (nth_error (list_ascii_of_string s) i) as [c|] eqn:E.
  - rewrite (nth_error_nth _ _ _ (map_nth_error _ _ _ E)).
    apply Z.mod_small. pose proof (nat_ascii_bounded c). lia.
  - apply nth_error_None in E. lia.
Qed.

Lemma typed_set_middle (l1 l2 : list Z) (x v : Z) :
  typed_set (l1 ++ x :: l2) (List.length l1) v = (l1 ++ (v mod 256)%Z :: l2)%list.
Proof. induction l1 as [|y l1 IH]; simpl; congruence. Qed.

Lemma firstn_succ_nth {A : Type} (l : list A) (n : nat) (d : A) :
  n < List.length l -> firstn (S n) l = (firstn n l ++ [nth n l d])%list.
Proof.
  revert n; induction l as [|x l IH]; intros [|n] H; simpl in *; try lia; auto.
  rewrite (IH n) by lia. reflexivity.
Qed.

(** The state of the byte array after the first [n] rounds of the loop. *)
Lemma fill_rounds (s : string) (m n : nat) :
  n <= String.length s -> String.length s <= m ->
  fold_left (fun bytes i => typed_set bytes i (charCodeAt s i))
            (seq 0 n) (Uint8Array_new m)
  = (firstn n (char_codes s) ++ repeat 0%Z (m - n))%list.
Proof.
  unfold Uint8Array_new. induction n as [|n IH]; intros Hn Hm.
  - simpl. now rewrite Nat.sub_0_r.
  - rewrite seq_S, fold_left_app, IH by lia. cbn [fold_left Nat.add].
    replace (m - n) with (S (m - S n)) by lia. cbn [repeat].
    assert (L : List.length (firstn n (char_codes s)) = n).
    { rewrite length_firstn, char_codes_length. lia. }
    pose proof (typed_set_middle (firstn n (char_codes s))
                  (repeat 0%Z (m - S n)) 0%Z (charCodeAt s n)) as T.
    rewrite L in T. rewrite T.
    rewrite charCodeAt_nth by lia.
    rewrite (firstn_succ_nth _ n 0%Z) by (rewrite char_codes_length; lia).
    now rewrite <- app_assoc.
Qed.

Lemma bytes_of_binaryString_eq (s : string) :
  bytes_of_binaryString s
  = (char_codes s ++ if Nat.even (String.length s) then [] else [0%Z])%list.
Proof.
  unfold bytes_of_binaryString. cbv zeta.
  rewrite fill_rounds by (destruct (Nat.even (String.length s)); lia).
  rewrite firstn_all2 by (rewrite char_codes_length; lia).
  destruct (Nat.even (String.length s)).
  - now rewrite Nat.sub_diag.
  - replace (String.length s + 1 - String.length s) with 1 by lia. reflexivity.
Qed.

Lemma Int16Array_of_even_buffer (n : nat) : forall bytes,
  List.length bytes = 2 * n ->
  exists pcm16, Int16Array_of_buffer bytes = Returned pcm16
                /\ List.length pcm16 = n.
Proof.
  induction n as [|n IH]; intros bytes H.
  - destruct bytes; [|discriminate]. now exists [].
  - destruct bytes as [|lo [|hi r]]; simpl in H; try lia.
    destruct (IH r ltac:(lia)) as (pcm16 & E & L).
    exists (int16_of_bytes lo hi :: pcm16). cbn [Int16Array_of_buffer].
    rewrite E. cbn. now rewrite L.
Qed.

Lemma bytes_of_binaryString_even (s : string) :
  exists n, List.length (bytes_of_binaryString s) = 2 * n
            /\ n = (String.length s + 1) / 2.
Proof.
  rewrite bytes_of_binaryString_eq, length_app, char_codes_length.
  destruct (Nat.even (String.length s)) eqn:E; cbn [List.length].
  - apply Nat.even_spec in E as [k Hk]. exists k. rewrite Hk. split; [lia|].
    apply (Nat.div_unique _ 2 k 1); lia.
  - assert (O : Nat.odd (String.length s) = true)
      by (rewrite <- Nat.negb_even, E; reflexivity).
    apply Nat.odd_spec in O as [k Hk]. exists (S k). rewrite Hk. split; [lia|].
    apply (Nat.div_unique _ 2 (S k) 0); lia.
Qed.

(** C9: a payload that decodes to an odd number of bytes is padded with one
    zero byte to an even length; every index the fill loop writes lies
    inside the buffer, the 16-bit view is created without a RangeError and
    has (len + 1) / 2 samples, and the chunk decodes to that many float
    samples. *)
Theorem odd_payload_is_padded
    (pf : Platform) (base64Audio binaryString : string) :
  atob pf base64Audio = Some binaryString ->
  Nat.odd (String.length binaryString) = true ->
  let len := String.length binaryString in
  let bytes := bytes_of_binaryString binaryString in
  bytes = (char_codes binaryString ++ [0%Z])%list
  /\ List.length bytes = len + 1
  /\ Nat.even (List.length bytes) = true
  /\ (forall i, i < len -> i < List.length bytes)
  /\ (exists pcm16,
         Int16Array_of_buffer bytes = Returned pcm16
         /\ List.length pcm16 = (len + 1) / 2
         /\ decode_chunk pf base64Audio = Returned (map decode_sample pcm16)).
Proof.
  intros Ha Hodd len bytes. subst len bytes.
  assert (E : Nat.even (String.length binaryString) = false).
  { rewrite <- Nat.negb_odd, Hodd. reflexivity. }
  assert (B : bytes_of_binaryString binaryString
              = (char_codes binaryString ++ [0%Z])%list).
  { rewrite bytes_of_binaryString_eq, E. reflexivity. }
  assert (L : List.length (bytes_of_binaryString binaryString)
              = String.length binaryString + 1).
  { rewrite B, length_app, char_codes_length. reflexivity. }
  split; [exact B|]. split; [exact L|]. split.
  { rewrite L, Nat.add_1_r, Nat.even_succ. exact Hodd. }
  split; [intros i Hi; lia|].
  destruct (bytes_of_binaryString_even binaryString) as (n & Hn & Hdiv).
  destruct (Int16Array_of_even_buffer n _ Hn) as (pcm16 & Hv & Hl).
  exists pcm16. split; [exact Hv|]. split; [congruence|].
  unfold decode_chunk. rewrite Ha, Hv. reflexivity.
Qed.

Lemma odd_payload_is_padded_witness :
  bytes_of_binaryString "ABC" = [65; 66; 67; 0]%Z
  /\ decode_chunk browser "QUJD" = Returned [16961 # 32767; 67 # 32767]%Q.
Proof.
  destruct (odd_payload_is_padded browser "QUJD" "ABC" eq_refl eq_refl)
    as (B & _ & _ & _ & pcm16 & Hv & _ & Hd).
  split; [exact B|]. rewrite Hd.
  assert (E : Returned pcm16 = Returned [16961; 67]%Z)
    by (rewrite <- Hv; reflexivity).
  injection E as ->. reflexivity.
Defined.

(** Whatever the parity, the decode path returns samples once [atob] has
    accepted the payload. *)
Lemma decode_chunk_returns (pf : Platform) (base64Audio binaryString : string) :
  atob pf base64Audio = Some binaryString ->
  exists samples, decode_chunk pf base64Audio = Returned samples
                  /\ List.length samples = (String.length binaryString + 1) / 2.
Proof.
  intros Ha.
  destruct (bytes_of_binaryString_even binaryString) as (n & Hn & Hdiv).
  destruct (Int16Array_of_even_buffer n _ Hn) as (pcm16 & Hv & Hl).
  exists (map decode_sample pcm16). unfold decode_chunk. rewrite Ha, Hv.
  split; [reflexivity|]. rewrite length_map. congruence.
Qed.

(** ** Audio codec in exact arithmetic *)

Open Scope Q_scope.


Lemma Qltb_true (x y : Q) : Qltb x y = true <-> x < y.
Proof.
  unfold Qltb. rewrite negb_true_iff. split.
  - intros H. apply Qnot_le_lt. intros L. apply Qle_bool_iff in L. congruence.
  - intros H. destruct (Qle_bool y x) eqn:E; [|reflexivity].
    apply Qle_bool_iff in E. exfalso. apply (Qlt_not_le _ _ H E).
Qed.

Lemma Qltb_false (x y : Q) : Qltb x y = false <-> y <= x.
Proof.
  unfold Qltb. rewrite negb_false_iff. apply Qle_bool_iff.
Qed.

Lemma clamp_range (x : Q) : -1 <= clamp x <= 1.
Proof.
  unfold clamp. split.
  - apply Q.le_max_l.
  - apply Q.max_lub; [discriminate | apply Q.le_min_l].
Qed.

Lemma clamp_id (x : Q) : -1 <= x <= 1 -> clamp x == x.
Proof.
  intros [L U]. unfold clamp.
  rewrite (Q.min_r 1 x U). apply Q.max_r, L.
Qed.

Lemma ToInt16_small (q : Q) :
  (-32768 <= Qtrunc q <= 32767)%Z -> ToInt16 q = Qtrunc q.
Proof.
  intros H. unfold ToInt16. cbv zeta.
  destruct (32768 <=? Qtrunc q mod 65536)%Z eqn:E;
    [apply Z.leb_le in E | apply Z.leb_gt in E];
    Z.div_mod_to_equations; lia.
Qed.

Lemma ToInt16_range (q : Q) : (-32768 <= ToInt16 q <= 32767)%Z.
Proof.
  unfold ToInt16. cbv zeta.
  destruct (32768 <=? Qtrunc q mod 65536)%Z eqn:E;
    [apply Z.leb_le in E | apply Z.leb_gt in E];
    Z.div_mod_to_equations; lia.
Qed.

(** The scaled sample before conversion, and what truncation does to it. *)
Lemma Qtrunc_nonneg (q : Q) :
  0 <= q -> Qtrunc q = Qfloor q /\ inject_Z (Qtrunc q) <= q < inject_Z (Qtrunc q) + 1.
Proof.
  intros H. unfold Qtrunc. rewrite (proj2 (Qltb_false q 0) H).
  split; [reflexivity|]. split; [apply Qfloor_le|].
  pose proof (Qlt_floor q) as L. rewrite inject_Z_plus in L. exact L.
Qed.

Lemma Qtrunc_neg (q : Q) :
  q < 0 -> Qtrunc q = Qceiling q /\ inject_Z (Qtrunc q) - 1 < q <= inject_Z (Qtrunc q).
Proof.
  intros H. unfold Qtrunc. rewrite (proj2 (Qltb_true q 0) H).
  split; [reflexivity|]. split; [|apply Qle_ceiling].
  pose proof (Qceiling_lt q) as L.
  unfold Z.sub in L. rewrite inject_Z_plus in L. exact L.
Qed.

Lemma inject_Z_le_inv (a b : Z) : inject_Z a <= inject_Z b -> (a <= b)%Z.
Proof. now rewrite <- Zle_Qle. Qed.

Lemma inject_Z_lt_inv (a b : Z) : inject_Z a < inject_Z b -> (a < b)%Z.
Proof. now rewrite <- Zlt_Qlt. Qed.

Lemma int16_bytes_round_trip (v : Z) :
  (-32768 <= v <= 32767)%Z ->
  match setInt16_le v with
  | [lo; hi] => int16_of_bytes lo hi = v
  | _ => False
  end.
Proof.
  intros H. unfold setInt16_le, int16_of_bytes. cbv zeta.
  destruct (32768 <=? _)%Z eqn:E;
    [apply Z.leb_le in E | apply Z.leb_gt in E];
    Z.div_mod_to_equations; lia.
Qed.

Lemma Int16Array_of_floatTo16BitPCM (float32Array : list Q) :
  Int16Array_of_buffer (floatTo16BitPCM float32Array)
  = Returned (map encode_sample float32Array).
Proof.
  induction float32Array as [|x xs IH]; [reflexivity|].
  unfold floatTo16BitPCM in *. cbn [flat_map map].
  pose proof (int16_bytes_round_trip (encode_sample x) (ToInt16_range _)) as R.
  unfold setInt16_le in *. cbn [app Int16Array_of_buffer].
  rewrite IH. cbn [bind]. now rewrite R.
Qed.

(** The two cases of [encode_sample] on a sample of [-1, 1]: the value
    written and the interval of the scaled sample it stands for. *)
Lemma encode_sample_cases (x : Q) :
  -1 <= x <= 1 ->
  (x < 0
   /\ encode_sample x = Qtrunc (clamp x * 32768)
   /\ (-32768 <= encode_sample x <= 0)%Z
   /\ inject_Z (encode_sample x) - 1 < x * 32768 <= inject_Z (encode_sample x))
  \/ (0 <= x
      /\ encode_sample x = Qtrunc (clamp x * 32767)
      /\ (0 <= encode_sample x <= 32767)%Z
      /\ inject_Z (encode_sample x) <= x * 32767 < inject_Z (encode_sample x) + 1).
Proof.
  intros Hx. pose proof (clamp_id x Hx) as Hs.
  unfold encode_sample. cbv zeta.
  set (s := clamp x) in *. clearbody s.
  destruct (Qltb s 0) eqn:N.
  - left. apply Qltb_true in N.
    assert (Hq : s * 32768 < 0) by lra.
    destruct (Qtrunc_neg _ Hq) as [_ [L U]].
    remember (Qtrunc (s * 32768)) as v eqn:Ev.
    assert (B : (-32768 <= v <= 0)%Z).
    { split.
      - apply (inject_Z_le_inv (-32768) v).
        change (inject_Z (-32768)) with (-32768). lra.
      - apply Z.lt_succ_r. apply (inject_Z_lt_inv v 1).
        change (inject_Z 1) with 1. lra. }
    assert (E : ToInt16 (s * 32768) = v)
      by (rewrite Ev; apply ToInt16_small; rewrite <- Ev; lia).
    rewrite E. repeat split; try lia; lra.
  - right. apply Qltb_false in N.
    assert (Hq : 0 <= s * 32767) by lra.
    destruct (Qtrunc_nonneg _ Hq) as [_ [L U]].
    remember (Qtrunc (s * 32767)) as v eqn:Ev.
    assert (B : (0 <= v <= 32767)%Z).
    { split.
      - apply Z.lt_succ_r. apply (inject_Z_lt_inv 0 (Z.succ v)).
        unfold Z.succ. rewrite inject_Z_plus.
        change (inject_Z 0) with 0. change (inject_Z 1) with 1. lra.
      - apply (inject_Z_le_inv v 32767).
        change (inject_Z 32767) with 32767. lra. }
    assert (E : ToInt16 (s * 32767) = v)
      by (rewrite Ev; apply ToInt16_small; rewrite <- Ev; lia).
    rewrite E. repeat split; try lia; lra.
Qed.

(** A float32 sample scaled by 32767 or 32768 has at most 39 significant
    bits: the product the page computes in double arithmetic is exact,
    which is why [encode_sample] takes it unrounded. *)
Lemma scaled_sample_fits_double (x : Q) :
  is_float32 x ->
  forall c : Z, (c = 32767 \/ c = 32768)%Z ->
  exists m e : Z,
    (Z.abs m < 2 ^ 53)%Z /\ (-1074 <= e)%Z /\ x * inject_Z c == inject_Z m * pow2 e.
Proof.
  intros (m & e & Hm & He & Hx) c Hc. exists (m * c)%Z, e.
  split; [|split].
  - rewrite Z.abs_mul. destruct Hc as [-> | ->]; cbn [Z.abs]; lia.
  - lia.
  - rewrite Hx, inject_Z_mult. ring.
Qed.


(** ** IEEE-754 rounding: the round trip on float32 samples *)

Open Scope Z_scope.

Lemma div_eucl_shift_eq (a b : Z) : 0 < b -> div_eucl_shift a b = Z.div_eucl a b.
Proof.
  intros Hb. unfold div_eucl_shift.
  assert (E : Z.div_eucl a b = (a / b, a mod b)).
  { unfold Z.div, Z.modulo. now destruct (Z.div_eucl a b). }
  pose proof (Z.log2_nonneg b) as Hj.
  remember (Z.log2 b) as j eqn:Ej. clear Ej.
  destruct (Z.eqb_spec b (2 ^ j)) as [P|_]; [|reflexivity].
  rewrite E, P.
  now rewrite Z.shiftr_div_pow2, Z.land_ones by exact Hj.
Qed.

Lemma round_with_shift (prec emin : Z) (q : Q) :
  round_with div_eucl_shift prec emin q = round_to prec emin q.
Proof.
  unfold round_to, round_with. cbv zeta.
  destruct (Z.abs (Qnum q) =? 0); [reflexivity|].
  set (e := Z.max _ emin).
  rewrite div_eucl_shift_eq; [reflexivity|].
  destruct (Z.ltb_spec e 0) as [_|He]; [reflexivity|].
  rewrite Z.shiftl_mul_pow2 by exact He.
  apply Z.mul_pos_pos; [reflexivity | now apply Z.pow_pos_nonneg].
Qed.

Lemma decode_sample_shift_eq (v : Z) :
  decode_sample_shift v = decode_sample_ieee v.
Proof.
  unfold decode_sample_shift, decode_sample_ieee, to_float32, to_double.
  now rewrite !round_with_shift.
Qed.

(** Rounding commutes with negation. *)
Lemma round_to_opp (prec emin : Z) (q : Q) :
  round_to prec emin (- q)%Q = (- round_to prec emin q)%Q.
Proof.
  destruct q as [n d]. unfold round_to, round_with. cbn [Qopp Qnum Qden].
  rewrite Z.abs_opp.
  destruct (Z.eqb_spec (Z.abs n) 0) as [_|Hn]; [reflexivity|].
  cbv zeta. set (e := Z.max _ emin).
  destruct (Z.div_eucl _ _) as [f r].
  set (m := if 2 * r <? _ then f else _).
  assert (S : (if - n <? 0 then - m else m)
              = - (if n <? 0 then - m else m)).
  { destruct (Z.ltb_spec n 0), (Z.ltb_spec (- n) 0); lia. }
  rewrite S. destruct (Z.ltb_spec e 0) as [He|He]; [reflexivity|].
  unfold inject_Z, Qopp. cbn [Qnum Qden].
  now rewrite !Z.shiftl_mul_pow2, Z.mul_opp_l by exact He.
Qed.

Lemma decode_sample_ieee_opp (n : Z) :
  decode_sample_ieee (- n) = (- decode_sample_ieee n)%Q.
Proof.
  unfold decode_sample_ieee, to_float32, to_double.
  assert (E : (inject_Z (- n) / 32767)%Q = (- (inject_Z n / 32767))%Q).
  { unfold Qdiv, Qmult, Qopp, inject_Z. cbn [Qnum Qden Qinv].
    now rewrite Z.mul_opp_l. }
  now rewrite E, !round_to_opp.
Qed.

Lemma round_trip_ok_from_spec (count : nat) : forall n0 n,
  round_trip_ok_from count n0 = true ->
  n0 <= n < n0 + Z.of_nat count ->
  round_trip_ok_at n (decode_sample_ieee n) = true.
Proof.
  induction count as [|c IH]; intros n0 n H Hn; [lia|].
  cbn [round_trip_ok_from] in H. apply andb_true_iff in H as [H0 H1].
  destruct (Z.eq_dec n n0) as [->|Hne].
  - now rewrite <- decode_sample_shift_eq.
  - apply (IH (n0 + 1) n H1). lia.
Qed.

(** The table: the check holds for every magnitude from 0 to 32768. *)
Lemma round_trip_table : round_trip_ok_from (Z.to_nat 32769) 0 = true.
Proof. vm_compute. reflexivity. Qed.

Open Scope Q_scope.

Lemma Qmake_mult_den (a : Z) (p : positive) :
  (a # p) * inject_Z (Zpos p) == inject_Z a.
Proof.
  unfold Qeq, Qmult, inject_Z. cbn [Qnum Qden]. lia.
Qed.

Lemma pow2_nonneg_exp (e : Z) : (0 <= e)%Z -> pow2 e == inject_Z (2 ^ e).
Proof.
  intros H. unfold pow2. now rewrite (Zpower_Qpower 2 e H).
Qed.

Lemma pow2_neg_exp (j : Z) : (0 <= j)%Z -> pow2 (- j) * inject_Z (2 ^ j) == 1.
Proof.
  intros H. unfold pow2. rewrite Qpower_opp, (Zpower_Qpower 2 j H).
  rewrite Qmult_comm. apply Qmult_inv_r. now apply Qpower_not_0.
Qed.

Lemma inject_Z_pow2_pos (k : Z) : (0 <= k)%Z -> 0 < inject_Z (2 ^ k).
Proof.
  intros H. change 0 with (inject_Z 0). rewrite <- Zlt_Qlt.
  now apply Z.pow_pos_nonneg.
Qed.

(** A float32 value of at least 2^-k is a multiple of 2^-(k+23). *)
Lemma float32_grid (x : Q) (k : Z) :
  is_float32 x -> (0 <= k)%Z -> 1 <= x * inject_Z (2 ^ k) ->
  exists a : Z, x * inject_Z (2 ^ (k + 23)) == inject_Z a.
Proof.
  intros (m & e & Hm & _ & Hx) Hk H1.
  destruct (Z.le_gt_cases 0 e) as [He|He].
  - exists (m * 2 ^ e * 2 ^ (k + 23))%Z.
    rewrite Hx, pow2_nonneg_exp by exact He.
    rewrite !inject_Z_mult. reflexivity.
  - remember (- e)%Z as j eqn:Ej.
    assert (Hj : (0 < j)%Z) by lia.
    assert (Hxj : x * inject_Z (2 ^ j) == inject_Z m).
    { rewrite Hx. replace e with (- j)%Z by lia.
      rewrite <- Qmult_assoc, pow2_neg_exp by lia. ring. }
    pose proof (inject_Z_pow2_pos j ltac:(lia)) as Tj.
    pose proof (inject_Z_pow2_pos k Hk) as Tk.
    assert (Hz : (2 ^ j <= m * 2 ^ k)%Z).
    { apply inject_Z_le_inv. rewrite inject_Z_mult, <- Hxj.
      set (T := inject_Z (2 ^ j)) in *. set (K := inject_Z (2 ^ k)) in *.
      clearbody T K. nra. }
    assert (Hlt : (j < 24 + k)%Z).
    { apply (Z.pow_lt_mono_r_iff 2); [lia | lia |].
      rewrite Z.pow_add_r by lia.
      assert (0 < 2 ^ k)%Z by (apply Z.pow_pos_nonneg; lia).
      nia. }
    exists (m * 2 ^ (k + 23 - j))%Z.
    replace (2 ^ (k + 23))%Z with (2 ^ j * 2 ^ (k + 23 - j))%Z
      by (rewrite <- Z.pow_add_r by lia; f_equal; lia).
    rewrite !inject_Z_mult, Qmult_assoc, Hxj. reflexivity.
Qed.

(** ** Rounding is the identity on representable values *)

Open Scope Z_scope.

Lemma log2_ratio_lower (n d : Z) :
  0 < n -> 0 < d ->
  let L := log2_ratio n d in
  (0 <= L -> d * 2 ^ L <= n) /\ (L < 0 -> d <= n * 2 ^ (- L)).
Proof.
  intros Hn Hd. unfold log2_ratio. cbv zeta.
  destruct (Z.log2_spec n Hn) as [Ln _].
  destruct (Z.log2_spec d Hd) as [_ Ud].
  pose proof (Z.log2_nonneg n) as Nn. pose proof (Z.log2_nonneg d) as Nd.
  remember (Z.log2 n) as ln eqn:E1. remember (Z.log2 d) as ld eqn:E2.
  clear E1 E2. unfold Z.succ in Ud.
  destruct (Z.leb_spec 0 (ln - ld)) as [Hk|Hk].
  - destruct (Z.leb_spec (Z.shiftl d (ln - ld)) n) as [T|T].
    + rewrite Z.shiftl_mul_pow2 in T by exact Hk. split; [intros _; exact T | lia].
    + split.
      * intros HL.
        assert (d * 2 ^ (ln - ld - 1) < 2 ^ (ld + 1) * 2 ^ (ln - ld - 1))
          by (apply Z.mul_lt_mono_pos_r; [apply Z.pow_pos_nonneg; lia | exact Ud]).
        rewrite <- Z.pow_add_r in H by lia.
        replace (ld + 1 + (ln - ld - 1)) with ln in H by lia. lia.
      * intros HL. assert (ln - ld = 0) by lia.
        replace (- (ln - ld - 1)) with 1 by lia.
        replace ln with ld in Ln by lia.
        rewrite Z.pow_add_r in Ud by lia. lia.
  - destruct (Z.leb_spec d (Z.shiftl n (- (ln - ld)))) as [T|T].
    + rewrite Z.shiftl_mul_pow2 in T by lia. split; [lia | intros _; exact T].
    + split; [lia|]. intros _.
      replace (- (ln - ld - 1)) with (ld + 1 - ln) by lia.
      assert (2 ^ ln * 2 ^ (ld + 1 - ln) <= n * 2 ^ (ld + 1 - ln))
        by (apply Z.mul_le_mono_nonneg_r; [apply Z.pow_nonneg; lia | exact Ln]).
      rewrite <- Z.pow_add_r in H by lia.
      replace (ln + (ld + 1 - ln)) with (ld + 1) in H by lia. lia.
Qed.

Open Scope Q_scope.

Lemma pow2_pos (e : Z) : 0 < pow2 e.
Proof. unfold pow2. now apply Qpower_0_lt. Qed.

Lemma pow2_add (a b : Z) : pow2 (a + b) == pow2 a * pow2 b.
Proof. unfold pow2. now apply Qpower_plus. Qed.

Lemma pow2_opp_mul (e : Z) : pow2 (- e) * pow2 e == 1.
Proof.
  rewrite <- pow2_add. replace (- e + e)%Z with 0%Z by lia. reflexivity.
Qed.

(** [2 ^ log2_ratio n d <= n / d], without the division. *)
Lemma log2_ratio_lower_Q (n d : Z) :
  (0 < n)%Z -> (0 < d)%Z ->
  pow2 (log2_ratio n d) * inject_Z d <= inject_Z n.
Proof.
  intros Hn Hd. destruct (log2_ratio_lower n d Hn Hd) as [P N].
  destruct (Z.le_gt_cases 0 (log2_ratio n d)) as [H|H].
  - rewrite pow2_nonneg_exp by exact H.
    rewrite <- inject_Z_mult, <- Zle_Qle. specialize (P H). lia.
  - specialize (N H). set (L := log2_ratio n d) in *. clearbody L.
    assert (Hq : inject_Z d <= inject_Z n * inject_Z (2 ^ (- L)))
      by (rewrite <- inject_Z_mult, <- Zle_Qle; exact N).
    rewrite <- pow2_nonneg_exp in Hq by lia.
    pose proof (pow2_opp_mul L) as M.
    rewrite Qmult_comm in M.
    pose proof (pow2_pos L) as PL. pose proof (pow2_pos (- L)) as PN.
    set (a := pow2 L) in *. set (b := pow2 (- L)) in *.
    set (D := inject_Z d) in *. set (X := inject_Z n) in *.
    clearbody a b D X.
    assert (H1 : a * D <= a * (X * b)) by (apply Qmult_le_l; assumption).
    assert (E : a * (X * b) == X).
    { transitivity (X * (a * b)); [ring|]. rewrite M. ring. }
    now rewrite E in H1.
Qed.

Lemma div_eucl_exact (K den : Z) : (0 < den)%Z -> Z.div_eucl (K * den) den = (K, 0%Z).
Proof.
  intros H.
  assert (E : Z.div_eucl (K * den) den = ((K * den / den)%Z, ((K * den) mod den)%Z)).
  { unfold Z.div, Z.modulo. now destruct (Z.div_eucl (K * den) den). }
  rewrite E, Z.div_mul, Z.mod_mul by lia. reflexivity.
Qed.

Lemma pow2_lt_inv (a b : Z) : pow2 a < pow2 b -> (a < b)%Z.
Proof. intros H. apply (Qpower_lt_compat_l_inv 2 a b H). reflexivity. Qed.

(** A value with at most [prec] significant bits and an exponent of at
    least [emin] is its own rounding. *)
Lemma round_to_exact (prec emin : Z) (q : Q) (m0 e0 : Z) :
  (0 < prec)%Z -> (Z.abs m0 < 2 ^ prec)%Z -> (emin <= e0)%Z ->
  q == inject_Z m0 * pow2 e0 ->
  round_to prec emin q == q.
Proof.
  intros Hp Hm He Hq. destruct q as [n0 d].
  unfold round_to, round_with. cbn [Qnum Qden]. cbv zeta.
  destruct (Z.eqb_spec (Z.abs n0) 0) as [Z0|NZ].
  { assert (n0 = 0%Z) by lia. subst. reflexivity. }
  pose proof (pow2_pos e0) as P0.
  assert (Hn0 : inject_Z n0 == inject_Z m0 * pow2 e0 * inject_Z (Zpos d)).
  { rewrite <- Hq. symmetry. apply Qmake_mult_den. }
  (* the sign and the magnitude of the numerator *)
  assert (Hsign : (n0 < 0 <-> m0 < 0)%Z).
  { assert (Dp : 0 < inject_Z (Zpos d)) by reflexivity.
    assert (T : 0 < pow2 e0 * inject_Z (Zpos d)) by (apply Qmult_lt_0_compat; assumption).
    rewrite <- Qmult_assoc in Hn0.
    set (t := pow2 e0 * inject_Z (Zpos d)) in *. clearbody t.
    split; intros H.
    - apply inject_Z_lt_inv. change (inject_Z 0) with 0.
      assert (inject_Z n0 < 0) by (change 0 with (inject_Z 0); now rewrite <- Zlt_Qlt).
      set (a := inject_Z m0) in *. set (b := inject_Z n0) in *. clearbody a b. nra.
    - apply inject_Z_lt_inv. change (inject_Z 0) with 0.
      assert (inject_Z m0 < 0) by (change 0 with (inject_Z 0); now rewrite <- Zlt_Qlt).
      set (a := inject_Z m0) in *. set (b := inject_Z n0) in *. clearbody a b. nra. }
  assert (Habs : inject_Z (Z.abs n0)
                 == inject_Z (Z.abs m0) * pow2 e0 * inject_Z (Zpos d)).
  { destruct (Z.lt_ge_cases n0 0) as [N|N].
    - assert (m0 < 0)%Z by now apply Hsign.
      rewrite !Z.abs_neq, !inject_Z_opp by lia. rewrite Hn0. ring.
    - assert (~ (m0 < 0)%Z) by (intros C; apply Hsign in C; lia).
      rewrite !Z.abs_eq by lia. exact Hn0. }
  set (n := Z.abs n0) in *.
  assert (Hn : (0 < n)%Z) by (unfold n; lia).
  set (L := log2_ratio n (Zpos d)).
  set (e := Z.max (L - (prec - 1)) emin).
  (* F1: the unit in the last place is fine enough *)
  assert (F1 : (e <= e0)%Z).
  { apply Z.max_lub; [|exact He].
    pose proof (log2_ratio_lower_Q n (Zpos d) Hn ltac:(reflexivity)) as LB.
    fold L in LB. rewrite Habs in LB.
    assert (Dp : 0 < inject_Z (Zpos d)) by reflexivity.
    assert (LB' : pow2 L <= inject_Z (Z.abs m0) * pow2 e0).
    { apply (Qmult_le_r _ _ (inject_Z (Zpos d)) Dp). exact LB. }
    assert (Mb : inject_Z (Z.abs m0) < pow2 prec).
    { rewrite pow2_nonneg_exp by lia. now rewrite <- Zlt_Qlt. }
    assert (Lt : pow2 L < pow2 (prec + e0)).
    { rewrite pow2_add. eapply Qle_lt_trans; [exact LB'|].
      apply Qmult_lt_r; assumption. }
    apply pow2_lt_inv in Lt. lia. }
  set (K := (Z.abs m0 * 2 ^ (e0 - e))%Z).
  assert (HK : inject_Z K == inject_Z (Z.abs m0) * pow2 (e0 - e)).
  { unfold K. rewrite inject_Z_mult, pow2_nonneg_exp by lia. reflexivity. }
  destruct (Z.ltb_spec e 0) as [En|Ep].
  - (* e < 0: num = n * 2^-e, den = d *)
    assert (F2 : Z.shiftl n (- e) = (K * Zpos d)%Z).
    { rewrite Z.shiftl_mul_pow2 by lia.
      apply inject_Z_injective. rewrite !inject_Z_mult, HK, Habs.
      rewrite <- pow2_nonneg_exp by lia.
      replace (e0 - e)%Z with (e0 + - e)%Z by lia. rewrite pow2_add. ring. }
    rewrite F2, div_eucl_exact by reflexivity.
    cbn [Z.mul Z.ltb Z.compare]. 
    rewrite Z.shiftl_mul_pow2 in F2 by lia.
    unfold Qeq. cbn [Qnum Qden].
    rewrite Z2Pos.id by (apply Z.pow_pos_nonneg; lia).
    destruct (Z.ltb_spec n0 0) as [N|N]; unfold n in F2.
    + rewrite Z.abs_neq in F2 by lia. lia.
    + rewrite Z.abs_eq in F2 by lia. lia.
  - (* 0 <= e: num = n, den = d * 2^e *)
    assert (Dp : (0 < Z.shiftl (Zpos d) e)%Z).
    { rewrite Z.shiftl_mul_pow2 by exact Ep.
      apply Z.mul_pos_pos; [reflexivity | now apply Z.pow_pos_nonneg]. }
    assert (F2 : n = (K * Z.shiftl (Zpos d) e)%Z).
    { rewrite Z.shiftl_mul_pow2 by exact Ep.
      apply inject_Z_injective. rewrite !inject_Z_mult, HK, Habs.
      rewrite <- (pow2_nonneg_exp e) by exact Ep.
      replace e0 with (e0 - e + e)%Z at 1 by lia. rewrite pow2_add. ring. }
    rewrite F2 at 1. rewrite div_eucl_exact by exact Dp.
    replace (2 * 0 <? Z.shiftl (Zpos d) e)%Z with true
      by (symmetry; apply Z.ltb_lt; lia).
    rewrite Z.shiftl_mul_pow2 in F2 by exact Ep.
    unfold Qeq, inject_Z. cbn [Qnum Qden].
    rewrite Z.shiftl_mul_pow2 by exact Ep.
    destruct (Z.ltb_spec n0 0) as [N|N]; unfold n in F2.
    + rewrite Z.abs_neq in F2 by lia. lia.
    + rewrite Z.abs_eq in F2 by lia. lia.
Qed.


Lemma round_trip_ok_magnitude (n : Z) :
  (0 <= n <= 32768)%Z -> round_trip_ok_at n (decode_sample_ieee n) = true.
Proof.
  intros H. apply (round_trip_ok_from_spec _ 0%Z n round_trip_table). lia.
Qed.

(** The rounded round trip, from the table and the grid of float32. *)
Lemma ieee_round_trip_nonneg (x : Q) (v : Z) :
  is_float32 x -> (0 <= v <= 32767)%Z ->
  inject_Z v <= x * 32767 < inject_Z v + 1 ->
  Qabs (decode_sample_ieee v - x) <= 1 # 32767.
Proof.
  intros Hf Hv [Hlo Hhi].
  pose proof (round_trip_ok_magnitude v ltac:(lia)) as T.
  unfold round_trip_ok_at in T. cbv zeta in T.
  set (D := decode_sample_ieee v) in *. clearbody D.
  apply andb_true_iff in T as [T _]. apply andb_true_iff in T as [T _].
  apply andb_true_iff in T as [C1 C2].
  apply Qle_bool_iff in C1. unfold Qdiv in C1.
  change (/ 32767) with (1 # 32767) in C1.
  apply Qabs_Qle_condition. split; [|lra].
  apply orb_true_iff in C2 as [C2|C2].
  - apply Qle_bool_iff in C2. unfold Qdiv in C2.
    change (/ 32767) with (1 # 32767) in C2. lra.
  - apply andb_true_iff in C2 as [C2 C5]. apply andb_true_iff in C2 as [C3 C4].
    apply Z.leb_le in C3, C4. apply Qle_bool_iff in C5.
    remember (- log2_ratio v 32767)%Z as k eqn:Ek. clear Ek.
    pose proof (inject_Z_pow2_pos k C3) as Tk.
    pose proof (inject_Z_pow2_pos (k + 23) ltac:(lia)) as Tg.
    assert (H1 : 1 <= x * inject_Z (2 ^ k)).
    { assert (Hq : inject_Z 32767 <= inject_Z v * inject_Z (2 ^ k))
        by (rewrite <- inject_Z_mult, <- Zle_Qle; exact C4).
      change (inject_Z 32767) with 32767 in Hq.
      set (K := inject_Z (2 ^ k)) in *. set (V := inject_Z v) in *.
      clearbody K V. nra. }
    destruct (float32_grid x k Hf C3 H1) as [a Ha].
    assert (Hz : (a * 32767 < (v + 1) * 2 ^ (k + 23))%Z).
    { apply inject_Z_lt_inv. rewrite !inject_Z_mult, <- Ha, inject_Z_plus.
      change (inject_Z 32767) with 32767. change (inject_Z 1) with 1.
      set (G := inject_Z (2 ^ (k + 23))) in *. set (V := inject_Z v) in *.
      clearbody G V. nra. }
    assert (HA : (a <= ((v + 1) * 2 ^ (k + 23) - 1) / 32767)%Z)
      by (apply Z.div_le_lower_bound; lia).
    set (A := (((v + 1) * 2 ^ (k + 23) - 1) / 32767)%Z) in *. clearbody A.
    assert (Hx : x <= A # Z.to_pos (2 ^ (k + 23))).
    { pose proof (Qmake_mult_den A (Z.to_pos (2 ^ (k + 23)))) as M.
      rewrite Z2Pos.id in M by (apply Z.pow_pos_nonneg; lia).
      assert (HaA : inject_Z a <= inject_Z A) by (rewrite <- Zle_Qle; exact HA).
      set (G := inject_Z (2 ^ (k + 23))) in *.
      set (X := A # Z.to_pos (2 ^ (k + 23))) in *.
      clearbody G X. nra. }
    lra.
Qed.

Lemma ieee_round_trip_neg (x : Q) (v : Z) :
  (-32768 <= v <= 0)%Z ->
  inject_Z v - 1 < x * 32768 <= inject_Z v ->
  Qabs (decode_sample_ieee v - x) <= 1 # 32767.
Proof.
  intros Hv [Hlo Hhi].
  pose proof (round_trip_ok_magnitude (- v) ltac:(lia)) as T.
  replace v with (- - v)%Z at 1 by lia. rewrite decode_sample_ieee_opp.
  unfold round_trip_ok_at in T. cbv zeta in T.
  set (D := decode_sample_ieee (- v)) in *. clearbody D.
  apply andb_true_iff in T as [T C4]. apply andb_true_iff in T as [_ C3].
  apply Qle_bool_iff in C3, C4. rewrite inject_Z_opp in C3, C4.
  unfold Qdiv in C3, C4. change (/ 32768) with (1 # 32768) in C3, C4.
  apply Qabs_Qle_condition. split; lra.
Qed.

(** The encoder computes exactly on float32 samples. *)
Lemma Qltb_comp (a b c : Q) : a == b -> Qltb a c = Qltb b c.
Proof.
  intros H. destruct (Qltb b c) eqn:E.
  - apply Qltb_true. apply Qltb_true in E. now rewrite H.
  - apply Qltb_false. apply Qltb_false in E. now rewrite H.
Qed.

Lemma ToInt16_comp (a b : Q) : a == b -> ToInt16 a = ToInt16 b.
Proof.
  intros H. unfold ToInt16, Qtrunc. rewrite (Qltb_comp a b 0 H).
  destruct (Qltb b 0);
    [rewrite (Qceiling_comp a b H) | rewrite (Qfloor_comp a b H)];
    reflexivity.
Qed.

Lemma clamp_float32 (x : Q) : is_float32 x -> is_float32 (clamp x).
Proof.
  intros Hx. unfold clamp.
  assert (H1 : is_float32 1) by (exists 1%Z, 0%Z; repeat split; try reflexivity; lia).
  assert (Hm : is_float32 (-1))
    by (exists (-1)%Z, 0%Z; repeat split; try reflexivity; lia).
  assert (Hmin : is_float32 (Qmin 1 x)).
  { destruct (Q.min_spec 1 x) as [[_ E]|[_ E]].
    - destruct H1 as (m & e & A & B & C). exists m, e. now rewrite E.
    - destruct Hx as (m & e & A & B & C). exists m, e. now rewrite E. }
  destruct (Q.max_spec (-1) (Qmin 1 x)) as [[_ E]|[_ E]].
  - destruct Hmin as (m & e & A & B & C). exists m, e. now rewrite E.
  - destruct Hm as (m & e & A & B & C). exists m, e. now rewrite E.
Qed.

Lemma encode_sample_ieee_exact (x : Q) :
  is_float32 x -> encode_sample_ieee x = encode_sample x.
Proof.
  intros Hx. apply clamp_float32 in Hx.
  unfold encode_sample_ieee, encode_sample. cbv zeta.
  set (s := clamp x) in *. clearbody s.
  destruct (Qltb s 0); apply ToInt16_comp; unfold to_double.
  - destruct (scaled_sample_fits_double s Hx 32768%Z (or_intror eq_refl))
      as (m & e & A & B & C).
    apply (round_to_exact 53 (-1074) _ m e); [reflexivity | exact A | exact B | exact C].
  - destruct (scaled_sample_fits_double s Hx 32767%Z (or_introl eq_refl))
      as (m & e & A & B & C).
    apply (round_to_exact 53 (-1074) _ m e); [reflexivity | exact A | exact B | exact C].
Qed.

(** ** PCM16 round trip: the claim *)

(** C5: a sample in [-1, 1] is left unchanged by the clamp, scaled by 32768
    if negative and by 32767 otherwise, truncated to a value of the signed
    16-bit range that survives the little-endian byte encoding, and
    decoding that value (division by 32767) gives back the sample up to one
    quantization step, 1/32767 - in exact arithmetic for every rational
    sample, and for every float32 sample also with each operation rounded
    as the page computes it (products and quotient in double, the decoded
    value stored as float32). *)
Theorem pcm16_round_trip (x : Q) :
  -1 <= x <= 1 ->
  clamp x == x
  /\ encode_sample x
     = Qtrunc (if Qltb (clamp x) 0 then clamp x * 32768 else clamp x * 32767)
  /\ (-32768 <= encode_sample x <= 32767)%Z
  /\ Int16Array_of_buffer (floatTo16BitPCM [x]) = Returned [encode_sample x]
  /\ Qabs (decode_sample (encode_sample x) - x) <= 1 # 32767
  /\ (is_float32 x ->
      encode_sample_ieee x = encode_sample x
      /\ Qabs (decode_sample_ieee (encode_sample_ieee x) - x) <= 1 # 32767).
Proof.
  intros Hx. pose proof (clamp_id x Hx) as Hs.
  split; [exact Hs|].
  destruct (encode_sample_cases x Hx)
    as [(Hn & E & B & L & U) | (Hp & E & B & L & U)].
  - assert (N : Qltb (clamp x) 0 = true) by (apply Qltb_true; lra).
    rewrite N. split; [exact E|]. split; [lia|].
    split; [apply (Int16Array_of_floatTo16BitPCM [x])|]. split.
    + apply Qabs_Qle_condition. unfold decode_sample, Qdiv.
      change (/ 32767) with (1 # 32767). split; lra.
    + intros Hf. rewrite (encode_sample_ieee_exact x Hf).
      split; [reflexivity|].
      apply ieee_round_trip_neg; [exact B | split; assumption].
  - assert (N : Qltb (clamp x) 0 = false) by (apply Qltb_false; lra).
    rewrite N. split; [exact E|]. split; [lia|].
    split; [apply (Int16Array_of_floatTo16BitPCM [x])|]. split.
    + apply Qabs_Qle_condition. unfold decode_sample, Qdiv.
      change (/ 32767) with (1 # 32767). split; lra.
    + intros Hf. rewrite (encode_sample_ieee_exact x Hf).
      split; [reflexivity|].
      apply ieee_round_trip_nonneg; [exact Hf | exact B | split; assumption].
Qed.

Lemma pcm16_round_trip_witness :
  encode_sample (-3 # 8) = (-12288)%Z
  /\ Qabs (decode_sample (encode_sample (-3 # 8)) - (-3 # 8)) <= 1 # 32767
  /\ Qabs (decode_sample_ieee (encode_sample_ieee (-3 # 8)) - (-3 # 8))
     <= 1 # 32767.
Proof.
  assert (H : -1 <= -3 # 8 <= 1) by (split; discriminate).
  assert (F : is_float32 (-3 # 8)).
  { exists (-3)%Z, (-3)%Z. repeat split; try reflexivity; discriminate. }
  destruct (pcm16_round_trip (-3 # 8) H) as (_ & _ & _ & _ & B & I).
  split; [reflexivity|]. split; [exact B | exact (proj2 (I F))].
Defined.

(** ** Rounding: what it preserves and how far it moves a value *)

Open Scope Z_scope.

Lemma log2_ratio_upper (n d : Z) :
  0 < n -> 0 < d ->
  let L := log2_ratio n d in
  (0 <= L + 1 -> n < d * 2 ^ (L + 1)) /\ (L + 1 < 0 -> n * 2 ^ (- (L + 1)) < d).
Proof.
  intros Hn Hd. unfold log2_ratio. cbv zeta.
  destruct (Z.log2_spec n Hn) as [_ Un].
  destruct (Z.log2_spec d Hd) as [Ld _].
  pose proof (Z.log2_nonneg n) as Nn. pose proof (Z.log2_nonneg d) as Nd.
  remember (Z.log2 n) as ln eqn:E1. remember (Z.log2 d) as ld eqn:E2.
  clear E1 E2. unfold Z.succ in Un.
  destruct (Z.leb_spec 0 (ln - ld)) as [Hk|Hk].
  - destruct (Z.leb_spec (Z.shiftl d (ln - ld)) n) as [T|T].
    + split; [intros _|lia].
      assert (2 ^ ld * 2 ^ (ln - ld + 1) <= d * 2 ^ (ln - ld + 1))
        by (apply Z.mul_le_mono_nonneg_r; [apply Z.pow_nonneg; lia | exact Ld]).
      rewrite <- Z.pow_add_r in H by lia.
      replace (ld + (ln - ld + 1)) with (ln + 1) in H by lia. lia.
    + rewrite Z.shiftl_mul_pow2 in T by exact Hk.
      replace (ln - ld - 1 + 1) with (ln - ld) by lia. split; [intros _; exact T | lia].
  - destruct (Z.leb_spec d (Z.shiftl n (- (ln - ld)))) as [T|T].
    + split; intros HL.
      * assert (ln + 1 = ld) by lia.
        replace (ln - ld + 1) with 0 by lia. rewrite Z.pow_0_r.
        replace (ln + 1) with ld in Un by lia. lia.
      * replace (- (ln - ld + 1)) with (ld - ln - 1) by lia.
        assert (n * 2 ^ (ld - ln - 1) < 2 ^ (ln + 1) * 2 ^ (ld - ln - 1))
          by (apply Z.mul_lt_mono_pos_r; [apply Z.pow_pos_nonneg; lia | exact Un]).
        rewrite <- Z.pow_add_r in H by lia.
        replace (ln + 1 + (ld - ln - 1)) with ld in H by lia. lia.
    + rewrite Z.shiftl_mul_pow2 in T by lia.
      replace (ln - ld - 1 + 1) with (ln - ld) by lia. split; [lia | intros _; exact T].
Qed.

Open Scope Q_scope.

(** [n / d < 2 ^ (log2_ratio n d + 1)], without the division. *)
Lemma log2_ratio_upper_Q (n d : Z) :
  (0 < n)%Z -> (0 < d)%Z ->
  inject_Z n < pow2 (log2_ratio n d + 1) * inject_Z d.
Proof.
  intros Hn Hd. destruct (log2_ratio_upper n d Hn Hd) as [P N].
  destruct (Z.le_gt_cases 0 (log2_ratio n d + 1)) as [H|H].
  - rewrite pow2_nonneg_exp by exact H.
    rewrite <- inject_Z_mult, <- Zlt_Qlt. specialize (P H). lia.
  - specialize (N H). set (L := (log2_ratio n d + 1)%Z) in *. clearbody L.
    assert (Hq : inject_Z n * inject_Z (2 ^ (- L)) < inject_Z d)
      by (rewrite <- inject_Z_mult, <- Zlt_Qlt; exact N).
    rewrite <- pow2_nonneg_exp in Hq by lia.
    pose proof (pow2_opp_mul L) as M.
    rewrite Qmult_comm in M.
    pose proof (pow2_pos L) as PL. pose proof (pow2_pos (- L)) as PN.
    set (a := pow2 L) in *. set (b := pow2 (- L)) in *.
    set (D := inject_Z d) in *. set (X := inject_Z n) in *.
    clearbody a b D X.
    assert (H1 : a * (X * b) < a * D) by (apply Qmult_lt_l; assumption).
    assert (E : a * (X * b) == X).
    { transitivity (X * (a * b)); [ring|]. rewrite M. ring. }
    now rewrite E in H1.
Qed.

Lemma Qmake_pow2 (m j : Z) :
  (0 <= j)%Z -> Qmake m (Z.to_pos (2 ^ j)) == inject_Z m * pow2 (- j).
Proof.
  intros H. pose proof (pow2_neg_exp j H) as E.
  assert (P : (0 < 2 ^ j)%Z) by (apply Z.pow_pos_nonneg; lia).
  pose proof (Qmake_mult_den m (Z.to_pos (2 ^ j))) as M.
  rewrite Z2Pos.id in M by exact P.
  set (x := Qmake m (Z.to_pos (2 ^ j))) in *.
  set (t := inject_Z (2 ^ j)) in *. set (p := pow2 (- j)) in *.
  transitivity (x * (p * t)); [rewrite E; ring|].
  transitivity ((x * t) * p); [ring|]. rewrite M. reflexivity.
Qed.

(** The anatomy of a rounding of a positive value: with [e] the exponent
    of the unit in the last place, the value is [(f + r / den) * 2 ^ e]
    with [0 <= r < den], and the result is [m * 2 ^ e] where [m] is [f] or
    [f + 1], whichever is nearer. *)
Lemma round_to_pos (prec emin n : Z) (d : positive) :
  (0 < n)%Z ->
  let e := Z.max (log2_ratio n (Zpos d) - (prec - 1)) emin in
  exists f r den m : Z,
    (0 < den)%Z /\ (0 <= r < den)%Z
    /\ inject_Z (den * f + r) * pow2 e == (n # d) * inject_Z den
    /\ ((m = f /\ 2 * r <= den) \/ (m = f + 1 /\ den <= 2 * r))%Z
    /\ round_to prec emin (n # d) == inject_Z m * pow2 e.
Proof.
  intros Hn e. unfold round_to, round_with. cbn [Qnum Qden]. cbv zeta.
  rewrite (Z.abs_eq n) by lia.
  destruct (Z.eqb_spec n 0) as [Z0|_]; [lia|].
  fold e.
  replace (n <? 0)%Z with false by (symmetry; apply Z.ltb_ge; lia).
  assert (Hm : forall f r den : Z,
             let m := if (2 * r <? den)%Z then f
                      else if (den <? 2 * r)%Z then (f + 1)%Z
                      else if Z.even f then f else (f + 1)%Z in
             ((m = f /\ 2 * r <= den) \/ (m = f + 1 /\ den <= 2 * r))%Z).
  { intros f r den. cbv zeta.
    destruct (Z.ltb_spec (2 * r) den); [left; lia|].
    destruct (Z.ltb_spec den (2 * r)); [right; lia|].
    destruct (Z.even f); [left | right]; lia. }
  destruct (Z.ltb_spec e 0) as [En|Ep].
  - pose proof (Z_div_mod (Z.shiftl n (- e)) (Zpos d) ltac:(reflexivity)) as DM.
    destruct (Z.div_eucl (Z.shiftl n (- e)) (Zpos d)) as [f r].
    destruct DM as [Eq Hr].
    exists f, r, (Zpos d). eexists. split; [reflexivity|]. split; [exact Hr|].
    split; [|split; [apply Hm|]].
    + rewrite <- Eq, Z.shiftl_mul_pow2, inject_Z_mult by lia.
      rewrite Qmake_mult_den.
      pose proof (pow2_neg_exp (- e) ltac:(lia)) as E.
      replace (- - e)%Z with e in E by lia.
      rewrite <- Qmult_assoc, (Qmult_comm (inject_Z (2 ^ (- e)))), E. ring.
    + rewrite Qmake_pow2 by lia. replace (- - e)%Z with e by lia. reflexivity.
  - assert (Dp : (0 < Z.shiftl (Zpos d) e)%Z).
    { rewrite Z.shiftl_mul_pow2 by exact Ep.
      apply Z.mul_pos_pos; [reflexivity | now apply Z.pow_pos_nonneg]. }
    pose proof (Z_div_mod n (Z.shiftl (Zpos d) e) ltac:(lia)) as DM.
    destruct (Z.div_eucl n (Z.shiftl (Zpos d) e)) as [f r].
    destruct DM as [Eq Hr].
    exists f, r, (Z.shiftl (Zpos d) e). eexists. split; [exact Dp|].
    split; [exact Hr|]. split; [|split; [apply Hm|]].
    + rewrite <- Eq, Z.shiftl_mul_pow2, inject_Z_mult by lia.
      rewrite pow2_nonneg_exp by exact Ep.
      rewrite Qmult_assoc, Qmake_mult_den. reflexivity.
    + rewrite Z.shiftl_mul_pow2, inject_Z_mult, pow2_nonneg_exp by exact Ep.
      reflexivity.
Qed.

Lemma pow2_le (a b : Z) : (a <= b)%Z -> pow2 a <= pow2 b.
Proof.
  intros H. replace b with (a + (b - a))%Z by lia. rewrite pow2_add.
  assert (1 <= pow2 (b - a)).
  { rewrite pow2_nonneg_exp by lia. change 1 with (inject_Z 1).
    rewrite <- Zle_Qle. assert (0 < 2 ^ (b - a))%Z by (apply Z.pow_pos_nonneg; lia). lia. }
  pose proof (pow2_pos a). set (x := pow2 a) in *. set (y := pow2 (b - a)) in *.
  clearbody x y. nra.
Qed.

(** Rounding a non-negative value never goes below a representable value
    that is at most that value. *)
Lemma round_to_lower (prec emin : Z) (q : Q) (m0 e0 : Z) :
  (0 < prec)%Z -> (Z.abs m0 < 2 ^ prec)%Z -> (emin <= e0)%Z ->
  0 <= q ->
  inject_Z m0 * pow2 e0 <= q ->
  inject_Z m0 * pow2 e0 <= round_to prec emin q.
Proof.
  intros Hp Hm He Hq Hle. destruct q as [n d].
  assert (Hn : (0 <= n)%Z).
  { unfold Qle in Hq. cbn [Qnum Qden] in Hq. lia. }
  destruct (Z.eq_dec n 0) as [->|Hnz].
  { unfold round_to, round_with. cbn [Qnum Qden Z.abs Z.eqb].
    eapply Qle_trans; [exact Hle|]. unfold Qle. cbn. lia. }
  destruct (round_to_pos prec emin n d ltac:(lia))
    as (f & r & den & m & Hden & Hr & Eq & Hmf & Er).
  cbv zeta in Eq, Er. rewrite Er.
  set (L := log2_ratio n (Zpos d)) in *.
  set (e := Z.max (L - (prec - 1)) emin) in *.
  pose proof (pow2_pos e) as Pe. pose proof (pow2_pos e0) as Pe0.
  assert (Dq : 0 < inject_Z den) by (change 0 with (inject_Z 0); now rewrite <- Zlt_Qlt).
  assert (Hfm : inject_Z f <= inject_Z m) by (rewrite <- Zle_Qle; lia).
  destruct (Z.le_gt_cases e e0) as [C|C].
  - (* the value is a multiple of the unit in the last place *)
    set (k := (m0 * 2 ^ (e0 - e))%Z).
    assert (Hk : inject_Z m0 * pow2 e0 == inject_Z k * pow2 e).
    { unfold k. rewrite inject_Z_mult, <- pow2_nonneg_exp by lia.
      replace e0 with ((e0 - e) + e)%Z at 1 by lia. rewrite pow2_add. ring. }
    rewrite Hk in *.
    assert (Hkf : (k <= f)%Z).
    { assert (T : inject_Z (k * den) <= inject_Z (den * f + r)).
      { assert (T1 : inject_Z k * pow2 e * inject_Z den <= (n # d) * inject_Z den)
          by (apply Qmult_le_compat_r; [exact Hle | now apply Qlt_le_weak]).
        rewrite <- Eq in T1. rewrite inject_Z_mult.
        set (K := inject_Z k) in *. set (D := inject_Z den) in *.
        set (X := inject_Z (den * f + r)) in *. set (E := pow2 e) in *.
        clearbody K D X E. nra. }
      apply inject_Z_le_inv in T. nia. }
    assert (inject_Z k <= inject_Z m) by (rewrite <- Zle_Qle; lia).
    set (K := inject_Z k) in *. set (M := inject_Z m) in *. set (E := pow2 e) in *.
    clearbody K M E. nra.
  - (* the value is below the binade of [q] *)
    assert (Ee : e = (L - (prec - 1))%Z) by (unfold e; lia).
    pose proof (log2_ratio_lower_Q n (Zpos d) ltac:(lia) ltac:(reflexivity)) as LB.
    fold L in LB.
    assert (Hf : (2 ^ (prec - 1) <= f)%Z).
    { assert (T : inject_Z (2 ^ (prec - 1) * den) <= inject_Z (den * f + r)).
      { rewrite inject_Z_mult, <- pow2_nonneg_exp by lia.
        pose proof (Qmake_mult_den n d) as Mq.
        assert (PL : pow2 L == pow2 (prec - 1) * pow2 e).
        { rewrite <- pow2_add. replace (prec - 1 + e)%Z with L by lia. reflexivity. }
        rewrite PL in LB.
        assert (Dd : 0 < inject_Z (Zpos d)) by reflexivity.
        set (Q0 := (n # d)) in *. set (D := inject_Z den) in *.
        set (X := inject_Z (den * f + r)) in *. set (E := pow2 e) in *.
        set (P := pow2 (prec - 1)) in *. set (Dz := inject_Z (Zpos d)) in *.
        set (N := inject_Z n) in *.
        clearbody Q0 D X E P Dz N.
        assert (T1 : P * E <= Q0).
        { rewrite <- Mq in LB. nra. }
        assert (T2 : P * E * D <= X * E) by (rewrite Eq; nra).
        nra. }
      apply inject_Z_le_inv in T. nia. }
    assert (B1 : inject_Z m0 < pow2 prec).
    { rewrite pow2_nonneg_exp by lia. rewrite <- Zlt_Qlt. lia. }
    assert (B2 : pow2 e0 <= pow2 (e - 1)) by (apply pow2_le; lia).
    assert (B3 : pow2 prec * pow2 (e - 1) == pow2 (prec - 1) * pow2 e).
    { rewrite <- !pow2_add. replace (prec + (e - 1))%Z with (prec - 1 + e)%Z by lia.
      reflexivity. }
    assert (B4 : pow2 (prec - 1) <= inject_Z f).
    { rewrite pow2_nonneg_exp by lia. now rewrite <- Zle_Qle. }
    pose proof (pow2_pos (e - 1)) as Pe1. pose proof (pow2_pos prec) as Pp.
    pose proof (pow2_pos (prec - 1)) as Pp1.
    set (M0 := inject_Z m0) in *. set (M := inject_Z m) in *.
    set (F := inject_Z f) in *. set (E := pow2 e) in *. set (E0 := pow2 e0) in *.
    set (E1 := pow2 (e - 1)) in *. set (P := pow2 prec) in *.
    set (P1 := pow2 (prec - 1)) in *.
    clearbody M0 M F E E0 E1 P P1.
    destruct (Qlt_le_dec M0 0) as [Neg|Pos]; [nra|].
    assert (M0 * E0 <= P * E1) by nra.
    nra.
Qed.

(** The rounding of a non-negative value is representable. *)
Lemma round_to_representable (prec emin : Z) (q : Q) :
  (0 < prec)%Z -> 0 <= q ->
  exists m e : Z,
    (Z.abs m < 2 ^ prec)%Z /\ (emin <= e)%Z
    /\ round_to prec emin q == inject_Z m * pow2 e.
Proof.
  intros Hp Hq. destruct q as [n d].
  assert (Hn : (0 <= n)%Z).
  { unfold Qle in Hq. cbn [Qnum Qden] in Hq. lia. }
  assert (P2 : (0 < 2 ^ prec)%Z) by (apply Z.pow_pos_nonneg; lia).
  destruct (Z.eq_dec n 0) as [->|Hnz].
  { exists 0%Z, emin. split; [cbn; lia|]. split; [lia|].
    unfold round_to, round_with. cbn [Qnum Qden Z.abs Z.eqb]. ring. }
  destruct (round_to_pos prec emin n d ltac:(lia))
    as (f & r & den & m & Hden & Hr & Eq & Hmf & Er).
  cbv zeta in Eq, Er.
  set (L := log2_ratio n (Zpos d)) in *.
  set (e := Z.max (L - (prec - 1)) emin) in *.
  pose proof (pow2_pos e) as Pe.
  assert (Dq : 0 < inject_Z den) by (change 0 with (inject_Z 0); now rewrite <- Zlt_Qlt).
  (* 0 <= f < 2 ^ prec *)
  assert (Hf0 : (0 <= f)%Z).
  { assert (T : 0 < inject_Z (den * f + r)).
    { assert (T1 : 0 < (n # d) * inject_Z den).
      { apply Qmult_lt_0_compat; [|exact Dq]. unfold Qlt. cbn. lia. }
      rewrite <- Eq in T1.
      set (X := inject_Z (den * f + r)) in *. set (E := pow2 e) in *.
      clearbody X E. nra. }
    change 0 with (inject_Z 0) in T. apply inject_Z_lt_inv in T. nia. }
  assert (Hf1 : (f < 2 ^ prec)%Z).
  { assert (T : inject_Z (den * f + r) < inject_Z (2 ^ prec * den)).
    { pose proof (log2_ratio_upper_Q n (Zpos d) ltac:(lia) ltac:(reflexivity)) as UB.
      fold L in UB.
      assert (PL : pow2 (L + 1) <= pow2 prec * pow2 e).
      { rewrite <- pow2_add. apply pow2_le. unfold e. lia. }
      rewrite inject_Z_mult, <- pow2_nonneg_exp by lia.
      pose proof (Qmake_mult_den n d) as Mq.
      assert (Dd : 0 < inject_Z (Zpos d)) by reflexivity.
      set (Q0 := (n # d)) in *. set (D := inject_Z den) in *.
      set (X := inject_Z (den * f + r)) in *. set (E := pow2 e) in *.
      set (P := pow2 prec) in *. set (Dz := inject_Z (Zpos d)) in *.
      set (N := inject_Z n) in *. set (PL1 := pow2 (L + 1)) in *.
      clearbody Q0 D X E P Dz N PL1.
      assert (T1 : Q0 < P * E).
      { rewrite <- Mq in UB. nra. }
      assert (T2 : X * E < P * E * D) by (rewrite Eq; nra).
      nra. }
    apply inject_Z_lt_inv in T. nia. }
  destruct (Z.eq_dec m (2 ^ prec)) as [Top|NTop].
  - exists (2 ^ (prec - 1))%Z, (e + 1)%Z.
    assert (0 < 2 ^ (prec - 1))%Z by (apply Z.pow_pos_nonneg; lia).
    split; [|split; [unfold e; lia|]].
    + rewrite Z.abs_eq by lia. apply Z.pow_lt_mono_r; lia.
    + rewrite Er, Top, <- !pow2_nonneg_exp, <- !pow2_add by lia.
      replace (prec - 1 + (e + 1))%Z with (prec + e)%Z by lia. reflexivity.
  - exists m, e. split; [lia|]. split; [unfold e; lia | exact Er].
Qed.

(** The error of a rounding in the normal range is at most half a unit in
    the last place, hence at most [q * 2 ^ (- prec)]. *)
Lemma round_to_error (prec emin : Z) (q : Q) :
  (0 < prec)%Z -> pow2 (emin + (prec - 1)) <= q ->
  q - q * pow2 (- prec) <= round_to prec emin q
  /\ round_to prec emin q <= q + q * pow2 (- prec).
Proof.
  intros Hp Hq. destruct q as [n d].
  pose proof (pow2_pos (emin + (prec - 1))) as P0.
  assert (Hn : (0 < n)%Z).
  { assert (T : 0 < n # d) by (eapply Qlt_le_trans; eassumption).
    unfold Qlt in T. cbn [Qnum Qden] in T. lia. }
  destruct (round_to_pos prec emin n d Hn)
    as (f & r & den & m & Hden & Hr & Eq & Hmf & Er).
  cbv zeta in Eq, Er. rewrite Er.
  set (L := log2_ratio n (Zpos d)) in *.
  set (e := Z.max (L - (prec - 1)) emin) in *.
  pose proof (log2_ratio_upper_Q n (Zpos d) Hn ltac:(reflexivity)) as UB.
  pose proof (log2_ratio_lower_Q n (Zpos d) Hn ltac:(reflexivity)) as LB.
  fold L in UB, LB.
  pose proof (Qmake_mult_den n d) as Mq.
  assert (Dd : 0 < inject_Z (Zpos d)) by reflexivity.
  assert (HL : (emin + (prec - 1) <= L)%Z).
  { assert (T : pow2 (emin + (prec - 1)) < pow2 (L + 1)).
    { set (Q0 := (n # d)) in *. set (Dz := inject_Z (Zpos d)) in *.
      set (N := inject_Z n) in *. set (A := pow2 (emin + (prec - 1))) in *.
      set (B := pow2 (L + 1)) in *. clearbody Q0 Dz N A B.
      rewrite <- Mq in UB. nra. }
    apply pow2_lt_inv in T. lia. }
  assert (Ee : e = (L - (prec - 1))%Z) by (unfold e; lia).
  assert (PL : pow2 L == pow2 prec * pow2 (e - 1)).
  { rewrite <- pow2_add.
    replace (prec + (e - 1))%Z with L by lia. reflexivity. }
  assert (PE : pow2 e == 2 * pow2 (e - 1)).
  { change 2 with (pow2 1). rewrite <- pow2_add.
    replace (1 + (e - 1))%Z with e by lia. reflexivity. }
  pose proof (pow2_opp_mul prec) as PP.
  pose proof (pow2_pos prec) as Pp. pose proof (pow2_pos (- prec)) as Pnp.
  pose proof (pow2_pos (e - 1)) as Pe1.
  assert (Dq : 0 < inject_Z den) by (change 0 with (inject_Z 0); now rewrite <- Zlt_Qlt).
  assert (Hr1 : 0 <= inject_Z r) by (change 0 with (inject_Z 0); rewrite <- Zle_Qle; lia).
  assert (Hx : inject_Z (den * f + r) == inject_Z den * inject_Z f + inject_Z r)
    by (rewrite inject_Z_plus, inject_Z_mult; reflexivity).
  rewrite Hx in Eq. rewrite PL in LB. rewrite PE in Eq. rewrite PE.
  (* half a unit in the last place is at most q * 2 ^ (- prec) *)
  assert (Hh : pow2 (e - 1) <= (n # d) * pow2 (- prec)).
  { set (Q0 := (n # d)) in *. set (Dz := inject_Z (Zpos d)) in *.
    set (N := inject_Z n) in *. set (H := pow2 (e - 1)) in *.
    set (P := pow2 prec) in *. set (Pn := pow2 (- prec)) in *.
    clearbody Q0 Dz N H P Pn.
    assert (T1 : P * H <= Q0) by (rewrite <- Mq in LB; nra).
    assert (T2 : Pn * (P * H) <= Pn * Q0) by nra.
    assert (T3 : Pn * (P * H) == H).
    { transitivity (H * (Pn * P)); [ring|]. rewrite PP. ring. }
    rewrite T3 in T2. nra. }
  destruct Hmf as [[-> H2]|[-> H2]].
  - assert (T : 2 * inject_Z r <= inject_Z den).
    { change 2 with (inject_Z 2). rewrite <- inject_Z_mult, <- Zle_Qle. lia. }
    set (Q0 := (n # d)) in *. set (D := inject_Z den) in *.
    set (F := inject_Z f) in *. set (R := inject_Z r) in *.
    set (H := pow2 (e - 1)) in *. set (B := Q0 * pow2 (- prec)) in *.
    clearbody Q0 D F R H B.
    assert (K : (Q0 - F * (2 * H)) * D == R * (2 * H)).
    { transitivity (Q0 * D - D * F * (2 * H)); [ring|]. rewrite <- Eq. ring. }
    split.
    + assert ((Q0 - F * (2 * H)) * D <= H * D) by (rewrite K; nra). nra.
    + assert (0 <= (Q0 - F * (2 * H)) * D) by (rewrite K; nra). nra.
  - assert (T : inject_Z den <= 2 * inject_Z r).
    { change 2 with (inject_Z 2). rewrite <- inject_Z_mult, <- Zle_Qle. lia. }
    assert (T' : inject_Z r < inject_Z den) by (rewrite <- Zlt_Qlt; lia).
    rewrite inject_Z_plus. change (inject_Z 1) with 1.
    set (Q0 := (n # d)) in *. set (D := inject_Z den) in *.
    set (F := inject_Z f) in *. set (R := inject_Z r) in *.
    set (H := pow2 (e - 1)) in *. set (B := Q0 * pow2 (- prec)) in *.
    clearbody Q0 D F R H B.
    assert (K : ((F + 1) * (2 * H) - Q0) * D == (D - R) * (2 * H)).
    { transitivity ((D * F + D) * (2 * H) - Q0 * D); [ring|]. rewrite <- Eq. ring. }
    split.
    + assert (0 <= ((F + 1) * (2 * H) - Q0) * D) by (rewrite K; nra). nra.
    + assert (((F + 1) * (2 * H) - Q0) * D <= H * D) by (rewrite K; nra). nra.
Qed.
(** ** Playback scheduler: the claims *)

Open Scope Q_scope.

Lemma is_double_0 : is_double 0.
Proof. exists 0%Z, 0%Z. split; [reflexivity | split; [lia | reflexivity]]. Qed.

Lemma to_double_lower (q f : Q) :
  0 <= q -> is_double f -> f <= q -> f <= to_double q.
Proof.
  intros Hq (m & e & Hm & He & Hf) Hle. rewrite Hf in *.
  now apply round_to_lower.
Qed.

Lemma to_double_nonneg (q : Q) : 0 <= q -> 0 <= to_double q.
Proof. intros H. apply to_double_lower; [exact H | apply is_double_0 | exact H]. Qed.

Lemma to_double_is_double (q : Q) : 0 <= q -> is_double (to_double q).
Proof. intros H. now apply round_to_representable. Qed.

Lemma length_over_rate_nonneg (n : nat) : 0 <= inject_Z (Z.of_nat n) / sampleRate.
Proof.
  unfold sampleRate, Qdiv. change (/ 24000) with (1 # 24000).
  assert (H : inject_Z 0 <= inject_Z (Z.of_nat n)) by (rewrite <- Zle_Qle; lia).
  change (inject_Z 0) with 0 in H. lra.
Qed.

Lemma duration_nonneg (n : SourceNode) : 0 <= duration n.
Proof. apply to_double_nonneg, length_over_rate_nonneg. Qed.

(** A buffer holds at least one sample, so it lasts at least 2^-15 s. *)
Lemma duration_lower (n : SourceNode) :
  channelData n <> [] -> pow2 (-15) <= duration n.
Proof.
  intros H. unfold duration.
  assert (L : (1 <= Z.of_nat (List.length (channelData n)))%Z)
    by (destruct (channelData n); [congruence | cbn [List.length]; lia]).
  assert (H1 : inject_Z 1 <= inject_Z (Z.of_nat (List.length (channelData n))))
    by now rewrite <- Zle_Qle.
  change (inject_Z 1) with 1 in H1.
  assert (E : pow2 (-15) == inject_Z 1 * pow2 (-15)) by (change (inject_Z 1) with 1; ring).
  rewrite E. apply round_to_lower; try lia.
  - apply length_over_rate_nonneg.
  - unfold sampleRate, Qdiv. change (/ 24000) with (1 # 24000).
    change (inject_Z 1 * pow2 (-15)) with (1 * (1 # 32768)). lra.
Qed.

(** The double sum [startTime + duration] is within a relative error of
    2^-53 of the exact sum. *)
Lemma scheduled_end_error (n : SourceNode) :
  0 <= startTime n -> channelData n <> [] ->
  let x := startTime n + duration n in
  x - x * pow2 (-53) <= scheduled_end n /\ scheduled_end n <= x + x * pow2 (-53).
Proof.
  intros Hs Hne x. apply (round_to_error 53 (-1074)); [lia|].
  pose proof (duration_lower n Hne) as Hd.
  assert (P : pow2 (-1074 + (53 - 1)) <= pow2 (-15)) by (apply pow2_le; lia).
  subst x. lra.
Qed.

(** What one call of [playAudioChunk] does to the page: nothing to the
    schedule, or one more source at the end of the store and of the queue. *)
Lemma playAudioChunk_step (pf : Platform) (t : Q) (b : string) (p : Page) :
  let p' := playAudioChunk pf t b p in
  (nodes p' = nodes p
   /\ audioQueueRef p' = audioQueueRef p
   /\ nextStartTimeRef p' = nextStartTimeRef p)
  \/ (exists samples,
         (float32 <- decode_chunk pf b ;; createBuffer float32) = Returned samples
         /\ let src := {| channelData := samples;
                          startTime := Qmax t (nextStartTimeRef p);
                          stopped := false |} in
            nodes p' = (nodes p ++ [src])%list
            /\ audioQueueRef p' = (audioQueueRef p ++ [List.length (nodes p)])%list
            /\ nextStartTimeRef p' = scheduled_end src).
Proof.
  unfold playAudioChunk. destruct (audioContextRef p) as [ctx|];
    [|left; repeat split].
  destruct (bind _ _) as [samples|e] eqn:E; [|left; repeat split].
  right. exists samples. repeat split.
Qed.

Lemma createBuffer_nonempty (float32 buffer : list Q) :
  createBuffer float32 = Returned buffer -> buffer <> [].
Proof. destruct float32; [discriminate|]. intros [= <-]. discriminate. Qed.

Lemma playable_nonempty (pf : Platform) (chunks : list (Q * string)) :
  Forall (fun c => snd c <> []) (playable pf chunks).
Proof.
  unfold playable. induction chunks as [|c chunks IH]; [constructor|].
  cbn [flat_map]. apply Forall_app. split; [|exact IH].
  destruct (decode_chunk pf (snd c)) as [float32|e]; cbn [bind]; [|constructor].
  destruct (createBuffer float32) as [buffer|e] eqn:E; [|constructor].
  constructor; [|constructor]. apply (createBuffer_nonempty _ _ E).
Qed.

(** A run of chunks on a page with an audio context adds one source per
    playable chunk, in order, each started at or after the cursor it found
    and at or after the clock reading of its call. *)
Lemma play_all_chained (pf : Platform) (chunks : list (Q * string)) : forall p,
  audioContextRef p <> None ->
  exists added,
    nodes (play_all pf chunks p) = (nodes p ++ added)%list
    /\ Forall2 (fun n c => channelData n = snd c /\ fst c <= startTime n)
               added (playable pf chunks)
    /\ chained (nextStartTimeRef p) added (nextStartTimeRef (play_all pf chunks p)).
Proof.
  induction chunks as [|[t b] chunks IH]; intros p Hctx.
  - exists []. split; [now rewrite app_nil_r|]. split; [constructor | reflexivity].
  - unfold play_all, playable in *. cbn [fold_left flat_map fst snd].
    destruct (audioContextRef p) as [ctx|] eqn:Ectx; [|congruence].
    assert (Hctx' : audioContextRef (playAudioChunk pf t b p) <> None).
    { unfold playAudioChunk. rewrite Ectx. now destruct (bind _ _). }
    destruct (IH (playAudioChunk pf t b p) Hctx') as (added & Hn & Hf & Hc).
    revert Hn Hf Hc. unfold playAudioChunk. rewrite Ectx.
    destruct (bind (decode_chunk pf b) _) as [samples|e];
      cbn [nodes nextStartTimeRef app]; intros Hn Hf Hc.
    + eexists (_ :: added). rewrite Hn, <- app_assoc.
      split; [reflexivity|]. split.
      * constructor; [|exact Hf]. cbn [channelData startTime fst snd].
        split; [reflexivity | apply Q.le_max_l].
      * cbn [chained startTime]. split; [apply Q.le_max_r | exact Hc].
    + exists added. now repeat split.
Qed.

Lemma chained_bounds (l : list SourceNode) : forall cursor final,
  0 <= cursor -> is_double cursor ->
  chained cursor l final ->
  in_sequence l
  /\ Forall (fun n => cursor <= startTime n) l
  /\ cursor <= final
  /\ 0 <= final
  /\ is_double final.
Proof.
  induction l as [|n r IH]; intros cursor final H0 Hd H; cbn [chained] in H.
  - subst. repeat split; [constructor | apply Qle_refl | exact H0 | exact Hd].
  - destruct H as [Hs Hr].
    pose proof (duration_nonneg n) as Hdur.
    assert (Hx : 0 <= startTime n + duration n) by lra.
    assert (He : cursor <= scheduled_end n)
      by (apply to_double_lower; [exact Hx | exact Hd | lra]).
    destruct (IH (scheduled_end n) final) as (Ho & Hf & Hl & Hl0 & Hld);
      [now apply to_double_nonneg | now apply to_double_is_double | exact Hr |].
    repeat split; try assumption.
    + destruct r as [|m r']; [exact I|]. split; [|exact Ho].
      now inversion Hf.
    + constructor; [exact Hs|].
      eapply Forall_impl; [|exact Hf]. cbv beta. intros m Hm. lra.
    + lra.
Qed.

Lemma in_sequence_nth (l : list SourceNode) : forall i a b,
  in_sequence l ->
  nth_error l i = Some a -> nth_error l (S i) = Some b ->
  scheduled_end a <= startTime b.
Proof.
  induction l as [|x [|y r] IH]; intros i a b H Ha Hb.
  - destruct i; discriminate.
  - destruct i as [|[|i]]; discriminate.
  - destruct H as [Hxy Hr]. destruct i as [|i].
    + injection Ha as <-. injection Hb as <-. exact Hxy.
    + apply (IH i a b Hr Ha Hb).
Qed.

(** C4 (as stated, refuted): two chunks of two samples each, both handed
    to the scheduler at clock 1/2.  The first starts at 1/2 and lasts
    fl(2/24000); the cursor becomes the double sum of the two, which lies
    below the exact sum, and the second chunk starts at that cursor:
    start[1] < start[0] + d[0]. *)
Lemma second_start_below_exact_end :
  let p := play_all browser [(1 # 2, "QUJDRA=="); (1 # 2, "QUJDRA==")]
             page_started in
  map startTime (nodes p) = [1 # 2; 4504350227308391 # 9007199254740992]
  /\ map duration (nodes p)
     = [6148914691236517 # 73786976294838206464;
        6148914691236517 # 73786976294838206464]
  /\ (4504350227308391 # 9007199254740992)
     < (1 # 2) + (6148914691236517 # 73786976294838206464).
Proof. cbv zeta. split; [|split]; vm_compute; reflexivity. Qed.

(** C4 (amended): a chunk that decodes to a non-empty buffer is started at
    max(currentTime, cursor), its duration is the double quotient of its
    length by 24000, and the cursor moves to the double sum start +
    duration.  Over any run of chunks with no barge-in in between, from a
    page whose cursor is a non-negative double, the sources added are the
    playable chunks in order; none starts before the clock reading of its
    call or before the cursor the run began with; each next source starts
    at or after the double sum start + duration of the previous one, which
    is within a relative error of 2^-53 of the exact sum; and the cursor
    never moves back. *)
Theorem playback_schedule_in_doubles (pf : Platform) :
  (forall (t : Q) (b : string) (p : Page) ctx samples,
      audioContextRef p = Some ctx ->
      decode_chunk pf b = Returned samples ->
      samples <> [] ->
      let p' := playAudioChunk pf t b p in
      let src := {| channelData := samples;
                    startTime := Qmax t (nextStartTimeRef p);
                    stopped := false |} in
      nodes p' = (nodes p ++ [src])%list
      /\ t <= startTime src
      /\ nextStartTimeRef p <= startTime src
      /\ duration src
         = to_double (inject_Z (Z.of_nat (List.length samples)) / 24000)
      /\ nextStartTimeRef p' = to_double (startTime src + duration src))
  /\ (forall (chunks : list (Q * string)) (p : Page),
         audioContextRef p <> None ->
         0 <= nextStartTimeRef p ->
         is_double (nextStartTimeRef p) ->
         let p' := play_all pf chunks p in
         exists added,
           nodes p' = (nodes p ++ added)%list
           /\ Forall2 (fun n c => channelData n = snd c /\ fst c <= startTime n)
                      added (playable pf chunks)
           /\ (forall i a b,
                  nth_error added i = Some a ->
                  nth_error added (S i) = Some b ->
                  to_double (startTime a + duration a) <= startTime b
                  /\ (startTime a + duration a)
                     - (startTime a + duration a) * pow2 (-53) <= startTime b)
           /\ Forall (fun n => nextStartTimeRef p <= startTime n) added
           /\ nextStartTimeRef p <= nextStartTimeRef p'
           /\ is_double (nextStartTimeRef p')).
Proof.
  split.
  - intros t b p ctx samples Hctx Hd Hne p' src. subst p' src.
    unfold playAudioChunk. rewrite Hctx, Hd. cbn [bind].
    destruct samples as [|x xs]; [congruence|]. cbn [createBuffer startTime].
    repeat split; [apply Q.le_max_l | apply Q.le_max_r].
  - intros chunks p Hctx H0 Hdbl p'. subst p'.
    destruct (play_all_chained pf chunks p Hctx) as (added & Hn & Hf2 & Hc).
    destruct (chained_bounds _ _ _ H0 Hdbl Hc) as (Ho & Hf & Hl & _ & Hld).
    exists added. repeat split; try assumption.
    + now apply (in_sequence_nth added i).
    + pose proof (in_sequence_nth added i a b Ho H H1) as Hseq.
      assert (Ha : In a added) by (eapply nth_error_In; eassumption).
      assert (Hs : 0 <= startTime a).
      { rewrite Forall_forall in Hf. specialize (Hf a Ha). cbv beta in Hf. lra. }
      assert (Hne : channelData a <> []).
      { pose proof (playable_nonempty pf chunks) as Hp.
        clear - Hf2 Hp Ha. induction Hf2 as [|n c l l' [E _] _ IH]; [destruct Ha|].
        inversion Hp as [|? ? Hc Hp']; subst.
        destruct Ha as [<-|Ha]; [now rewrite E | now apply IH]. }
      destruct (scheduled_end_error a Hs Hne) as [Hlow _]. cbv zeta in Hlow.
      unfold scheduled_end in *. lra.
Qed.

Lemma playback_schedule_in_doubles_witness :
  let chunks := [(1 # 2, "QUJDRA=="); (1 # 2, "?"); (3 # 4, "QUJD");
                 (3 # 4, "QUJDRA==")] in
  let p' := play_all browser chunks page_started in
  exists added,
    nodes p' = (nodes page_started ++ added)%list
    /\ Forall2 (fun n c => channelData n = snd c /\ fst c <= startTime n)
               added (playable browser chunks)
    /\ (forall i a b,
           nth_error added i = Some a ->
           nth_error added (S i) = Some b ->
           to_double (startTime a + duration a) <= startTime b
           /\ (startTime a + duration a)
              - (startTime a + duration a) * pow2 (-53) <= startTime b)
    /\ Forall (fun n => nextStartTimeRef page_started <= startTime n) added
    /\ nextStartTimeRef page_started <= nextStartTimeRef p'
    /\ is_double (nextStartTimeRef p').
Proof.
  cbv zeta.
  apply (proj2 (playback_schedule_in_doubles browser)
               [(1 # 2, "QUJDRA=="); (1 # 2, "?"); (3 # 4, "QUJD");
                (3 # 4, "QUJDRA==")]
               page_started).
  - discriminate.
  - apply Qle_refl.
  - exists 0%Z, 0%Z. split; [reflexivity | split; [lia | reflexivity]].
Defined.

(** ** Barge-in: the claims *)

Lemma stop_node_nth (store : list SourceNode) : forall ref i,
  nth_error (stop_node store ref) i
  = if Nat.eqb i ref then option_map mark_stopped (nth_error store i)
    else nth_error store i.
Proof.
  induction store as [|n r IH]; intros [|ref] [|i]; cbn; try reflexivity.
  - now destruct (Nat.eqb i ref).
  - apply IH.
Qed.

Lemma stop_all_nth (refs : list nat) : forall store i n,
  nth_error store i = Some n ->
  exists n', nth_error (fold_left stop_node refs store) i = Some n'
             /\ (stopped n = true \/ In i refs -> stopped n' = true).
Proof.
  induction refs as [|ref refs IH]; intros store i n H; cbn [fold_left].
  - exists n. split; [exact H|]. intros [S|[]]. exact S.
  - pose proof (stop_node_nth store ref i) as E. rewrite H in E.
    destruct (Nat.eqb_spec i ref) as [->|Hne]; cbn [option_map] in E.
    + destruct (IH _ _ _ E) as (n' & Hn' & Hs). exists n'. split; [exact Hn'|].
      intros _. apply Hs. left. reflexivity.
    + destruct (IH _ _ _ E) as (n' & Hn' & Hs). exists n'. split; [exact Hn'|].
      intros [S|[Heq|Hin]]; [apply Hs; now left | congruence | apply Hs; now right].
Qed.

Lemma stop_all_length (refs : list nat) : forall store,
  List.length (fold_left stop_node refs store) = List.length store.
Proof.
  assert (L : forall store ref,
             List.length (stop_node store ref) = List.length store).
  { induction store as [|n r IH]; intros [|ref]; cbn; auto. }
  induction refs as [|ref refs IH]; intros store; cbn [fold_left];
    [reflexivity|]. now rewrite IH, L.
Qed.

Lemma handleServerMessage_speech_started pf currentTime data msg p :
  JSON_parse pf data = Some msg ->
  prop msg "type" = Some (JStr "input_audio_buffer.speech_started") ->
  handleServerMessage pf currentTime data p = stopAudioPlayback p.
Proof.
  intros Hp Ht. unfold handleServerMessage, parse. rewrite Hp. cbn [bind].
  rewrite (prop_type_get_prop _ _ _ Ht), Ht. reflexivity.
Qed.

(** C3 (as stated, refuted): a chunk is scheduled at clock 5, the
    speech-started signal arrives at clock 6 and the next chunk at clock 9.
    The signal leaves the cursor at 0, not at 6, and the next start time is
    9, the clock when that chunk is scheduled. *)
Lemma barge_in_cursor_is_zero :
  let p1 := handleServerMessage browser 5 (audio_delta_frame "QUJD") page_started in
  let p2 := handleServerMessage browser 6
              (frame_of_type "input_audio_buffer.speech_started") p1 in
  let p3 := handleServerMessage browser 9 (audio_delta_frame "QUJD") p2 in
  nextStartTimeRef p1 = to_double (Qmax 5 0 + to_double (2 / 24000))
  /\ nextStartTimeRef p2 = 0
  /\ ~ nextStartTimeRef p2 == 6
  /\ map startTime (nodes p3) = [Qmax 5 0; Qmax 9 0]
  /\ ~ Qmax 9 0 == 6.
Proof.
  cbv zeta. repeat split; try reflexivity; intros H; discriminate H.
Qed.

(** C3 (amended): on a speech-started signal every source the queue
    references is stopped (on a page whose queue covers the unstopped
    sources, every source there is), the queue is emptied and the cursor is
    reset to 0, so that the next scheduled start time equals the engine
    clock at the moment that next chunk is scheduled, not a stale cursor. *)
Theorem barge_in_stops_and_resets
    (pf : Platform) (currentTime : Q) (data : string) (msg : json) (p : Page) :
  JSON_parse pf data = Some msg ->
  prop msg "type" = Some (JStr "input_audio_buffer.speech_started") ->
  audioContextRef p <> None ->
  let p' := handleServerMessage pf currentTime data p in
  (forall ref n,
      In ref (audioQueueRef p) -> nth_error (nodes p) ref = Some n ->
      exists n', nth_error (nodes p') ref = Some n' /\ stopped n' = true)
  /\ (queue_covers p -> Forall (fun n => stopped n = true) (nodes p'))
  /\ audioQueueRef p' = []
  /\ nextStartTimeRef p' = 0
  /\ (forall t b src,
         0 <= t ->
         nodes (playAudioChunk pf t b p') = (nodes p' ++ [src])%list ->
         startTime src == t).
Proof.
  intros Hp Ht Hctx p'. subst p'.
  rewrite (handleServerMessage_speech_started _ _ _ _ _ Hp Ht).
  unfold stopAudioPlayback. destruct (audioContextRef p) as [ctx|]; [|congruence].
  cbn [nodes audioQueueRef nextStartTimeRef]. repeat split.
  - intros ref n Hin Hn.
    destruct (stop_all_nth (audioQueueRef p) _ _ _ Hn) as (n' & Hn' & Hs).
    exists n'. split; [exact Hn'|]. apply Hs. now right.
  - intros Hcov. apply Forall_forall. intros n' Hin.
    apply In_nth_error in Hin as [i Hi].
    assert (Hlt : (i < List.length (nodes p))%nat).
    { rewrite <- (stop_all_length (audioQueueRef p)).
      apply nth_error_Some. congruence. }
    destruct (nth_error (nodes p) i) as [n|] eqn:Hn;
      [|apply nth_error_None in Hn; lia].
    destruct (stop_all_nth (audioQueueRef p) _ _ _ Hn) as (n'' & Hn'' & Hs).
    assert (n'' = n') by congruence. subst n''.
    apply Hs. destruct (stopped n) eqn:S; [now left|].
    right. apply (Hcov i n Hn S).
  - intros t b src Ht0 Hn.
    match type of Hn with
    | nodes (playAudioChunk pf t b ?q) = _ =>
        destruct (playAudioChunk_step pf t b q)
          as [(En & _) | (samples & _ & En & _)]
    end.
    + rewrite En in Hn. cbn [nodes] in Hn.
      apply (f_equal (@List.length _)) in Hn. rewrite length_app in Hn.
      cbn in Hn. lia.
    + cbv zeta in En. rewrite En in Hn. cbn [nodes nextStartTimeRef] in Hn.
      apply app_inv_head in Hn. injection Hn as <-. cbn [startTime].
      apply Q.max_l. exact Ht0.
Qed.

Lemma barge_in_stops_and_resets_witness :
  let p1 := playAudioChunk browser 5 "QUJD" page_started in
  let p2 := handleServerMessage browser 6
              (frame_of_type "input_audio_buffer.speech_started") p1 in
  audioQueueRef p2 = [] /\ nextStartTimeRef p2 = 0.
Proof.
  cbv zeta.
  destruct (barge_in_stops_and_resets browser 6
              (frame_of_type "input_audio_buffer.speech_started")
              (JObj [("type", JStr "input_audio_buffer.speech_started")])
              (playAudioChunk browser 5 "QUJD" page_started)
              eq_refl eq_refl ltac:(discriminate))
    as (_ & _ & Hq & Hc & _).
  split; [exact Hq | exact Hc].
Defined.

(** The pages the message callback can reach keep every unstopped source
    in the queue, so a barge-in stops all of them. *)
Lemma queue_covers_step pf t data p :
  queue_covers p -> queue_covers (handleServerMessage pf t data p).
Proof.
  intros Hcov. unfold handleServerMessage.
  destruct (bind _ _) as [[message ty]|e]; [|exact Hcov].
  destruct (strict_eq_string ty "response.audio.delta").
  - destruct (playAudioChunk_step pf t (ToString_val (prop message "delta")) p)
      as [(En & Eq & _) | (samples & _ & En & Eq & _)];
      intros ref n Hn Hs.
    + rewrite En in Hn. rewrite Eq. apply (Hcov ref n Hn Hs).
    + cbv zeta in En. rewrite En in Hn. rewrite Eq. apply in_or_app.
      destruct (Nat.lt_ge_cases ref (List.length (nodes p))) as [Hlt|Hge].
      * rewrite nth_error_app1 in Hn by exact Hlt. left.
        apply (Hcov ref n Hn Hs).
      * right. left. rewrite nth_error_app2 in Hn by exact Hge.
        destruct (ref - List.length (nodes p))%nat as [|k] eqn:K;
          [lia | destruct k; discriminate].
  - destruct (strict_eq_string ty "input_audio_buffer.speech_started");
      [|exact Hcov].
    unfold stopAudioPlayback. destruct (audioContextRef p); [|exact Hcov].
    intros ref n' Hn' Hs. cbn [nodes] in Hn'. exfalso.
    assert (Hlt : (ref < List.length (nodes p))%nat).
    { rewrite <- (stop_all_length (audioQueueRef p)).
      apply nth_error_Some. congruence. }
    destruct (nth_error (nodes p) ref) as [n|] eqn:Hn;
      [|apply nth_error_None in Hn; lia].
    destruct (stop_all_nth (audioQueueRef p) _ _ _ Hn) as (n'' & Hn'' & Hst).
    assert (n'' = n') by congruence. subst n''.
    assert (stopped n' = true); [|congruence].
    apply Hst. destruct (stopped n) eqn:S; [now left|].
    right. apply (Hcov ref n Hn S).
Qed.

Lemma queue_covers_reachable pf (msgs : list (Q * string)) :
  queue_covers (handle_all pf msgs page_started).
Proof.
  assert (G : forall p, queue_covers p -> queue_covers (handle_all pf msgs p)).
  { induction msgs as [|m msgs IH]; intros p Hp; [exact Hp|].
    unfold handle_all in *. cbn [fold_left]. apply IH.
    now apply queue_covers_step. }
  apply G. intros ref n Hn. destruct ref; discriminate Hn.
Qed.


(** * Further properties *)

Open Scope Q_scope.
Open Scope Z_scope.
Open Scope list_scope.
Open Scope string_scope.
Open Scope nat_scope.

(** ** Tool dispatcher *)

Lemma string_app_assoc (a b c : string) : (a ++ b) ++ c = a ++ (b ++ c).
Proof. induction a as [|x a IH]; simpl; [reflexivity | now rewrite IH]. Qed.

Lemma ci_contains_trans pf (field t2 t1 : string) :
  ci_contains pf field t2 -> ci_contains pf t2 t1 -> ci_contains pf field t1.
Proof.
  intros (a & b & E) (c & d & F). exists (a ++ c), (d ++ b).
  rewrite E, F. now rewrite !string_app_assoc.
Qed.

(** X1: for a string [query], [searchFAQ] returns every question of every
    category whose question or answer contains the query, letter case
    ignored, each tagged with the label of its category, in file order,
    with their number as [count]; when there is none it returns the
    failure [No FAQs found matching "<query>"]. *)
Theorem searchFAQ_returns_every_hit
    (pf : Platform) (kb : KnowledgeBase) (args : json) (term : string) :
  prop args "query" = Some (JStr term) ->
  exists results,
    results
    = flat_map (fun category =>
                  map (faq_hit category)
                      (filter (fun faq => ci_includes pf (Faq.question faq) term
                                          || ci_includes pf (Faq.answer faq) term)
                              (FaqCategory.faqs category)))
               (faqData kb)
    /\ (forall hit,
           In hit results <->
           exists category faq,
             In category (faqData kb) /\ In faq (FaqCategory.faqs category)
             /\ (ci_contains pf (Faq.question faq) term
                 \/ ci_contains pf (Faq.answer faq) term)
             /\ hit = faq_hit category faq)
    /\ executeTool pf kb (Some (JStr "searchFAQ")) args
       = match results with
         | [] => Returned (Failure ("No FAQs found matching " ++ quoted term))
         | _ => Returned (FaqsFound (List.length results) results)
         end.
Proof.
  intros H. eexists. split; [reflexivity|]. split.
  - intros hit. rewrite in_flat_map. split.
    + intros (category & Hc & Hh). apply in_map_iff in Hh as (faq & <- & Hf).
      apply filter_In in Hf as (Hf & Hm).
      exists category, faq. repeat split; try assumption.
      apply orb_true_iff in Hm. now rewrite !ci_includes_spec in Hm.
    + intros (category & faq & Hc & Hf & Hm & ->).
      exists category. split; [exact Hc|]. apply in_map, filter_In.
      split; [exact Hf|]. apply orb_true_iff. now rewrite !ci_includes_spec.
  - unfold executeTool. cbn [String.eqb Ascii.eqb Bool.eqb].
    rewrite (prop_get_prop _ _ _ H).
    cbn [bind call_toLowerCase ToString_val ToString].
    unfold ci_includes, faq_hit. now destruct (flat_map _ _).
Qed.

Lemma searchFAQ_returns_every_hit_witness :
  executeTool browser demo_kb (Some (JStr "searchFAQ"))
              (JObj [("query", JStr "WEEK")])
  = Returned (FaqsFound 1 [{| hit_category := "Content Marketing";
                              hit_question := "How often?";
                              hit_answer := "Weekly." |}]).
Proof.
  destruct (searchFAQ_returns_every_hit browser demo_kb
              (JObj [("query", JStr "WEEK")]) "WEEK" eq_refl)
    as (results & -> & _ & E).
  exact E.
Defined.

(** X2: whenever a result carries a [count], the count is the length of
    the list it comes with; for [getAllEmployees] it is the number of
    employees on file, also when that is zero. *)
Theorem count_is_length_of_payload
    (pf : Platform) (kb : KnowledgeBase) (name : jsval) (args : json)
    (r : ToolResult) (count n : nat) :
  executeTool pf kb name args = Returned r ->
  counted r = Some (count, n) ->
  count = n
  /\ (name = Some (JStr "getAllEmployees") -> count = List.length (employees kb)).
Proof.
  unfold executeTool.
  destruct name as [[| | |tool| |]|]; try (intros [= <-]; discriminate).
  intros E C. split.
  - revert E C.
    dispatch_cases tool args; try discriminate;
      intros [= <-]; cbn [counted]; intros [= <- <-];
      rewrite ?length_map; reflexivity.
  - intros [= ->]. revert E C. cbn [String.eqb Ascii.eqb Bool.eqb].
    intros [= <-]. cbn [counted]. now intros [= <- _].
Qed.

Lemma count_is_length_of_payload_witness :
  3 = 3 /\ (Some (JStr "getAllEmployees") = Some (JStr "getAllEmployees") ->
            3 = List.length (employees demo_kb)).
Proof.
  apply (count_is_length_of_payload browser demo_kb
           (Some (JStr "getAllEmployees")) JNull
           (AllEmployees 3
              [{| sum_name := "John Carter"; sum_designation := "CTO";
                  sum_email := "john@sb.example" |};
               {| sum_name := "Johnny Lee"; sum_designation := "Full-Stack Engineer";
                  sum_email := "johnny@sb.example" |};
               {| sum_name := "Alice Moore"; sum_designation := "Designer";
                  sum_email := "alice@sb.example" |}]) 3 3);
    reflexivity.
Defined.

(** X3: a search term that contains another one never finds more: every
    employee [getEmployeeByName] returns for the longer term is also
    returned for the shorter one. *)
Theorem narrower_name_finds_no_new_employee
    (pf : Platform) (kb : KnowledgeBase) (args1 args2 : json)
    (t1 t2 : string) (found2 : list Emp.t) :
  prop args1 "name" = Some (JStr t1) ->
  prop args2 "name" = Some (JStr t2) ->
  ci_contains pf t2 t1 ->
  executeTool pf kb (Some (JStr "getEmployeeByName")) args2
  = Returned (EmployeesByName found2) ->
  exists found1,
    executeTool pf kb (Some (JStr "getEmployeeByName")) args1
    = Returned (EmployeesByName found1)
    /\ incl found2 found1.
Proof.
  intros H1 H2 Hc.
  rewrite (executeTool_getEmployeeByName _ _ _ _ H1),
    (executeTool_getEmployeeByName _ _ _ _ H2).
  cbv zeta.
  assert (I : incl (filter (fun emp => ci_includes pf (Emp.name emp) t2) (employees kb))
                   (filter (fun emp => ci_includes pf (Emp.name emp) t1) (employees kb))).
  { intros emp Hin. apply filter_In in Hin as (Hin & Hm). apply filter_In.
    split; [exact Hin|]. apply ci_includes_spec.
    apply ci_includes_spec in Hm. exact (ci_contains_trans _ _ _ _ Hm Hc). }
  destruct (filter _ (employees kb)) as [|e2 l2] eqn:E2; [discriminate|].
  intros [= <-].
  destruct (filter (fun emp => ci_includes pf (Emp.name emp) t1) (employees kb))
    as [|e1 l1] eqn:E1.
  - destruct (I e2 (or_introl eq_refl)).
  - eexists. split; [reflexivity | exact I].
Qed.

Lemma narrower_name_finds_no_new_employee_witness :
  exists found1,
    executeTool browser demo_kb (Some (JStr "getEmployeeByName"))
                (JObj [("name", JStr "john")])
    = Returned (EmployeesByName found1)
    /\ incl [Emp.mk "Johnny Lee" "Full-Stack Engineer" "johnny@sb.example"
                    [("phone", JStr "555-0101")]] found1.
Proof.
  apply (narrower_name_finds_no_new_employee browser demo_kb
           (JObj [("name", JStr "john")]) (JObj [("name", JStr "Johnny")])
           "john" "Johnny").
  - reflexivity.
  - reflexivity.
  - exists EmptyString, "ny". reflexivity.
  - reflexivity.
Defined.

Lemma descriptor_args_accepted (d : json) (fields : list (string * json)) :
  In d tools ->
  (forall k, In k (descriptor_required d) -> is_string (assoc k fields) = true) ->
  (forall k, In k (descriptor_properties d) ->
             assoc k fields = None \/ is_string (assoc k fields) = true) ->
  args_accepted (descriptor_name d) (JObj fields) = true.
Proof.
  intros Hd Hreq Hprop. simpl in Hd.
  repeat (destruct Hd as [<-|Hd]);
    try (apply (Hreq _ (or_introl eq_refl)));
    try reflexivity; [|destruct Hd].
  destruct (Hprop "serviceName" (or_introl eq_refl)) as [N|S];
    cbn [args_accepted descriptor_name tool_descriptor prop assoc
         String.eqb Ascii.eqb Bool.eqb];
    [rewrite N | rewrite S, orb_true_r]; reflexivity.
Qed.

Lemma advertised_iff_known (name : jsval) :
  In name (map descriptor_name tools) <-> known_tool name = true.
Proof.
  split.
  - cbn. intros H. repeat (destruct H as [<-|H]; [reflexivity|]). destruct H.
  - unfold known_tool. destruct name as [[| | |tool| |]|]; try discriminate.
    cbn [existsb tool_names]. intros H.
    repeat (apply orb_prop in H as [H|H];
            [apply String.eqb_eq in H; subst tool; cbn; tauto|]).
    discriminate H.
Qed.

(** X4: a tool name is advertised in the [tools] array exactly when
    [executeTool] has a case for it, that is, when for no argument object
    the dispatcher answers "Unknown tool"; seven tools are advertised, no
    name twice.  An argument object that follows a descriptor (every
    required parameter a string, every other declared parameter absent or
    a string) is dispatched without an exception; an argument object that
    lacks a required parameter makes the dispatcher throw a TypeError. *)
Theorem advertised_tools_are_the_dispatched_ones
    (pf : Platform) (kb : KnowledgeBase) :
  (forall name : jsval,
      In name (map descriptor_name tools)
      <-> (forall args,
              executeTool pf kb name args
              <> Returned (Failure ("Unknown tool: " ++ ToString_val name))))
  /\ List.length tools = 7%nat
  /\ NoDup (map descriptor_name tools)
  /\ (forall d fields,
         In d tools ->
         (forall k, In k (descriptor_required d) ->
                    is_string (assoc k fields) = true) ->
         (forall k, In k (descriptor_properties d) ->
                    assoc k fields = None \/ is_string (assoc k fields) = true) ->
         exists r, executeTool pf kb (descriptor_name d) (JObj fields) = Returned r)
  /\ (forall d fields k,
         In d tools -> In k (descriptor_required d) -> assoc k fields = None ->
         executeTool pf kb (descriptor_name d) (JObj fields) = Thrown TypeError).
Proof.
  split; [|split; [reflexivity|split; [|split]]].
  - intros name. rewrite advertised_iff_known. apply known_tool_iff.
  - cbn. repeat (constructor; [cbn; intuition discriminate|]). constructor.
  - intros d fields Hd Hreq Hprop.
    pose proof (descriptor_args_accepted d fields Hd Hreq Hprop) as A.
    rewrite <- executeTool_returns with (pf := pf) (kb := kb) in A.
    destruct (executeTool pf kb _ _) as [r|e]; [now exists r | discriminate].
  - intros d fields k Hd Hk Hn.
    assert (A : args_accepted (descriptor_name d) (JObj fields) = false).
    { simpl in Hd.
      repeat (destruct Hd as [<-|Hd]);
        try (destruct Hk as [<-|[]];
             cbn [args_accepted descriptor_name tool_descriptor prop assoc
                  String.eqb Ascii.eqb Bool.eqb];
             now rewrite Hn);
        try (now destruct Hk); destruct Hd. }
    rewrite <- executeTool_returns with (pf := pf) (kb := kb) in A.
    destruct (executeTool pf kb _ _) as [r|e] eqn:E; [discriminate|].
    now rewrite (executeTool_throws_TypeError _ _ _ _ _ E).
Qed.

Lemma advertised_tools_are_the_dispatched_ones_witness :
  (exists r, executeTool browser demo_kb (Some (JStr "getServices")) (JObj [])
             = Returned r)
  /\ executeTool browser demo_kb (Some (JStr "searchFAQ")) (JObj [])
     = Thrown TypeError.
Proof.
  destruct (advertised_tools_are_the_dispatched_ones browser demo_kb)
    as (_ & _ & _ & H1 & H2).
  split.
  - apply (H1 (tool_descriptor "getServices"
                 "Get list of services offered by StrategyByte"
                 [("serviceName",
                   "Optional service name to filter (e.g., 'Website', 'SEO', 'Brand')")]
                 []) []).
    + simpl. tauto.
    + intros k [].
    + intros k _. now left.
  - apply (H2 (tool_descriptor "searchFAQ"
                 "Search FAQs by keyword. Use when user asks about services, pricing, or processes."
                 [("query",
                   "Search term to find relevant FAQs (e.g., 'cost', 'SEO', 'brand')")]
                 ["query"]) [] "query").
    + simpl. tauto.
    + now left.
    + reflexivity.
Defined.

(** ** Relay session *)

Open Scope list_scope.

Lemma ws_send_sent (ws ws' : WebSocket) (data : string) :
  ws_send ws data = Returned ws' ->
  sent ws' = sent ws ++ (if is_OPEN (readyState ws) then [data] else []).
Proof.
  unfold ws_send. destruct (readyState ws); intros [= <-]; cbn;
    now rewrite ?app_nil_r.
Qed.

Lemma is_OPEN_true (st : ReadyState) : is_OPEN st = true <-> st = OPEN.
Proof. destruct st; split; intros H; try reflexivity; discriminate H. Qed.

Lemma is_OPEN_false (st : ReadyState) : is_OPEN st = false <-> st <> OPEN.
Proof. destruct st; cbn; split; congruence. Qed.




Lemma Utf8_decode_ascii (s : string) :
  Forall (fun c => (nat_of_ascii c <= 127)%nat) (list_ascii_of_string s) ->
  Utf8.decode s = s.
Proof.
  induction s as [|b r IH]; [reflexivity|]. cbn [list_ascii_of_string].
  intros H. inversion H as [|? ? Hb Hr]; subst. cbn [Utf8.decode].
  unfold Utf8.between at 1. cbn [Nat.leb andb].
  rewrite (proj2 (Nat.leb_le _ _) Hb). now rewrite (IH Hr).
Qed.




Lemma run_cons pf session_update kb s e es :
  run pf session_update kb s (e :: es)
  = run pf session_update kb (deliver pf session_update kb s e) es.
Proof. reflexivity. Qed.





Lemma strict_eq_string_true (v : jsval) (literal : string) :
  strict_eq_string v literal = true <-> v = Some (JStr literal).
Proof.
  destruct v as [[| | |s| |]|]; cbn; split; try discriminate.
  - intros H. apply String.eqb_eq in H. now subst.
  - intros [= ->]. apply String.eqb_refl.
Qed.

(** X7: an upstream frame that is not a tool call (its text
    [data.toString()] does not parse, or its [type] is not
    [response.function_call_arguments.done]) is only passed on: the relay
    sends nothing upstream for it, an open client receives the text of the
    frame, which is the frame itself when [toString] leaves it as it is,
    and a client that is not open is left untouched. *)
Theorem frames_other_than_tool_calls_are_only_passed_on
    (pf : Platform) (kb : KnowledgeBase) (s : RelaySession) (data : string) :
  (forall msg, JSON_parse pf (toString pf data) = Some msg ->
               prop msg "type" <> Some (JStr "response.function_call_arguments.done")) ->
  openaiWs (on_openai_message pf kb s data) = openaiWs s
  /\ (readyState (clientWs s) = OPEN ->
      sent (clientWs (on_openai_message pf kb s data))
      = sent (clientWs s) ++ [toString pf data]
      /\ (toString pf data = data ->
          sent (clientWs (on_openai_message pf kb s data))
          = sent (clientWs s) ++ [data]))
  /\ (readyState (clientWs s) <> OPEN ->
      clientWs (on_openai_message pf kb s data) = clientWs s).
Proof.
  intros H. unfold on_openai_message. cbn [openaiWs clientWs]. split; [|split].
  - unfold parse. destruct (JSON_parse pf _) as [msg|] eqn:P; [|reflexivity].
    specialize (H msg eq_refl). cbn [bind].
    destruct msg; cbn [get_prop bind]; try reflexivity.
    destruct (strict_eq_string _ _) eqn:E; [|reflexivity].
    apply strict_eq_string_true in E. now destruct H.
  - intros Hc. rewrite Hc. cbn [is_OPEN]. rewrite (ws_send_open _ _ Hc).
    cbn [sent]. split; [reflexivity|]. now intros ->.
  - intros Hc. apply is_OPEN_false in Hc. now rewrite Hc.
Qed.

Lemma frames_other_than_tool_calls_are_only_passed_on_witness :
  let data := frame_of_type "response.done" in
  let binary := String "255" (String "254" EmptyString) in
  openaiWs (on_openai_message browser demo_kb session_active data)
  = openaiWs session_active
  /\ sent (clientWs (on_openai_message browser demo_kb session_active data)) = [data]
  /\ sent (clientWs (on_openai_message browser demo_kb session_active binary))
     = [(Utf8.replacement ++ Utf8.replacement)%string].
Proof.
  cbv zeta.
  destruct (frames_other_than_tool_calls_are_only_passed_on browser demo_kb
              session_active (frame_of_type "response.done")) as (H1 & H2 & _).
  - intros msg H. vm_compute in H. injection H as <-. discriminate.
  - split; [exact H1|]. split; [exact (proj2 (H2 eq_refl) eq_refl)|].
    reflexivity.
Defined.

(** ** Base64: the decoder reads back what the encoder wrote *)

Open Scope list_scope.
Open Scope Z_scope.


Lemma list_ind3 {A : Type} (P : list A -> Prop) :
  P [] -> (forall a, P [a]) -> (forall a b, P [a; b]) ->
  (forall a b c r, P r -> P (a :: b :: c :: r)) ->
  forall l, P l.
Proof.
  intros H0 H1 H2 H3.
  fix IH 1. intros [|a [|b [|c r]]]; [exact H0 | apply H1 | apply H2 |].
  apply H3. apply IH.
Qed.

Lemma digit_sextet (v : Z) :
  0 <= v < 64 ->
  Base64.sextet (Base64Encoder.digit v) = Some v
  /\ Base64.is_ws (Base64Encoder.digit v) = false
  /\ Base64.is_pad (Base64Encoder.digit v) = false.
Proof.
  intros Hv.
  assert (T : forallb (fun n => digit_ok (Z.of_nat n)) (seq 0 64) = true)
    by (vm_compute; reflexivity).
  rewrite forallb_forall in T.
  specialize (T (Z.to_nat v)). rewrite Z2Nat.id in T by lia.
  assert (I : In (Z.to_nat v) (seq 0 64)) by (apply in_seq; lia).
  specialize (T I). unfold digit_ok in T.
  apply andb_true_iff in T as [T P]. apply andb_true_iff in T as [S W].
  destruct (Base64.sextet _) as [w|]; [|discriminate].
  apply Z.eqb_eq in S. subst w.
  repeat split; [now destruct (Base64.is_ws _) | now destruct (Base64.is_pad _)].
Qed.

Lemma encode_sextets (bytes : list Z) :
  Base64Encoder.encode bytes
  = map Base64Encoder.digit (sextets_of bytes) ++ padding_of bytes.
Proof.
  induction bytes as [|a|a b|a b c r IH] using list_ind3; try reflexivity.
  cbn [Base64Encoder.encode sextets_of padding_of map app]. now rewrite IH.
Qed.

Lemma sextets_of_range (bytes : list Z) :
  Forall is_byte bytes -> Forall (fun v => 0 <= v < 64) (sextets_of bytes).
Proof.
  unfold is_byte.
  induction bytes as [|a|a b|a b c r IH] using list_ind3; intros H.
  - constructor.
  - inversion H as [|? ? Ha _]; subst. cbn [sextets_of].
    repeat constructor; Z.to_euclidean_division_equations; lia.
  - inversion H as [|? ? Ha H']; subst. inversion H' as [|? ? Hb _]; subst.
    cbn [sextets_of].
    repeat constructor; Z.to_euclidean_division_equations; lia.
  - inversion H as [|? ? Ha H']; subst. inversion H' as [|? ? Hb H'']; subst.
    inversion H'' as [|? ? Hc Hr]; subst.
    cbn [sextets_of].
    repeat (constructor; [Z.to_euclidean_division_equations; lia|]).
    now apply IH.
Qed.

(** The shape of the encoder's output: a multiple of four characters, of
    which the last one or two may be padding. *)
Lemma sextets_of_shape (bytes : list Z) :
  (padding_of bytes = []
   /\ exists k, List.length (sextets_of bytes) = (4 * k)%nat)
  \/ (padding_of bytes = ["="%char]
      /\ exists k, List.length (sextets_of bytes) = (4 * k + 3)%nat)
  \/ (padding_of bytes = ["="%char; "="%char]
      /\ exists k, List.length (sextets_of bytes) = (4 * k + 2)%nat).
Proof.
  induction bytes as [|a|a b|a b c r IH] using list_ind3.
  - left. split; [reflexivity | now exists 0%nat].
  - right. right. split; [reflexivity | now exists 0%nat].
  - right. left. split; [reflexivity | now exists 0%nat].
  - cbn [sextets_of padding_of List.length].
    destruct IH as [(P & k & L)|[(P & k & L)|(P & k & L)]]; rewrite P, L;
      [left | right; left | right; right];
      (split; [reflexivity | exists (S k); lia]).
Qed.

Lemma strip_ws_digits (cs : list ascii) :
  Forall (fun c => Base64.is_ws c = false) cs ->
  Base64.strip_ws (string_of_list_ascii cs) = cs.
Proof.
  induction 1 as [|c cs Hc _ IH]; [reflexivity|].
  cbn [string_of_list_ascii Base64.strip_ws]. now rewrite Hc, IH.
Qed.

Lemma sextets_digits (vs : list Z) :
  Forall (fun v => 0 <= v < 64) vs ->
  Base64.sextets (map Base64Encoder.digit vs) = Some vs.
Proof.
  induction 1 as [|v vs Hv _ IH]; [reflexivity|].
  cbn [map Base64.sextets].
  destruct (digit_sextet v Hv) as (S & _). now rewrite S, IH.
Qed.

Lemma list_last_cases {A : Type} (l : list A) :
  l = [] \/ exists l' x, l = l' ++ [x].
Proof.
  destruct l as [|a l]; [now left | right].
  destruct (exists_last (l := a :: l)) as (l' & x & E); [discriminate|].
  now exists l', x.
Qed.

Lemma strip_padding_encode (bytes : list Z) :
  Forall is_byte bytes ->
  Base64.strip_padding (Base64Encoder.encode bytes)
  = map Base64Encoder.digit (sextets_of bytes).
Proof.
  intros Hb. pose proof (sextets_of_range bytes Hb) as R.
  rewrite encode_sextets. unfold Base64.strip_padding.
  set (vs := sextets_of bytes) in *.
  assert (Last : forall l x, vs = l ++ [x] ->
                 rev (map Base64Encoder.digit vs)
                 = Base64Encoder.digit x :: rev (map Base64Encoder.digit l)
                   /\ Base64.is_pad (Base64Encoder.digit x) = false).
  { intros l x E. rewrite E, map_app, rev_app_distr. split; [reflexivity|].
    rewrite E in R. apply Forall_app in R as [_ R].
    inversion R as [|? ? Hx _]; subst. now apply digit_sextet. }
  destruct (sextets_of_shape bytes) as [(P & k & L)|[(P & k & L)|(P & k & L)]];
    fold vs in L; rewrite P.
  - rewrite app_nil_r.
    destruct (Nat.eqb _ _); [|reflexivity].
    destruct (list_last_cases vs) as [->|(l & x & E)]; [reflexivity|].
    destruct (Last l x E) as [Rv Px]. rewrite Rv.
    destruct (rev (map Base64Encoder.digit l)); [reflexivity|].
    now rewrite Px.
  - assert (M : (List.length (map Base64Encoder.digit vs ++ ["="%char]) mod 4 = 0)%nat).
    { rewrite length_app, length_map, L. cbn [List.length].
      replace (4 * k + 3 + 1)%nat with ((k + 1) * 4)%nat by lia.
      apply Nat.Div0.mod_mul. }
    rewrite M. cbn [Nat.eqb]. rewrite rev_app_distr. cbn [rev app].
    destruct (list_last_cases vs) as [E|(l & x & E)];
      [rewrite E in L; cbn in L; lia|].
    destruct (Last l x E) as [Rv Px]. rewrite Rv.
    change (Base64.is_pad "="%char) with true. cbv iota. rewrite Px.
    rewrite rev_involutive, E, map_app. reflexivity.
  - assert (M : (List.length (map Base64Encoder.digit vs ++ ["="%char; "="%char]) mod 4
                 = 0)%nat).
    { rewrite length_app, length_map, L. cbn [List.length].
      replace (4 * k + 2 + 2)%nat with ((k + 1) * 4)%nat by lia.
      apply Nat.Div0.mod_mul. }
    rewrite M. cbn [Nat.eqb]. rewrite rev_app_distr. cbn [rev app].
    change (Base64.is_pad "="%char) with true. cbv iota.
    now rewrite rev_involutive.
Qed.

Lemma ascii_of_code (c : ascii) :
  ascii_of_N (Z.to_N (Z.of_nat (nat_of_ascii c))) = c.
Proof.
  rewrite <- nat_N_Z, N2Z.id. unfold nat_of_ascii.
  now rewrite Nnat.N2Nat.id, ascii_N_embedding.
Qed.

Lemma char_codes_bytes (s : string) : Forall is_byte (char_codes s).
Proof.
  unfold char_codes. apply Forall_map, Forall_forall. intros c _.
  pose proof (nat_ascii_bounded c). unfold is_byte. lia.
Qed.

Ltac byte_eq :=
  match goal with
  | |- ascii_of_N (Z.to_N (?X mod 256)) = ?a =>
      replace (X mod 256) with (Z.of_nat (nat_of_ascii a))
        by (Z.to_euclidean_division_equations; lia);
      apply ascii_of_code
  end.

Lemma bytes_of_sextets_of (cs : list ascii) :
  Base64.bytes_of_sextets
    (sextets_of (map (fun c => Z.of_nat (nat_of_ascii c)) cs))
  = string_of_list_ascii cs.
Proof.
  induction cs as [|a|a b|a b c r IH] using list_ind3.
  - reflexivity.
  - cbn [map sextets_of Base64.bytes_of_sextets string_of_list_ascii].
    pose proof (nat_ascii_bounded a).
    unfold Base64.byte. f_equal. byte_eq.
  - cbn [map sextets_of Base64.bytes_of_sextets string_of_list_ascii].
    pose proof (nat_ascii_bounded a). pose proof (nat_ascii_bounded b).
    unfold Base64.byte. cbn [String.append].
    f_equal; [byte_eq|]. f_equal. byte_eq.
  - cbn [map sextets_of Base64.bytes_of_sextets string_of_list_ascii].
    rewrite IH.
    pose proof (nat_ascii_bounded a). pose proof (nat_ascii_bounded b).
    pose proof (nat_ascii_bounded c).
    unfold Base64.byte. cbn [String.append].
    f_equal; [byte_eq|]. f_equal; [byte_eq|]. f_equal. byte_eq.
Qed.

(** [atob] gives back the binary string [btoa] was given. *)
Lemma atob_btoa (binary : string) :
  Base64.atob (Base64Encoder.btoa binary) = Some binary.
Proof.
  unfold Base64.atob, Base64Encoder.btoa.
  pose proof (char_codes_bytes binary) as Hb.
  pose proof (sextets_of_range _ Hb) as R.
  rewrite strip_ws_digits.
  - rewrite (strip_padding_encode _ Hb), length_map.
    assert (N : (List.length (sextets_of (char_codes binary)) mod 4 =? 1)%nat = false).
    { apply Nat.eqb_neq.
      destruct (sextets_of_shape (char_codes binary))
        as [(_ & k & L)|[(_ & k & L)|(_ & k & L)]]; rewrite L.
      - replace (4 * k)%nat with (k * 4)%nat by lia.
        rewrite Nat.Div0.mod_mul. discriminate.
      - replace (4 * k + 3)%nat with (3 + k * 4)%nat by lia.
        rewrite Nat.Div0.mod_add. discriminate.
      - replace (4 * k + 2)%nat with (2 + k * 4)%nat by lia.
        rewrite Nat.Div0.mod_add. discriminate. }
    rewrite N, (sextets_digits _ R). f_equal.
    unfold char_codes. rewrite bytes_of_sextets_of.
    apply string_of_list_ascii_of_string.
  - rewrite encode_sextets. apply Forall_app. split.
    + apply Forall_map. eapply Forall_impl; [|exact R].
      intros v Hv. now apply digit_sextet.
    + destruct (sextets_of_shape (char_codes binary))
        as [(P & _)|[(P & _)|(P & _)]]; rewrite P; repeat constructor.
Qed.

(** ** Capture path *)

Lemma binary_of_buffer (buffer : list Z) : forall acc,
  fold_left (fun binary b => (binary ++ fromCharCode b)%string) buffer acc
  = (acc ++ string_of_list_ascii
              (map (fun b => ascii_of_nat (Z.to_nat b)) buffer))%string.
Proof.
  induction buffer as [|b r IH]; intros acc; cbn [fold_left map string_of_list_ascii].
  - induction acc as [|c acc IHa]; [reflexivity | cbn; now rewrite <- IHa].
  - rewrite IH, string_app_assoc. reflexivity.
Qed.

Lemma char_codes_of_bytes (buffer : list Z) :
  Forall is_byte buffer ->
  char_codes (string_of_list_ascii
                (map (fun b => ascii_of_nat (Z.to_nat b)) buffer))
  = buffer.
Proof.
  unfold char_codes. rewrite list_ascii_of_string_of_list_ascii, map_map.
  induction 1 as [|b r Hb _ IH]; [reflexivity|].
  cbn [map]. rewrite IH. f_equal.
  unfold is_byte in Hb. rewrite nat_ascii_embedding by lia. lia.
Qed.

Lemma setInt16_le_bytes (v : Z) : Forall is_byte (setInt16_le v).
Proof.
  unfold setInt16_le, is_byte.
  repeat constructor; Z.to_euclidean_division_equations; lia.
Qed.

Lemma floatTo16BitPCM_bytes (float32Array : list Q) :
  Forall is_byte (floatTo16BitPCM float32Array)
  /\ List.length (floatTo16BitPCM float32Array)
     = (2 * List.length float32Array)%nat.
Proof.
  unfold floatTo16BitPCM.
  induction float32Array as [|x r [IH1 IH2]]; [split; [constructor | reflexivity]|].
  cbn [flat_map]. split.
  - apply Forall_app. split; [apply setInt16_le_bytes | exact IH1].
  - rewrite length_app, IH2. cbn [setInt16_le List.length]. lia.
Qed.

Lemma Nat_even_double (n : nat) : Nat.even (2 * n) = true.
Proof. rewrite Nat.even_mul. reflexivity. Qed.

(** X8: a block of samples captured by the page and then decoded by the
    page's own playback path comes back sample by sample as
    [encode] followed by [decode]: the buffer has two bytes per sample, so
    no padding byte is added and no RangeError is raised, and a sample of
    [-1, 1] comes back within one quantisation step, 1/32767. *)
Theorem captured_block_decodes_to_its_samples
    (pf : Platform) (btoa : string -> string) (float32Array : list Q) :
  (forall binary, atob pf (btoa binary) = Some binary) ->
  let base64Audio := arrayBufferToBase64 btoa (floatTo16BitPCM float32Array) in
  exists samples,
    decode_chunk pf base64Audio = Returned samples
    /\ samples = map (fun x => decode_sample (encode_sample x)) float32Array
    /\ (forall i x y,
           nth_error float32Array i = Some x -> nth_error samples i = Some y ->
           (-1 <= x <= 1)%Q -> (Qabs (y - x) <= 1 # 32767)%Q).
Proof.
  intros Hrt base64Audio. subst base64Audio.
  destruct (floatTo16BitPCM_bytes float32Array) as [Hb Hl].
  eexists. split; [|split; [reflexivity|]].
  - unfold decode_chunk, arrayBufferToBase64. rewrite Hrt.
    rewrite binary_of_buffer. cbn [String.append].
    rewrite bytes_of_binaryString_eq, <- char_codes_length.
    rewrite (char_codes_of_bytes _ Hb), Hl, Nat_even_double.
    rewrite app_nil_r, Int16Array_of_floatTo16BitPCM. cbn [bind].
    now rewrite map_map.
  - intros i x y Hx Hy Hr.
    rewrite nth_error_map, Hx in Hy. injection Hy as <-.
    apply Qabs_Qle_condition. unfold decode_sample, Qdiv.
    change (/ 32767)%Q with (1 # 32767)%Q.
    destruct (encode_sample_cases x Hr)
      as [(Hn & E & B & L & U) | (Hp & E & B & L & U)]; split; lra.
Qed.

Lemma captured_block_decodes_to_its_samples_witness :
  decode_chunk browser
    (arrayBufferToBase64 Base64Encoder.btoa (floatTo16BitPCM [1 # 2; -1; 3]%Q))
  = Returned [16383 # 32767; -32768 # 32767; 32767 # 32767]%Q.
Proof.
  destruct (captured_block_decodes_to_its_samples browser Base64Encoder.btoa
              [1 # 2; -1; 3]%Q atob_btoa) as (samples & E & -> & _).
  exact E.
Defined.

(** X9: the capture callback sends nothing unless the socket is open; on
    an open socket it sends exactly one [input_audio_buffer.append] frame
    with the encoded block, and the relay, when its upstream connection is
    open and the platform reads the frame back as it was written
    ([JSON.parse] of the frame's [toString()] gives the message), passes
    that frame upstream as one frame with the same text. *)
Theorem captured_block_reaches_upstream
    (pf : Platform) (btoa : string -> string) (ws : WebSocket)
    (s : RelaySession) (inputData : list Q) :
  let frame :=
    JObj [("type", JStr "input_audio_buffer.append");
          ("audio", JStr (arrayBufferToBase64 btoa (floatTo16BitPCM inputData)))] in
  (readyState ws <> OPEN -> onaudioprocess pf btoa ws inputData = ws)
  /\ (readyState ws = OPEN ->
      sent (onaudioprocess pf btoa ws inputData)
      = sent ws ++ [JSON_stringify pf frame]
      /\ readyState (onaudioprocess pf btoa ws inputData) = OPEN)
  /\ (JSON_parse pf (toString pf (JSON_stringify pf frame)) = Some frame ->
      readyState (openaiWs s) = OPEN ->
      sent (openaiWs (on_client_message pf s (JSON_stringify pf frame)))
      = sent (openaiWs s) ++ [JSON_stringify pf frame]).
Proof.
  cbv zeta. unfold onaudioprocess. split; [|split].
  - intros N. apply is_OPEN_false in N. now rewrite N.
  - intros O. rewrite O. cbn [is_OPEN negb].
    rewrite (ws_send_open _ _ O). now split.
  - intros P O. unfold on_client_message, parse. rewrite P, O. cbn [is_OPEN].
    now rewrite (ws_send_open _ _ O).
Qed.

Lemma captured_block_reaches_upstream_witness :
  let frame :=
    JObj [("type", JStr "input_audio_buffer.append");
          ("audio", JStr (arrayBufferToBase64 Base64Encoder.btoa
                            (floatTo16BitPCM [1 # 2; -1]%Q)))] in
  arrayBufferToBase64 Base64Encoder.btoa (floatTo16BitPCM [1 # 2; -1]%Q)
  = "/z8AgA=="%string
  /\ sent (onaudioprocess browser Base64Encoder.btoa
             {| readyState := OPEN; sent := [] |} [1 # 2; -1]%Q)
     = [JsonText.stringify frame]
  /\ sent (openaiWs (on_client_message browser session_active
                                       (JsonText.stringify frame)))
     = [JsonText.stringify frame].
Proof.
  cbv zeta. split; [vm_compute; reflexivity|].
  destruct (captured_block_reaches_upstream browser Base64Encoder.btoa
              {| readyState := OPEN; sent := [] |} session_active
              [1 # 2; -1]%Q) as (_ & H1 & H2).
  split.
  - exact (proj1 (H1 eq_refl)).
  - apply H2; [vm_compute; reflexivity | reflexivity].
Defined.

(** ** Encoder: clipping and order *)

Open Scope Q_scope.

Lemma encode_sample_eq (x : Q) :
  encode_sample x
  = Qtrunc (if Qltb (clamp x) 0 then clamp x * 32768 else clamp x * 32767).
Proof.
  unfold encode_sample. cbv zeta.
  pose proof (clamp_range x) as R. set (s := clamp x) in *. clearbody s.
  apply ToInt16_small.
  destruct (Qltb s 0) eqn:E.
  - apply Qltb_true in E.
    destruct (Qtrunc_neg (s * 32768)) as (_ & L & U); [lra|].
    split; [apply inject_Z_le_inv | apply inject_Z_le_inv].
    + change (inject_Z (-32768)) with (-32768). lra.
    + apply Qlt_le_weak. change (inject_Z 32767) with 32767.
      assert (inject_Z (Qtrunc (s * 32768)) < 1) by lra. lra.
  - apply Qltb_false in E.
    destruct (Qtrunc_nonneg (s * 32767)) as (_ & L & U); [lra|].
    split; apply inject_Z_le_inv.
    + change (inject_Z (-32768)) with (-32768). lra.
    + change (inject_Z 32767) with 32767. lra.
Qed.

Lemma clamp_cases (x : Q) :
  (x <= -1 -> clamp x == -1) /\ (1 <= x -> clamp x == 1).
Proof.
  unfold clamp.
  destruct (Q.min_spec 1 x) as [[H1 E1]|[H1 E1]];
    destruct (Q.max_spec (-1) (Qmin 1 x)) as [[H2 E2]|[H2 E2]];
    split; intros H; lra.
Qed.

Lemma clamp_monotone (x y : Q) : x <= y -> clamp x <= clamp y.
Proof.
  intros H. unfold clamp.
  destruct (Q.min_spec 1 x) as [[H1 E1]|[H1 E1]];
    destruct (Q.min_spec 1 y) as [[H3 E3]|[H3 E3]];
    destruct (Q.max_spec (-1) (Qmin 1 x)) as [[H2 E2]|[H2 E2]];
    destruct (Q.max_spec (-1) (Qmin 1 y)) as [[H4 E4]|[H4 E4]]; lra.
Qed.

Lemma Qtrunc_comp (a b : Q) : a == b -> Qtrunc a = Qtrunc b.
Proof.
  intros H. unfold Qtrunc. rewrite (Qltb_comp a b 0 H).
  destruct (Qltb b 0);
    [rewrite (Qceiling_comp a b H) | rewrite (Qfloor_comp a b H)]; reflexivity.
Qed.

Lemma encode_sample_high (x : Q) : 1 <= x -> encode_sample x = 32767%Z.
Proof.
  intros H. rewrite encode_sample_eq.
  pose proof (proj2 (clamp_cases x) H) as Hi.
  assert (N : Qltb (clamp x) 0 = false) by (apply Qltb_false; lra).
  rewrite N. rewrite (Qtrunc_comp _ 32767) by lra. reflexivity.
Qed.

Lemma encode_sample_low (x : Q) : x <= -1 -> encode_sample x = (-32768)%Z.
Proof.
  intros H. rewrite encode_sample_eq.
  pose proof (proj1 (clamp_cases x) H) as Lo.
  assert (N : Qltb (clamp x) 0 = true) by (apply Qltb_true; lra).
  rewrite N. rewrite (Qtrunc_comp _ (-32768)) by lra. reflexivity.
Qed.

(** X10: samples outside [-1, 1] are clipped, not wrapped: every sample
    of 1 or more is encoded as 32767 (bytes FF 7F) and every sample of -1
    or less as -32768 (bytes 00 80); whatever the sample, the encoded
    value is a 16-bit signed integer.  The same holds for a float32 sample
    when the product is rounded to double. *)
Theorem encode_sample_clips (x : Q) :
  (-32768 <= encode_sample x <= 32767)%Z
  /\ (1 <= x ->
      encode_sample x = 32767%Z /\ setInt16_le (encode_sample x) = [255; 127]%Z)
  /\ (x <= -1 ->
      encode_sample x = (-32768)%Z /\ setInt16_le (encode_sample x) = [0; 128]%Z)
  /\ (is_float32 x ->
      (1 <= x -> encode_sample_ieee x = 32767%Z)
      /\ (x <= -1 -> encode_sample_ieee x = (-32768)%Z)).
Proof.
  split; [apply ToInt16_range|]. split; [|split].
  - intros H. now rewrite (encode_sample_high x H).
  - intros H. now rewrite (encode_sample_low x H).
  - intros F. rewrite (encode_sample_ieee_exact x F).
    split; [apply encode_sample_high | apply encode_sample_low].
Qed.

Lemma encode_sample_clips_witness :
  encode_sample 3 = 32767%Z /\ encode_sample (-5 # 2) = (-32768)%Z.
Proof.
  destruct (encode_sample_clips 3) as (_ & H1 & _).
  destruct (encode_sample_clips (-5 # 2)) as (_ & _ & H2 & _).
  split; [apply H1 | apply H2]; lra.
Defined.

(** X11: the encoder keeps the order of samples (a larger sample never
    gets a smaller code) and maps silence to 0, so negative samples get
    codes of 0 or less and positive ones codes of 0 or more.  The same
    holds for float32 samples when the product is rounded to double. *)
Theorem encode_sample_monotone (x y : Q) :
  x <= y ->
  (encode_sample x <= encode_sample y)%Z
  /\ encode_sample 0 = 0%Z
  /\ (is_float32 x -> is_float32 y ->
      (encode_sample_ieee x <= encode_sample_ieee y)%Z).
Proof.
  intros H.
  enough (M : (encode_sample x <= encode_sample y)%Z).
  { split; [exact M|]. split; [reflexivity|]. intros Fx Fy.
    now rewrite (encode_sample_ieee_exact x Fx), (encode_sample_ieee_exact y Fy). }
  rewrite !encode_sample_eq.
  pose proof (clamp_monotone x y H) as M.
  pose proof (clamp_range x) as Rx. pose proof (clamp_range y) as Ry.
  set (s := clamp x) in *. set (t := clamp y) in *. clearbody s t.
  destruct (Qltb s 0) eqn:Es; destruct (Qltb t 0) eqn:Et.
  - apply Qltb_true in Es. apply Qltb_true in Et.
    destruct (Qtrunc_neg (s * 32768)) as (_ & L1 & U1); [lra|].
    destruct (Qtrunc_neg (t * 32768)) as (_ & L2 & U2); [lra|].
    apply Z.lt_succ_r, inject_Z_lt_inv. unfold Z.succ.
    rewrite inject_Z_plus. change (inject_Z 1) with 1. lra.
  - apply Qltb_true in Es. apply Qltb_false in Et.
    destruct (Qtrunc_neg (s * 32768)) as (_ & L1 & U1); [lra|].
    destruct (Qtrunc_nonneg (t * 32767)) as (_ & L2 & U2); [lra|].
    assert (A : (Qtrunc (s * 32768) < 1)%Z)
      by (apply inject_Z_lt_inv; change (inject_Z 1) with 1; lra).
    assert (B : (-1 < Qtrunc (t * 32767))%Z)
      by (apply inject_Z_lt_inv; change (inject_Z (-1)) with (-1); lra).
    lia.
  - apply Qltb_false in Es. apply Qltb_true in Et. lra.
  - apply Qltb_false in Es. apply Qltb_false in Et.
    destruct (Qtrunc_nonneg (s * 32767)) as (_ & L1 & U1); [lra|].
    destruct (Qtrunc_nonneg (t * 32767)) as (_ & L2 & U2); [lra|].
    apply Z.lt_succ_r, inject_Z_lt_inv. unfold Z.succ.
    rewrite inject_Z_plus. change (inject_Z 1) with 1. lra.
Qed.

Lemma encode_sample_monotone_witness :
  (encode_sample (-1 # 2) <= encode_sample (1 # 4))%Z.
Proof.
  refine (proj1 (encode_sample_monotone (-1 # 2) (1 # 4) _)). lra.
Defined.

(** ** Playback over arbitrary message sequences *)

Lemma chained_snoc (l : list SourceNode) : forall cursor final n,
  chained cursor l final -> final <= startTime n ->
  chained cursor (l ++ [n]) (scheduled_end n).
Proof.
  induction l as [|a l IH]; intros cursor final n H Hn; cbn [app chained] in *.
  - subst final. now split.
  - destruct H as [H1 H2]. split; [exact H1|]. now apply (IH _ final).
Qed.

Lemma chained_ends (l : list SourceNode) : forall cursor final,
  0 <= cursor -> is_double cursor ->
  chained cursor l final ->
  Forall (fun n => scheduled_end n <= final) l.
Proof.
  induction l as [|a l IH]; intros cursor final H0 Hd H; [constructor|].
  destruct H as [H1 H2].
  pose proof (duration_nonneg a) as Hdur.
  assert (Hx : 0 <= startTime a + duration a) by lra.
  pose proof (to_double_nonneg _ Hx) as E0.
  pose proof (to_double_is_double _ Hx) as Ed.
  constructor; [|now apply (IH _ _ E0 Ed H2)].
  now destruct (chained_bounds _ _ _ E0 Ed H2) as (_ & _ & B & _).
Qed.

Lemma queued_eq (p p' : Page) :
  nodes p' = nodes p -> audioQueueRef p' = audioQueueRef p ->
  queued p' = queued p.
Proof. unfold queued. now intros -> ->. Qed.

Lemma queued_length (p : Page) :
  Forall (fun ref => (ref < List.length (nodes p))%nat) (audioQueueRef p) ->
  List.length (queued p) = List.length (audioQueueRef p).
Proof.
  unfold queued. induction 1 as [|ref refs Href _ IH]; [reflexivity|].
  cbn [flat_map]. rewrite length_app, IH.
  apply nth_error_Some in Href. now destruct (nth_error _ ref).
Qed.

Lemma queued_push (p : Page) (src : SourceNode) :
  Forall (fun ref => (ref < List.length (nodes p))%nat) (audioQueueRef p) ->
  flat_map (fun ref => match nth_error (nodes p ++ [src]) ref with
                       | Some n => [n]
                       | None => []
                       end)
           (audioQueueRef p ++ [List.length (nodes p)])
  = queued p ++ [src].
Proof.
  intros H. rewrite flat_map_app. cbn [flat_map].
  rewrite nth_error_app2, Nat.sub_diag by lia. cbn [nth_error app].
  f_equal. unfold queued.
  induction H as [|ref refs Href _ IH]; [reflexivity|].
  cbn [flat_map]. now rewrite IH, nth_error_app1.
Qed.

(** The invariant of the playback state: the queue refers to sources of
    the store, none of them stopped or empty, scheduled one after the
    other up to the cursor. *)
Lemma schedule_invariant_step pf t data p :
  schedule_invariant p -> schedule_invariant (handleServerMessage pf t data p).
Proof.
  intros (Hr & Hs & c0 & H0 & Hd & Hc). unfold handleServerMessage.
  destruct (bind _ _) as [[message ty]|err]; [|now repeat split; try exists c0].
  destruct (strict_eq_string ty "response.audio.delta").
  - destruct (playAudioChunk_step pf t (ToString_val (prop message "delta")) p)
      as [(E1 & E2 & E3)|(samples & Hb & E1 & E2 & E3)]; cbv zeta in *.
    + unfold schedule_invariant. rewrite (queued_eq _ _ E1 E2), E1, E2, E3.
      repeat split; try assumption. now exists c0.
    + assert (Q : queued (playAudioChunk pf t (ToString_val (prop message "delta")) p)
                  = queued p
                    ++ [{| channelData := samples;
                           startTime := Qmax t (nextStartTimeRef p);
                           stopped := false |}]).
      { unfold queued at 1. rewrite E1, E2. now apply queued_push. }
      unfold schedule_invariant. rewrite Q, E1, E2, E3. split; [|split].
      * apply Forall_app. split.
        -- eapply Forall_impl; [|exact Hr]. intros ref Href. cbv beta in *.
           rewrite length_app. cbn [List.length]. lia.
        -- constructor; [|constructor]. cbv beta.
           rewrite length_app. cbn [List.length]. lia.
      * apply Forall_app. split; [exact Hs|].
        constructor; [|constructor]. cbn [stopped channelData].
        split; [reflexivity|].
        destruct (decode_chunk pf _) as [float32|e]; [|discriminate Hb].
        apply (createBuffer_nonempty _ _ Hb).
      * exists c0. split; [exact H0|]. split; [exact Hd|].
        apply (chained_snoc _ _ _
                 {| channelData := samples;
                    startTime := Qmax t (nextStartTimeRef p);
                    stopped := false |} Hc).
        apply Q.le_max_r.
  - destruct (strict_eq_string ty _); [|now repeat split; try exists c0].
    unfold stopAudioPlayback.
    destruct (audioContextRef p); [|now repeat split; try exists c0].
    unfold schedule_invariant, queued. cbn [audioQueueRef nextStartTimeRef flat_map].
    repeat split; try constructor. exists 0.
    split; [apply Qle_refl|]. split; [apply is_double_0 | reflexivity].
Qed.

Lemma schedule_invariant_run pf (msgs : list (Q * string)) : forall p,
  schedule_invariant p -> schedule_invariant (handle_all pf msgs p).
Proof.
  unfold handle_all.
  induction msgs as [|m msgs IH]; intros p H; [exact H|].
  cbn [fold_left]. apply IH. now apply schedule_invariant_step.
Qed.

(** X12: however audio chunks, barge-in signals and any other frames
    (malformed ones included) are interleaved, the sources in the queue
    are sources of the store that have not been stopped; consecutive ones
    are in sequence: each next one starts no earlier than the double sum
    start + duration of the previous one, hence no earlier than the exact
    end of the previous one less a relative rounding error of 2^-53; the
    double end of each is at or before the cursor; and every source that
    has not been stopped is in the queue. *)
Theorem queued_sources_are_in_sequence
    (pf : Platform) (msgs : list (Q * string)) :
  let p := handle_all pf msgs page_started in
  List.length (queued p) = List.length (audioQueueRef p)
  /\ Forall (fun n => stopped n = false) (queued p)
  /\ (forall i a b,
         nth_error (queued p) i = Some a -> nth_error (queued p) (S i) = Some b ->
         to_double (startTime a + duration a) <= startTime b
         /\ (startTime a + duration a)
            - (startTime a + duration a) * pow2 (-53) <= startTime b)
  /\ Forall (fun n => to_double (startTime n + duration n) <= nextStartTimeRef p)
            (queued p)
  /\ (forall ref n,
         nth_error (nodes p) ref = Some n -> stopped n = false ->
         In ref (audioQueueRef p)).
Proof.
  cbv zeta.
  destruct (schedule_invariant_run pf msgs page_started)
    as (Hr & Hs & c0 & H0 & Hd & Hc).
  { repeat split; try constructor. exists 0.
    split; [apply Qle_refl|]. split; [apply is_double_0 | reflexivity]. }
  destruct (chained_bounds _ _ _ H0 Hd Hc) as (Hseq & Hf & _).
  split; [now apply queued_length|]. split; [|split; [|split]].
  - eapply Forall_impl; [|exact Hs]. now intros n [S _].
  - intros i a b Ha Hb.
    pose proof (in_sequence_nth _ i a b Hseq Ha Hb) as Hab.
    split; [exact Hab|].
    assert (Hin : In a (queued (handle_all pf msgs page_started)))
      by (eapply nth_error_In; eassumption).
    rewrite Forall_forall in Hf, Hs.
    specialize (Hf a Hin). destruct (Hs a Hin) as [_ Hne]. cbv beta in Hf.
    destruct (scheduled_end_error a ltac:(lra) Hne) as [Hlow _].
    cbv zeta in Hlow. unfold scheduled_end in *. lra.
  - exact (chained_ends _ _ _ H0 Hd Hc).
  - apply queue_covers_reachable.
Qed.

(** X13: a server message changes the store, the queue or the cursor only
    if it parses and is either a barge-in signal or an audio chunk whose
    payload decodes to at least one sample; a frame that does not parse,
    a frame of any other type, a chunk that is not base64 and an empty
    chunk leave all three as they were. *)
Theorem only_audio_and_barge_in_change_the_schedule
    (pf : Platform) (currentTime : Q) (data : string) (p : Page) :
  schedule (handleServerMessage pf currentTime data p) <> schedule p ->
  exists message,
    JSON_parse pf data = Some message
    /\ (prop message "type" = Some (JStr "input_audio_buffer.speech_started")
        \/ (prop message "type" = Some (JStr "response.audio.delta")
            /\ exists x samples,
                 decode_chunk pf (ToString_val (prop message "delta"))
                 = Returned (x :: samples))).
Proof.
  unfold handleServerMessage, parse.
  destruct (JSON_parse pf data) as [message|]; [|now intros H; destruct H].
  cbn [bind]. intros H. exists message. split; [reflexivity|].
  destruct message; cbn [get_prop bind] in H; try (now destruct H).
  cbn [prop].
  destruct (strict_eq_string (assoc "type" fields) "response.audio.delta") eqn:E1.
  - right. apply strict_eq_string_true in E1. split; [exact E1|].
    revert H. unfold playAudioChunk.
    destruct (audioContextRef p); [|now intros H; destruct H].
    destruct (decode_chunk pf _) as [[|x samples]|e]; cbn [bind createBuffer];
      try (now intros H; destruct H).
    intros _. now exists x, samples.
  - destruct (strict_eq_string (assoc "type" fields)
                "input_audio_buffer.speech_started") eqn:E2;
      [|now destruct H].
    left. now apply strict_eq_string_true in E2.
Qed.

Lemma only_audio_and_barge_in_change_the_schedule_witness :
  exists message,
    JSON_parse browser (audio_delta_frame "QUJD") = Some message
    /\ (prop message "type" = Some (JStr "input_audio_buffer.speech_started")
        \/ (prop message "type" = Some (JStr "response.audio.delta")
            /\ exists x samples,
                 decode_chunk browser (ToString_val (prop message "delta"))
                 = Returned (x :: samples))).
Proof.
  apply (only_audio_and_barge_in_change_the_schedule browser 5
           (audio_delta_frame "QUJD") page_started).
  intros H. vm_compute in H. discriminate H.
Defined.

(** ** Bookings route *)

Open Scope Z_scope.
Open Scope nat_scope.

Lemma POST_shapes (now : Z) (body : outcome json) (db : outcome (list Booking.t)) :
  POST now body db
  = (500, JObj [("error", JStr "Failed to create booking")], db)
  \/ POST now body db
     = (400, JObj [("error", JStr "Missing required fields: email, phone, name")], db)
  \/ exists collection email phone name,
       db = Returned collection
       /\ complete (Booking.mk email phone name now) = true
       /\ (exists b, body = Returned b /\ get_prop b "email" = Returned email
                     /\ get_prop b "phone" = Returned phone
                     /\ get_prop b "name" = Returned name)
       /\ POST now body db
          = (201,
             JObj [("success", JBool true);
                   ("message", JStr "Booking created successfully");
                   ("bookingId", JCount (List.length collection))],
             Returned (collection ++ [Booking.mk email phone name now])).
Proof.
  unfold POST.
  destruct body as [b|e]; cbn [bind]; [|now left].
  destruct (get_prop b "email") as [email|e] eqn:Ee; cbn [bind]; [|now left].
  destruct (get_prop b "phone") as [phone|e] eqn:Ep; cbn [bind]; [|now left].
  destruct (get_prop b "name") as [name|e] eqn:En; cbn [bind]; [|now left].
  destruct (truthy email) eqn:Te; cbn [negb orb]; [|now right; left].
  destruct (truthy phone) eqn:Tp; cbn [negb orb]; [|now right; left].
  destruct (truthy name) eqn:Tn; cbn [negb orb]; [|now right; left].
  destruct db as [collection|e]; [|now left].
  right. right. exists collection, email, phone, name.
  split; [reflexivity|]. split.
  - unfold complete. cbn. now rewrite Te, Tp, Tn.
  - split; [|reflexivity]. exists b. now rewrite Ee.
Qed.

(** X14: [POST] answers 201, 400 or 500 and touches the collection only
    with 201, when it appends exactly one booking that carries the three
    fields of the body, all truthy, and the server's clock reading.  The
    fields are checked before the datastore is contacted: a body that
    lacks one of them (or has it empty, null, false or 0) is answered 400
    even when the datastore is unreachable; a body that is [null] or does
    not parse is answered 500. *)
Theorem POST_validates_then_appends
    (now : Z) (body : outcome json) (db : outcome (list Booking.t)) :
  let status := fst (fst (POST now body db)) in
  let db' := snd (POST now body db) in
  (status = 201 \/ status = 400 \/ status = 500)
  /\ (status <> 201 -> db' = db)
  /\ (status = 201 ->
      exists collection booking,
        db = Returned collection
        /\ db' = Returned (collection ++ [booking])
        /\ complete booking = true
        /\ Booking.createdAt booking = now)
  /\ (forall b,
         body = Returned b -> b <> JNull ->
         truthy (prop b "email") && truthy (prop b "phone")
         && truthy (prop b "name") = false ->
         POST now body db
         = (400, JObj [("error", JStr "Missing required fields: email, phone, name")],
            db))
  /\ (body = Returned JNull \/ (exists e, body = Thrown e) ->
      POST now body db
      = (500, JObj [("error", JStr "Failed to create booking")], db)).
Proof.
  cbv zeta. split; [|split; [|split; [|split]]].
  - destruct (POST_shapes now body db) as [E|[E|(c & e & p & n & _ & _ & _ & E)]];
      rewrite E; cbn; auto.
  - destruct (POST_shapes now body db) as [E|[E|(c & e & p & n & _ & _ & _ & E)]];
      rewrite E; cbn; congruence.
  - destruct (POST_shapes now body db) as [E|[E|(c & e & p & n & D & C & _ & E)]];
      rewrite E; cbn; try discriminate.
    intros _. exists c, (Booking.mk e p n now). now repeat split.
  - intros b -> Hb Hf. unfold POST. cbn [bind].
    destruct b; try congruence; cbn [get_prop bind prop] in *;
      try reflexivity.
    destruct (truthy (assoc "email" fields)); [|reflexivity].
    destruct (truthy (assoc "phone" fields)); [|reflexivity].
    destruct (truthy (assoc "name" fields)); [discriminate | reflexivity].
  - intros [->|[e ->]]; reflexivity.
Qed.

Lemma POST_validates_then_appends_witness :
  POST 1700000000%Z
       (Returned (JObj [("email", JStr "ann@example.com"); ("name", JStr "Ann")]))
       (Thrown NotOpenError)
  = (400, JObj [("error", JStr "Missing required fields: email, phone, name")],
     Thrown NotOpenError).
Proof.
  destruct (POST_validates_then_appends 1700000000%Z
              (Returned (JObj [("email", JStr "ann@example.com");
                               ("name", JStr "Ann")]))
              (Thrown NotOpenError)) as (_ & _ & _ & H & _).
  apply (H _ eq_refl); [discriminate | reflexivity].
Defined.

Lemma POST_all_step now body rest collection :
  POST_all ((now, body) :: rest) collection
  = let r := POST now body (Returned collection) in
    let collection' := match snd r with
                       | Returned c => c
                       | Thrown _ => collection
                       end in
    (fst (fst r) :: fst (POST_all rest collection'),
     snd (POST_all rest collection')).
Proof.
  cbn [POST_all]. destruct (POST now body (Returned collection)) as [[status j] [c|e]];
    cbn [fst snd]; now destruct (POST_all rest _).
Qed.

(** X15: over any run of [POST] requests on a reachable datastore, the
    collection is append-only (the bookings it held are still there, in
    place and unchanged), it has grown by one booking per 201 answer, and
    every booking added has a truthy email, phone and name. *)
Theorem bookings_are_append_only_and_complete
    (requests : list (Z * outcome json)) (collection : list Booking.t) :
  let statuses := fst (POST_all requests collection) in
  let final := snd (POST_all requests collection) in
  exists added,
    final = (collection ++ added)%list
    /\ Forall (fun b => complete b = true) added
    /\ List.length added = count_occ Nat.eq_dec statuses 201
    /\ List.length statuses = List.length requests
    /\ Forall (fun status => status = 201 \/ status = 400 \/ status = 500) statuses.
Proof.
  cbv zeta. revert collection.
  induction requests as [|[now body] rest IH]; intros collection.
  - exists []. cbn. rewrite app_nil_r. repeat split; constructor.
  - rewrite POST_all_step. cbv zeta. cbn [fst snd].
    destruct (POST_shapes now body (Returned collection))
      as [E|[E|(c & e & p & n & D & C & _ & E)]]; rewrite E; cbn [fst snd].
    + destruct (IH collection) as (added & F & A & L & N & S).
      exists added. cbn [count_occ List.length].
      destruct (Nat.eq_dec 500 201); [discriminate|].
      repeat split; auto.
    + destruct (IH collection) as (added & F & A & L & N & S).
      exists added. cbn [count_occ List.length].
      destruct (Nat.eq_dec 400 201); [discriminate|].
      repeat split; auto.
    + injection D as <-.
      destruct (IH (collection ++ [Booking.mk e p n now])%list)
        as (added & F & A & L & N & S).
      exists (Booking.mk e p n now :: added). cbn [count_occ List.length].
      destruct (Nat.eq_dec 201 201); [|congruence].
      rewrite F, <- app_assoc. repeat split; auto.
Qed.

Lemma combine_seq_app {A : Type} (l : list A) (b : A) : forall n,
  combine (seq n (List.length (l ++ [b]))) (l ++ [b])
  = (combine (seq n (List.length l)) l ++ [(n + List.length l, b)])%list.
Proof.
  induction l as [|a l IH]; intros n; cbn [List.length app seq combine].
  - now rewrite Nat.add_0_r.
  - rewrite IH. now rewrite Nat.add_succ_comm.
Qed.

Lemma combine_seq_In {A : Type} (l : list A) (b : A) : forall n id,
  In (id, b) (combine (seq n (List.length l)) l)
  <-> n <= id /\ nth_error l (id - n) = Some b.
Proof.
  induction l as [|a r IH]; intros n id.
  - cbn. split; [tauto|]. intros [_ H]. now destruct (id - n).
  - cbn [List.length seq combine In]. rewrite IH. split.
    + intros [[= <- <-]|[Hn Hr]].
      * rewrite Nat.sub_diag. split; [lia | reflexivity].
      * split; [lia|]. replace (id - n) with (S (id - S n)) by lia. exact Hr.
    + intros [Hn Hr]. destruct (Nat.eq_dec id n) as [->|Ne].
      * rewrite Nat.sub_diag in Hr. cbn in Hr. injection Hr as ->. now left.
      * right. split; [lia|].
        replace (id - n) with (S (id - S n)) in Hr by lia. exact Hr.
Qed.

Lemma find_all_app (collection : list Booking.t) (b : Booking.t) :
  find_all (collection ++ [b])
  = (find_all collection ++ [(List.length collection, b)])%list.
Proof. unfold find_all. now rewrite combine_seq_app. Qed.

Lemma find_all_documents (collection : list Booking.t) :
  map snd (find_all collection) = collection
  /\ map fst (find_all collection) = seq 0 (List.length collection).
Proof.
  unfold find_all. generalize 0.
  induction collection as [|b r IH]; intros n; [split; reflexivity|].
  cbn [List.length seq combine map fst snd].
  destruct (IH (S n)) as [I1 I2]. now rewrite I1, I2.
Qed.

Lemma insert_newest_first_In d sorted x :
  In x (insert_newest_first d sorted) <-> x = d \/ In x sorted.
Proof.
  induction sorted as [|e r IH]; cbn [insert_newest_first].
  - cbn. intuition.
  - destruct (_ <=? _)%Z; cbn [In]; [intuition|]. rewrite IH. intuition.
Qed.

Lemma insert_newest_first_length d sorted :
  List.length (insert_newest_first d sorted) = S (List.length sorted).
Proof.
  induction sorted as [|e r IH]; cbn [insert_newest_first]; [reflexivity|].
  destruct (_ <=? _)%Z; cbn [List.length]; now rewrite ?IH.
Qed.

Lemma insert_newest_first_sorted d sorted :
  newest_first sorted -> newest_first (insert_newest_first d sorted).
Proof.
  induction sorted as [|e r IH]; intros H; cbn [insert_newest_first].
  - exact I.
  - destruct (Z.leb_spec (Booking.createdAt (snd e)) (Booking.createdAt (snd d)))
      as [L|L].
    + cbn [newest_first]. now split.
    + destruct r as [|f r]; cbn [insert_newest_first] in *.
      * cbn [newest_first]. split; [lia | exact I].
      * destruct H as [H1 H2]. specialize (IH H2).
        destruct (Z.leb_spec (Booking.createdAt (snd f)) (Booking.createdAt (snd d)));
          cbn [newest_first] in *; repeat split; try lia; try tauto.
Qed.

Lemma sort_newest_first_spec (docs : list (nat * Booking.t)) :
  newest_first (sort_newest_first docs)
  /\ (forall d, In d (sort_newest_first docs) <-> In d docs)
  /\ List.length (sort_newest_first docs) = List.length docs.
Proof.
  unfold sort_newest_first.
  induction docs as [|d r (S & M & L)]; cbn [fold_right].
  - repeat split; tauto.
  - split; [now apply insert_newest_first_sorted|]. split.
    + intros x. rewrite insert_newest_first_In, M. cbn [In]. intuition.
    + now rewrite insert_newest_first_length, L.
Qed.

Lemma newest_first_nth (docs : list (nat * Booking.t)) : forall i a b,
  newest_first docs ->
  nth_error docs i = Some a -> nth_error docs (S i) = Some b ->
  (Booking.createdAt (snd b) <= Booking.createdAt (snd a))%Z.
Proof.
  induction docs as [|x r IH]; intros i a b H Ha Hb; [now destruct i|].
  destruct r as [|y r]; [now destruct i|].
  destruct H as [H1 H2]. destruct i as [|i].
  - cbn in Ha, Hb. now injection Ha as <-; injection Hb as <-.
  - apply (IH i a b H2); assumption.
Qed.

(** X16: with the datastore reachable, [GET] answers 200 with every
    stored booking exactly once, newest first, each with its identifier,
    and with [count] equal to the size of the collection; with the
    datastore unreachable it answers 500 with the error
    [Failed to fetch bookings]. *)
Theorem GET_lists_every_booking_newest_first
    (toISOString : Z -> string) (collection : list Booking.t) :
  let listed := sort_newest_first (find_all collection) in
  GET toISOString (Returned collection)
  = (200, JObj [("success", JBool true);
                ("count", JCount (List.length collection));
                ("bookings", JArr (map (Booking_to_json toISOString) listed))])
  /\ (forall id booking,
         In (id, booking) listed <-> nth_error collection id = Some booking)
  /\ List.length listed = List.length collection
  /\ (forall i a b,
         nth_error listed i = Some a -> nth_error listed (S i) = Some b ->
         (Booking.createdAt (snd b) <= Booking.createdAt (snd a))%Z)
  /\ (forall e,
         GET toISOString (Thrown e)
         = (500, JObj [("error", JStr "Failed to fetch bookings")])).
Proof.
  cbv zeta.
  destruct (sort_newest_first_spec (find_all collection)) as (S & M & L).
  assert (Len : List.length (find_all collection) = List.length collection).
  { rewrite <- (proj1 (find_all_documents collection)) at 2. now rewrite length_map. }
  split; [|split; [|split; [|split]]].
  - unfold GET. now rewrite L, Len.
  - intros id booking. rewrite M. unfold find_all.
    rewrite combine_seq_In, Nat.sub_0_r. split; [now intros [_ H] | split; [lia | assumption]].
  - now rewrite L.
  - intros i a b. now apply newest_first_nth.
  - reflexivity.
Qed.

Lemma sort_newest_first_push (docs : list (nat * Booking.t)) (d : nat * Booking.t) :
  Forall (fun e => (Booking.createdAt (snd e) < Booking.createdAt (snd d))%Z) docs ->
  sort_newest_first (docs ++ [d]) = d :: sort_newest_first docs.
Proof.
  unfold sort_newest_first. rewrite fold_right_app. cbn [fold_right insert_newest_first].
  induction 1 as [|e r He _ IH]; [reflexivity|].
  cbn [fold_right]. rewrite IH. cbn [insert_newest_first].
  destruct (Z.leb_spec (Booking.createdAt (snd d)) (Booking.createdAt (snd e)));
    [lia | reflexivity].
Qed.

(** X17: a booking created by [POST] at a clock reading later than every
    stored booking is the first entry of the next [GET], under the
    identifier [POST] returned as [bookingId]; the bookings listed before
    follow it in the order they had, and [count] has grown by one. *)
Theorem posted_booking_is_listed_first
    (toISOString : Z -> string) (now : Z) (b email phone name : json)
    (collection : list Booking.t) :
  prop b "email" = Some email -> prop b "phone" = Some phone ->
  prop b "name" = Some name ->
  truthy (Some email) = true -> truthy (Some phone) = true ->
  truthy (Some name) = true ->
  Forall (fun old => (Booking.createdAt old < now)%Z) collection ->
  let booking := Booking.mk (Some email) (Some phone) (Some name) now in
  let posted := POST now (Returned b) (Returned collection) in
  fst posted
  = (201, JObj [("success", JBool true);
                ("message", JStr "Booking created successfully");
                ("bookingId", JCount (List.length collection))])
  /\ GET toISOString (snd posted)
     = (200,
        JObj [("success", JBool true);
              ("count", JCount (S (List.length collection)));
              ("bookings",
               JArr (Booking_to_json toISOString (List.length collection, booking)
                     :: map (Booking_to_json toISOString)
                            (sort_newest_first (find_all collection))))]).
Proof.
  intros He Hp Hn Te Tp Tn Hold booking posted. subst booking posted.
  rewrite (POST_creates_booking now b email phone name collection He Hp Hn Te Tp Tn).
  cbn [fst snd]. split; [reflexivity|].
  unfold GET. rewrite find_all_app, sort_newest_first_push.
  - cbn [List.length map].
    destruct (sort_newest_first_spec (find_all collection)) as (_ & _ & L).
    rewrite L. unfold find_all at 1.
    assert (Len : List.length (find_all collection) = List.length collection).
    { rewrite <- (proj1 (find_all_documents collection)) at 2. now rewrite length_map. }
    fold (find_all collection). now rewrite Len.
  - cbn [snd Booking.createdAt].
    rewrite <- (proj1 (find_all_documents collection)) in Hold.
    now rewrite Forall_map in Hold.
Qed.

Lemma posted_booking_is_listed_first_witness :
  GET (fun t => Z_to_string t)
      (snd (POST 30%Z
                 (Returned (JObj [("email", JStr "ann@example.com");
                                  ("phone", JStr "555-0100");
                                  ("name", JStr "Ann")]))
                 (Returned [Booking.mk (Some (JStr "bob@example.com"))
                                       (Some (JStr "555-0199"))
                                       (Some (JStr "Bob")) 20%Z])))
  = (200,
     JObj [("success", JBool true);
           ("count", JCount 2);
           ("bookings",
            JArr [JObj [("_id", JCount 1);
                        ("email", JStr "ann@example.com");
                        ("phone", JStr "555-0100");
                        ("name", JStr "Ann");
                        ("createdAt", JStr "30")];
                  JObj [("_id", JCount 0);
                        ("email", JStr "bob@example.com");
                        ("phone", JStr "555-0199");
                        ("name", JStr "Bob");
                        ("createdAt", JStr "20")]])]).
Proof.
  refine (proj2 (posted_booking_is_listed_first
                   (fun t => Z_to_string t) 30%Z
                   (JObj [("email", JStr "ann@example.com");
                          ("phone", JStr "555-0100");
                          ("name", JStr "Ann")])
                   (JStr "ann@example.com") (JStr "555-0100") (JStr "Ann")
                   [Booking.mk (Some (JStr "bob@example.com"))
                               (Some (JStr "555-0199"))
                               (Some (JStr "Bob")) 20%Z]
                   eq_refl eq_refl eq_refl eq_refl eq_refl eq_refl _)).
  repeat constructor.
Defined.

(** ** Database connection cache *)

Lemma connect_all_cached connects : forall m client db,
  cachedClient m = Some client -> cachedDb m = Some db ->
  connect_all connects m = (map (fun _ => Returned (client, db)) connects, m).
Proof.
  induction connects as [|c rest IH]; intros m client db Hc Hd; [reflexivity|].
  cbn [connect_all map]. unfold connectToDatabase. rewrite Hc, Hd.
  now rewrite (IH m client db Hc Hd).
Qed.

Lemma connect_all_empty connects : forall m,
  cachedClient m = None -> cachedDb m = None ->
  let results := fst (connect_all connects m) in
  let final := snd (connect_all connects m) in
  clients final = clients m + attempts connects
  /\ (cachedClient final = None <-> cachedDb final = None)
  /\ (cachedClient final = None <-> Forall (fun c => returns c = false) connects)
  /\ (forall i r, nth_error results i = Some (Returned r) ->
                  cachedClient final = Some (fst r) /\ cachedDb final = Some (snd r))
  /\ List.length results = List.length connects.
Proof.
  induction connects as [|c rest IH]; intros m Hc Hd; cbv zeta.
  - cbn. rewrite Hc, Hd, Nat.add_0_r.
    split; [reflexivity|]. split; [tauto|]. split; [split; auto|].
    split; [|reflexivity]. intros i r H. now destruct i.
  - cbn [connect_all]. unfold connectToDatabase. rewrite Hc, Hd.
    destruct c as [u|e].
    + rewrite (connect_all_cached rest
                 {| cachedClient := Some (clients m); cachedDb := Some (clients m);
                    clients := S (clients m) |}
                 (clients m) (clients m) eq_refl eq_refl).
      cbn [fst snd cachedClient cachedDb clients attempts]. split; [lia|].
      split; [split; discriminate|]. split.
      * split; [discriminate|]. intros H. inversion H as [|? ? F _]. discriminate F.
      * split; [|cbn; now rewrite length_map].
        intros i r H. destruct i as [|i]; cbn [nth_error] in H.
        -- now injection H as <-.
        -- rewrite nth_error_map in H. destruct (nth_error rest i); [|discriminate].
           now injection H as <-.
    + specialize (IH {| cachedClient := None; cachedDb := None;
                        clients := S (clients m) |} eq_refl eq_refl).
      cbv zeta in IH. destruct (connect_all rest _) as [results final].
      cbn [fst snd clients attempts] in *.
      destruct IH as (I1 & I2 & I3 & I4 & I5).
      split; [rewrite I1; lia|]. split; [exact I2|]. split; [|split].
      * rewrite I3. split; [now constructor|]. intros H. now inversion H.
      * intros i r H. destruct i as [|i]; [discriminate H|]. now apply (I4 i).
      * cbn. now rewrite I5.
Qed.

(** X18: over any run of calls made one after the other from an empty
    cache, the two cached handles are set together or not at all, every
    call that succeeds returns the same client and database handle, which
    are the cached ones, and a client is constructed only for the failed
    attempts up to the first success and for that success: once a
    connection has been made, no call constructs another client. *)
Theorem database_connection_is_made_once (connects : list (outcome unit)) :
  let results := fst (connect_all connects DbModule_initial) in
  let final := snd (connect_all connects DbModule_initial) in
  (cachedClient final = None <-> cachedDb final = None)
  /\ (cachedClient final = None <-> Forall (fun c => returns c = false) connects)
  /\ (forall i j r1 r2,
         nth_error results i = Some (Returned r1) ->
         nth_error results j = Some (Returned r2) ->
         r1 = r2 /\ cachedClient final = Some (fst r1)
         /\ cachedDb final = Some (snd r1))
  /\ clients final = attempts connects
  /\ List.length results = List.length connects.
Proof.
  cbv zeta.
  destruct (connect_all_empty connects DbModule_initial eq_refl eq_refl)
    as (I1 & I2 & I3 & I4 & I5).
  cbv zeta in *. cbn [clients DbModule_initial plus] in I1.
  split; [exact I2|]. split; [exact I3|]. split; [|now split].
  intros i j r1 r2 H1 H2.
  destruct (I4 i r1 H1) as [A1 B1]. destruct (I4 j r2 H2) as [A2 B2].
  split; [|now split].
  destruct r1, r2. cbn in *. congruence.
Qed.

Lemma database_connection_is_made_once_witness :
  fst (connect_all [Thrown NotOpenError; Returned tt; Thrown NotOpenError; Returned tt]
                   DbModule_initial)
  = [Thrown NotOpenError; Returned (1, 1); Returned (1, 1); Returned (1, 1)]
  /\ clients (snd (connect_all [Thrown NotOpenError; Returned tt;
                               Thrown NotOpenError; Returned tt]
                              DbModule_initial)) = 2.
Proof.
  split; [reflexivity|].
  apply (database_connection_is_made_once
           [Thrown NotOpenError; Returned tt; Thrown NotOpenError; Returned tt]).
Defined.

(** ** Bookings page *)

Lemma fetchBookings_cases (response : outcome json) (st : BookingPage) :
  let st' := fetchBookings response st in
  loading st' = false
  /\ (is_success_response response = true ->
      exists data, response = Returned data
                   /\ bookings st' = prop data "bookings" /\ error st' = error st)
  /\ (is_success_response response = false ->
      bookings st' = bookings st
      /\ exists message, error st' = Some message /\ truthy (Some message) = true).
Proof.
  cbv zeta. unfold fetchBookings, is_success_response.
  destruct response as [data|e]; cbn [bind].
  - destruct data; cbn [get_prop bind truthy prop];
      try (split; [reflexivity|]; split; [discriminate|]; intros _;
           split; [reflexivity|]; eexists; split; reflexivity).
    destruct (truthy (assoc "success" fields)) eqn:S.
    + split; [reflexivity|]. split; [|discriminate]. intros _.
      exists (JObj fields). now repeat split.
    + split; [reflexivity|]. split; [discriminate|]. intros _.
      split; [reflexivity|]. cbn [error].
      destruct (truthy (assoc "error" fields)) eqn:T.
      * destruct (assoc "error" fields) as [message|]; [|discriminate].
        now exists message.
      * eexists. split; reflexivity.
  - split; [reflexivity|]. split; [discriminate|]. intros _.
    split; [reflexivity|]. eexists. split; reflexivity.
Qed.

Lemma refresh_all_snoc responses response st :
  refresh_all (responses ++ [response]) st
  = fetchBookings response (refresh_all responses st).
Proof. unfold refresh_all. now rewrite fold_left_app. Qed.

Lemma refresh_all_error (responses : list (outcome json)) :
  let st := refresh_all responses BookingPage_initial in
  (forallb is_success_response responses = true -> error st = None)
  /\ (forallb is_success_response responses = false ->
      exists message, error st = Some message /\ truthy (Some message) = true).
Proof.
  cbv zeta. induction responses as [|response responses IH] using rev_ind.
  - split; [reflexivity | discriminate].
  - rewrite refresh_all_snoc, forallb_app. cbn [forallb]. rewrite andb_true_r.
    destruct (fetchBookings_cases response (refresh_all responses BookingPage_initial))
      as (_ & S & F). cbv zeta in *.
    destruct (is_success_response response) eqn:R.
    + destruct (S eq_refl) as (data & _ & _ & E). rewrite E, andb_true_r. exact IH.
    + destruct (F eq_refl) as (_ & message & E & T). rewrite andb_false_r.
      split; [discriminate|]. intros _. now exists message.
Qed.

(** X19: once a refresh of the bookings page has failed, the error stays:
    after any series of refreshes the error is unset exactly when every
    one of them succeeded, and a later successful refresh replaces the
    list but leaves the error banner on.  A failed refresh keeps the list
    that was shown, and after every refresh the page is no longer
    loading. *)
Theorem booking_page_error_is_never_cleared
    (responses : list (outcome json)) (response : outcome json) :
  let st := refresh_all responses BookingPage_initial in
  let st' := fetchBookings response st in
  (error st = None <-> forallb is_success_response responses = true)
  /\ (error_banner_shown st = true -> error_banner_shown st' = true)
  /\ (is_success_response response = true ->
      exists data, response = Returned data
                   /\ bookings st' = prop data "bookings" /\ error st' = error st)
  /\ (is_success_response response = false ->
      bookings st' = bookings st /\ error_banner_shown st' = true)
  /\ loading st' = false.
Proof.
  cbv zeta.
  destruct (refresh_all_error responses) as [A B]. cbv zeta in *.
  destruct (fetchBookings_cases response (refresh_all responses BookingPage_initial))
    as (L & S & F). cbv zeta in *.
  split; [|split; [|split; [|split]]].
  - split; intros H.
    + destruct (forallb is_success_response responses); [reflexivity|].
      destruct (B eq_refl) as (message & E & _). congruence.
    + now apply A.
  - unfold error_banner_shown. intros H.
    destruct (is_success_response response) eqn:R.
    + destruct (S eq_refl) as (data & _ & _ & E). now rewrite E.
    + destruct (F eq_refl) as (_ & message & E & T). now rewrite E.
  - exact S.
  - intros H. destruct (F H) as (K & message & E & T). split; [exact K|].
    unfold error_banner_shown. now rewrite E.
  - exact L.
Qed.

Lemma booking_page_error_is_never_cleared_witness :
  let st := refresh_all [Thrown SyntaxError] BookingPage_initial in
  let again := Returned (JObj [("success", JBool true);
                               ("count", JCount 0);
                               ("bookings", JArr [])]) in
  error_banner_shown (fetchBookings again st) = true
  /\ bookings (fetchBookings again st) = Some (JArr []).
Proof.
  cbv zeta.
  destruct (booking_page_error_is_never_cleared
              [Thrown SyntaxError]
              (Returned (JObj [("success", JBool true);
                               ("count", JCount 0);
                               ("bookings", JArr [])])))
    as (_ & H & _).
  split; [apply H; reflexivity | reflexivity].
Defined.

(** X20: the page and the route together.  When the datastore is
    reachable, a refresh sets the list of the page to the stored bookings,
    newest first, and leaves the error as it was; when it is not, the
    route's 500 body makes the page keep its list and show
    [Failed to fetch bookings]. *)
Theorem booking_page_shows_what_GET_returns
    (toISOString : Z -> string) (db : outcome (list Booking.t)) (st : BookingPage) :
  let st' := fetchBookings (Returned (snd (GET toISOString db))) st in
  loading st' = false
  /\ (forall collection,
         db = Returned collection ->
         bookings st'
         = Some (JArr (map (Booking_to_json toISOString)
                           (sort_newest_first (find_all collection))))
         /\ error st' = error st)
  /\ (forall e,
         db = Thrown e ->
         bookings st' = bookings st
         /\ error st' = Some (JStr "Failed to fetch bookings")).
Proof.
  cbv zeta. split; [|split].
  - now destruct db.
  - now intros collection ->.
  - now intros e ->.
Qed.

Lemma booking_page_shows_what_GET_returns_witness :
  bookings (fetchBookings
              (Returned (snd (GET (fun t => Z_to_string t)
                                  (Returned [Booking.mk (Some (JStr "bob@example.com"))
                                                        (Some (JStr "555-0199"))
                                                        (Some (JStr "Bob")) 20%Z]))))
              BookingPage_initial)
  = Some (JArr [JObj [("_id", JCount 0);
                      ("email", JStr "bob@example.com");
                      ("phone", JStr "555-0199");
                      ("name", JStr "Bob");
                      ("createdAt", JStr "20")]]).
Proof.
  destruct (booking_page_shows_what_GET_returns
              (fun t => Z_to_string t)
              (Returned [Booking.mk (Some (JStr "bob@example.com"))
                                    (Some (JStr "555-0199"))
                                    (Some (JStr "Bob")) 20%Z])
              BookingPage_initial) as (_ & H & _).
  exact (proj1 (H _ eq_refl)).
Defined.

(** ** The chat route's tools against the relay's dispatcher *)

Open Scope string_scope.

(** X21: the tools of the chat route and the dispatcher of the voice relay
    answer alike: for every call with a validated input, the dispatcher
    returns (it does not throw), the two results are both failures or the
    same success with the same payload, and the failures differ at most in
    the wording of the message. *)
Theorem chat_tools_agree_with_relay_dispatcher
    (pf : Platform) (kb : KnowledgeBase) (c : InfoBank.call) :
  exists r,
    executeTool pf kb (Some (JStr (fst (InfoBank.as_relay_call c))))
                (snd (InfoBank.as_relay_call c)) = Returned r
    /\ same_answer (InfoBank.execute pf kb c) r
    /\ success (InfoBank.execute pf kb c) = success r.
Proof.
  destruct c as [name|designation| | |[term|]|query|category];
    cbn [InfoBank.as_relay_call fst snd InfoBank.execute].
  - unfold executeTool, InfoBank.getEmployeeByName.
    cbn [String.eqb Ascii.eqb Bool.eqb get_prop assoc bind call_toLowerCase].
    destruct (_ =? 0)%nat; eexists; repeat split.
  - unfold executeTool, InfoBank.getEmployeeByDesignation.
    cbn [String.eqb Ascii.eqb Bool.eqb get_prop assoc bind call_toLowerCase].
    destruct (_ =? 0)%nat; eexists; repeat split.
  - eexists. repeat split.
  - eexists. repeat split.
  - unfold executeTool, InfoBank.getServices.
    cbn [String.eqb Ascii.eqb Bool.eqb get_prop assoc bind call_toLowerCase truthy].
    destruct (negb (term =? EmptyString)); cbn [bind call_toLowerCase];
      [destruct (_ =? 0)%nat|]; eexists; repeat split.
  - eexists. repeat split.
  - unfold executeTool, InfoBank.searchFAQ.
    cbn [String.eqb Ascii.eqb Bool.eqb get_prop assoc bind call_toLowerCase].
    destruct (_ =? 0)%nat; eexists; repeat split.
  - unfold executeTool, InfoBank.getFAQsByCategory.
    cbn [String.eqb Ascii.eqb Bool.eqb get_prop assoc bind call_toLowerCase].
    destruct (find _ _); eexists; repeat split.
Qed.

(** ** Relay session: the upstream log *)

Open Scope list_scope.

Lemma upstream_frame_more_events pf session_update kb es es' frame :
  upstream_frame pf session_update kb es frame ->
  upstream_frame pf session_update kb (es ++ es') frame.
Proof.
  assert (A : forall msg result,
             answered_call pf kb es msg result ->
             answered_call pf kb (es ++ es') msg result).
  { intros msg result (data & args & Hin & H). exists data, args.
    split; [apply in_or_app; now left | exact H]. }
  intros [Hin|data message Hin P|msg result C|msg result C].
  - apply frame_session_update. apply in_or_app. now left.
  - apply (frame_client_message _ _ _ _ data); [apply in_or_app; now left | exact P].
  - apply frame_tool_output. now apply A.
  - apply (frame_response_create _ _ _ _ msg result). now apply A.
Qed.

(** The test of the tool-call branch, read back. *)
Lemma tool_call_branch pf text msg ty :
  (msg0 <- parse pf text ;; ty0 <- get_prop msg0 "type" ;; Returned (msg0, ty0))
  = Returned (msg, ty) ->
  strict_eq_string ty "response.function_call_arguments.done" = true ->
  JSON_parse pf text = Some msg
  /\ prop msg "type" = Some (JStr "response.function_call_arguments.done").
Proof.
  unfold parse. destruct (JSON_parse pf text) as [m|]; cbn [bind]; [|discriminate].
  destruct m; cbn [get_prop bind]; try discriminate; intros [= <- <-] E;
    try discriminate E.
  apply strict_eq_string_true in E. now split.
Qed.

Lemma handle_tool_call_frames pf session_update kb es data msg up :
  In (OpenaiMessage data) es ->
  JSON_parse pf (toString pf data) = Some msg ->
  prop msg "type" = Some (JStr "response.function_call_arguments.done") ->
  Forall (upstream_frame pf session_update kb es) (sent up) ->
  Forall (upstream_frame pf session_update kb es)
         (sent (handle_tool_call pf kb msg up)).
Proof.
  intros Hin Hp Ht H. unfold handle_tool_call, parse.
  destruct (JSON_parse pf (ToString_val _)) as [args|] eqn:Ha; cbn [bind]; [|exact H].
  destruct (executeTool pf kb _ args) as [result|e] eqn:E; [|exact H].
  assert (C : answered_call pf kb es msg result).
  { exists data, args. now repeat split. }
  destruct (ws_send up _) as [up1|e1] eqn:E1; [|exact H].
  assert (H1 : Forall (upstream_frame pf session_update kb es) (sent up1)).
  { rewrite (ws_send_sent _ _ _ E1). apply Forall_app. split; [exact H|].
    destruct (is_OPEN _); constructor; [|constructor].
    now apply frame_tool_output. }
  destruct (ws_send up1 _) as [up2|e2] eqn:E2; [|exact H1].
  rewrite (ws_send_sent _ _ _ E2). apply Forall_app. split; [exact H1|].
  destruct (is_OPEN _); constructor; [|constructor].
  now apply (frame_response_create _ _ _ _ msg result).
Qed.

Lemma deliver_frames pf session_update kb es s e :
  Forall (upstream_frame pf session_update kb es) (sent (openaiWs s)) ->
  Forall (upstream_frame pf session_update kb (es ++ [e]))
         (sent (openaiWs (deliver pf session_update kb s e))).
Proof.
  intros H0.
  assert (H : Forall (upstream_frame pf session_update kb (es ++ [e]))
                     (sent (openaiWs s))).
  { eapply Forall_impl; [|exact H0]. intros frame.
    apply upstream_frame_more_events. }
  assert (Hin : In e (es ++ [e])) by (apply in_or_app; right; now left).
  clear H0. destruct e; cbn [deliver].
  - unfold on_openai_open. cbn [openaiWs clientWs].
    rewrite ws_send_open by reflexivity. cbn [openaiWs sent with_state].
    apply Forall_app. split; [exact H|]. constructor; [|constructor].
    now apply frame_session_update.
  - exact H.
  - unfold on_client_message, parse.
    destruct (JSON_parse pf (toString pf data)) as [message|] eqn:P; [|exact H].
    destruct (is_OPEN _) eqn:O; [|exact H].
    apply is_OPEN_true in O. rewrite (ws_send_open _ _ O). cbn [openaiWs sent].
    apply Forall_app. split; [exact H|]. constructor; [|constructor].
    exact (frame_client_message _ _ _ _ _ _ Hin P).
  - unfold on_openai_message. cbn [openaiWs].
    destruct (bind _ _) as [[msg ty]|err] eqn:B; [|exact H].
    destruct (strict_eq_string ty _) eqn:T; [|exact H].
    destruct (tool_call_branch _ _ _ _ B T) as [Hp Ht].
    now apply (handle_tool_call_frames _ _ _ _ data).
  - unfold on_client_close. cbn [openaiWs clientWs].
    destruct (is_OPEN _); [|exact H]. cbn [openaiWs].
    unfold ws_close. now destruct (readyState (openaiWs s)).
  - unfold on_openai_close. cbn [openaiWs clientWs].
    now destruct (is_OPEN _).
Qed.

(** X22: over any run of events, every frame the relay has written to the
    upstream connection is accounted for by an event of that run: it is
    the [session.update] message, and the upstream has opened; or the
    [JSON.stringify] of the message that the text of a client frame of the
    run parsed to; or, for an upstream frame of the run that is a tool call
    whose arguments parsed and whose dispatch returned, the
    [function_call_output] with its [call_id] and serialised result, or
    the [response.create] that follows it.  The relay writes nothing else
    upstream. *)
Theorem upstream_gets_only_relay_frames
    (pf : Platform) (session_update : json) (kb : KnowledgeBase)
    (es : list event) :
  Forall (upstream_frame pf session_update kb es)
         (sent (openaiWs (run pf session_update kb handleRealtimeConnection es))).
Proof.
  assert (G : forall es0 s,
             Forall (upstream_frame pf session_update kb es0) (sent (openaiWs s)) ->
             Forall (upstream_frame pf session_update kb (es0 ++ es))
                    (sent (openaiWs (run pf session_update kb s es)))).
  { induction es as [|e es IH]; intros es0 s H; [now rewrite app_nil_r|].
    rewrite run_cons.
    replace (es0 ++ e :: es) with ((es0 ++ [e]) ++ es)
      by (rewrite <- app_assoc; reflexivity).
    apply IH. now apply deliver_frames. }
  apply (G [] handleRealtimeConnection). constructor.
Qed.

(** ** Voice assistant page: stopping *)

Open Scope Q_scope.

(** X23: [cleanup] stops every source of the queue and empties the queue,
    closes the audio context, stops the microphone tracks, disconnects the
    processor and clears the listening flag, but leaves the schedule
    cursor where it was (unlike a barge-in); doing it twice changes
    nothing more.  After the Stop button the status is [Stopped] and the
    page still counts as connected; the close event of the socket then
    sets the status to [Disconnected] and marks the page as not
    connected. *)
Theorem stop_button_then_close_event (a : Assistant) :
  let after_stop := stopAssistant a in
  let after_close := ws_onclose after_stop in
  status after_stop = "Stopped"%string
  /\ isConnected after_stop = isConnected a
  /\ status after_close = "Disconnected"%string
  /\ isConnected after_close = false
  /\ isListening after_stop = false
  /\ audioQueueRef (page after_stop) = []
  /\ (forall ref n,
         In ref (audioQueueRef (page a)) -> nth_error (nodes (page a)) ref = Some n ->
         exists n', nth_error (nodes (page after_stop)) ref = Some n'
                    /\ stopped n' = true)
  /\ nextStartTimeRef (page after_stop) = nextStartTimeRef (page a)
  /\ (forall ctx, audioContextRef (page a) = Some ctx ->
                  audioContextRef (page after_stop) = Some closed)
  /\ (forall ws, wsRef a = Some ws -> readyState ws = OPEN ->
                 exists ws', wsRef after_stop = Some ws' /\ readyState ws' = CLOSING)
  /\ cleanup (cleanup a) = cleanup a
  /\ page after_close = page after_stop.
Proof.
  cbv zeta. unfold stopAssistant, ws_onclose, cleanup.
  cbn [page wsRef streamRef processorRef isConnected isListening status
       audioContextRef nodes audioQueueRef nextStartTimeRef fold_left].
  repeat split.
  - intros ref n Hin Hn.
    destruct (stop_all_nth (audioQueueRef (page a)) (nodes (page a)) ref n Hn)
      as (n' & E & S).
    exists n'. split; [exact E|]. apply S. now right.
  - intros ctx ->. reflexivity.
  - intros ws -> O. cbn [option_map]. eexists. split; [reflexivity|].
    unfold ws_close. now rewrite O.
  - destruct (audioContextRef (page a)), (streamRef a), (processorRef a); reflexivity.
  - now destruct (audioContextRef (page a)).
Qed.

(** ** Playback: a backlog of chunks *)

Lemma play_all_cons pf c chunks p :
  play_all pf (c :: chunks) p = play_all pf chunks (playAudioChunk pf (fst c) (snd c) p).
Proof. reflexivity. Qed.

Lemma play_all_back_to_back pf (chunks : list (Q * string)) : forall p,
  audioContextRef p <> None ->
  0 <= nextStartTimeRef p ->
  is_double (nextStartTimeRef p) ->
  Forall (fun c => fst c <= nextStartTimeRef p) chunks ->
  exists added,
    nodes (play_all pf chunks p) = nodes p ++ added
    /\ Forall2 (fun n c => channelData n = snd c) added (playable pf chunks)
    /\ back_to_back (nextStartTimeRef p) added (nextStartTimeRef (play_all pf chunks p)).
Proof.
  induction chunks as [|[t b] chunks IH]; intros p Hctx H0 Hd Hall.
  - exists []. cbn. rewrite app_nil_r. repeat split. constructor.
  - inversion Hall as [|? ? Ht Hrest]; subst. cbn [fst] in Ht.
    rewrite play_all_cons. unfold playable in *. cbn [fst snd flat_map].
    destruct (audioContextRef p) as [ctx|] eqn:Ectx; [|congruence].
    assert (Hctx' : audioContextRef (playAudioChunk pf t b p) <> None).
    { unfold playAudioChunk. rewrite Ectx. now destruct (bind _ _). }
    specialize (IH (playAudioChunk pf t b p) Hctx').
    revert IH. unfold playAudioChunk. rewrite Ectx.
    destruct (bind (decode_chunk pf b) _) as [samples|e];
      cbn [nodes nextStartTimeRef app]; intros IH.
    + set (src := {| channelData := samples;
                     startTime := Qmax t (nextStartTimeRef p);
                     stopped := false |}) in *.
      assert (S : startTime src == nextStartTimeRef p).
      { cbn [src startTime]. apply Q.max_r. exact Ht. }
      pose proof (duration_nonneg src) as Hdur.
      assert (Hx : 0 <= startTime src + duration src) by lra.
      assert (Hup : nextStartTimeRef p <= scheduled_end src)
        by (apply to_double_lower; [exact Hx | exact Hd | lra]).
      fold (scheduled_end src) in IH.
      destruct IH as (added & N & F2 & B).
      * now apply to_double_nonneg.
      * now apply to_double_is_double.
      * eapply Forall_impl; [|exact Hrest]. cbv beta. intros c Hc.
        eapply Qle_trans; [exact Hc | exact Hup].
      * exists (src :: added). rewrite N, <- app_assoc. split; [reflexivity|].
        split; [constructor; [reflexivity | exact F2]|].
        cbn [back_to_back]. split; [exact S | exact B].
    + destruct (IH H0 Hd Hrest) as (added & N & F2 & B).
      exists added. now repeat split.
Qed.

Lemma back_to_back_nth (l : list SourceNode) : forall c final i a b,
  0 <= c ->
  back_to_back c l final ->
  nth_error l i = Some a -> nth_error l (S i) = Some b ->
  0 <= startTime a /\ startTime b == scheduled_end a.
Proof.
  induction l as [|x r IH]; intros c final i a b H0 H Ha Hb;
    [destruct i; discriminate|].
  destruct H as [Hx Hr]. destruct i as [|i].
  - injection Ha as <-. destruct r as [|y r']; [discriminate|].
    injection Hb as <-. destruct Hr as [Hy _]. split; [lra | exact Hy].
  - apply (IH (scheduled_end x) final i a b); try assumption.
    apply to_double_nonneg. pose proof (duration_nonneg x). lra.
Qed.

(** X24: on a page with an audio context whose cursor is a non-negative
    double, chunks that all arrive no later than the cursor are played
    back to back: the sources added are the playable chunks in order, the
    first starts exactly at the cursor, each next one exactly at the double
    sum start + duration of the previous one, which is within a relative
    error of 2^-53 of the exact end of the previous one, and the cursor is
    left at the double sum of the last one. *)
Theorem backlog_is_played_back_to_back
    (pf : Platform) (chunks : list (Q * string)) (p : Page) :
  audioContextRef p <> None ->
  0 <= nextStartTimeRef p ->
  is_double (nextStartTimeRef p) ->
  Forall (fun c => fst c <= nextStartTimeRef p) chunks ->
  let p' := play_all pf chunks p in
  exists added,
    nodes p' = nodes p ++ added
    /\ Forall2 (fun n c => channelData n = snd c) added (playable pf chunks)
    /\ back_to_back (nextStartTimeRef p) added (nextStartTimeRef p')
    /\ (forall i a b,
           nth_error added i = Some a -> nth_error added (S i) = Some b ->
           startTime b == to_double (startTime a + duration a)
           /\ (startTime a + duration a)
              - (startTime a + duration a) * pow2 (-53) <= startTime b
           /\ startTime b
              <= (startTime a + duration a)
                 + (startTime a + duration a) * pow2 (-53)).
Proof.
  intros Hctx H0 Hd H p'. subst p'.
  destruct (play_all_back_to_back pf chunks p Hctx H0 Hd H) as (added & N & F2 & B).
  exists added. split; [exact N|]. split; [exact F2|]. split; [exact B|].
  intros i a b Ha Hb.
  destruct (back_to_back_nth _ _ _ i a b H0 B Ha Hb) as [Hs Hab].
  assert (Hne : channelData a <> []).
  { assert (Hin : In a added) by (eapply nth_error_In; eassumption).
    pose proof (playable_nonempty pf chunks) as Hp.
    clear - F2 Hp Hin. induction F2 as [|n c l l' E _ IH]; [destruct Hin|].
    inversion Hp as [|? ? Hc Hp']; subst.
    destruct Hin as [<-|Hin]; [now rewrite E | now apply IH]. }
  destruct (scheduled_end_error a Hs Hne) as [Hlow Hhigh]. cbv zeta in Hlow, Hhigh.
  unfold scheduled_end in *. split; [exact Hab|]. rewrite Hab. now split.
Qed.

Lemma backlog_is_played_back_to_back_witness :
  let p := playAudioChunk browser 1 "QUJD" page_started in
  let chunks := [(1, "QUJDRA=="); (1 # 2, "?"); (1, "QUJD")] in
  exists added,
    nodes (play_all browser chunks p) = nodes p ++ added
    /\ Forall2 (fun n c => channelData n = snd c) added (playable browser chunks)
    /\ back_to_back (nextStartTimeRef p) added
         (nextStartTimeRef (play_all browser chunks p))
    /\ (forall i a b,
           nth_error added i = Some a -> nth_error added (S i) = Some b ->
           startTime b == to_double (startTime a + duration a)
           /\ (startTime a + duration a)
              - (startTime a + duration a) * pow2 (-53) <= startTime b
           /\ startTime b
              <= (startTime a + duration a)
                 + (startTime a + duration a) * pow2 (-53)).
Proof.
  cbv zeta.
  apply (backlog_is_played_back_to_back browser
           [(1, "QUJDRA=="); (1 # 2, "?"); (1, "QUJD")]
           (playAudioChunk browser 1 "QUJD" page_started)).
  - discriminate.
  - vm_compute. discriminate.
  - exists (Qnum (nextStartTimeRef (playAudioChunk browser 1 "QUJD" page_started))),
      (-52)%Z.
    split; [vm_compute; reflexivity | split; [lia | vm_compute; reflexivity]].
  - repeat constructor; vm_compute; discriminate.
Defined.

(** ** Codec: the range of what comes back *)

Lemma encode_sample_above_low (x : Q) : -1 < x -> (-32767 <= encode_sample x)%Z.
Proof.
  intros H. rewrite encode_sample_eq.
  assert (C : -1 < clamp x).
  { unfold clamp.
    destruct (Q.min_spec 1 x) as [[H1 E1]|[H1 E1]];
      destruct (Q.max_spec (-1) (Qmin 1 x)) as [[H2 E2]|[H2 E2]]; lra. }
  set (s := clamp x) in *. clearbody s.
  destruct (Qltb s 0) eqn:E.
  - apply Qltb_true in E.
    destruct (Qtrunc_neg (s * 32768)) as (_ & L & U); [lra|].
    assert (K : (-32768 < Qtrunc (s * 32768))%Z)
      by (apply inject_Z_lt_inv; change (inject_Z (-32768)) with (-32768); lra).
    lia.
  - apply Qltb_false in E.
    destruct (Qtrunc_nonneg (s * 32767)) as (_ & L & U); [lra|].
    assert (K : (-1 < Qtrunc (s * 32767))%Z)
      by (apply inject_Z_lt_inv; change (inject_Z (-1)) with (-1); lra).
    lia.
Qed.

(** X25: whatever the captured sample, what the playback path decodes
    from its code lies in [-32768/32767, 1].  The encoder scales negative
    samples by 32768 but the decoder divides by 32767 for both signs, so a
    sample of -1 or less (and no other) comes back below -1, as
    -32768/32767; it is below -1 also after the two IEEE roundings. *)
Theorem decoded_sample_range (x : Q) :
  -32768 # 32767 <= decode_sample (encode_sample x) <= 1
  /\ (decode_sample (encode_sample x) < -1 <-> x <= -1)
  /\ (x <= -1 -> decode_sample (encode_sample x) == -32768 # 32767)
  /\ (x <= -1 -> is_float32 x ->
      decode_sample_ieee (encode_sample_ieee x) < -1).
Proof.
  pose proof (ToInt16_range (if Qltb (clamp x) 0 then clamp x * 32768
                             else clamp x * 32767)) as R.
  fold (encode_sample x) in R.
  assert (L : inject_Z (-32768) <= inject_Z (encode_sample x))
    by (rewrite <- Zle_Qle; lia).
  assert (U : inject_Z (encode_sample x) <= inject_Z 32767)
    by (rewrite <- Zle_Qle; lia).
  change (inject_Z (-32768)) with (-32768) in L.
  change (inject_Z 32767) with 32767 in U.
  split; [|split; [|split]].
  - unfold decode_sample, Qdiv. change (/ 32767) with (1 # 32767). split; lra.
  - split.
    + intros H. destruct (Qlt_le_dec (-1) x) as [G|G]; [|exact G].
      pose proof (encode_sample_above_low x G) as A.
      assert (K : inject_Z (-32767) <= inject_Z (encode_sample x))
        by (rewrite <- Zle_Qle; lia).
      change (inject_Z (-32767)) with (-32767) in K.
      unfold decode_sample, Qdiv in H. change (/ 32767) with (1 # 32767) in H. lra.
    + intros H. now rewrite (encode_sample_low x H).
  - intros H. now rewrite (encode_sample_low x H).
  - intros H F. rewrite (encode_sample_ieee_exact x F), (encode_sample_low x H).
    vm_compute. reflexivity.
Qed.

(** ** Playback: the length of a chunk *)

(** X26: a chunk whose payload decodes to [n] bytes, [n] at least 1, is
    scheduled as one source of [(n + 1) / 2] samples (integer division),
    started at max(currentTime, cursor); its duration is the double
    quotient of that number by 24000, within a relative error of 2^-53 of
    the exact quotient, and the cursor moves to the double sum of the
    start time and that duration. *)
Theorem chunk_duration_from_payload_size
    (pf : Platform) (t : Q) (base64Audio binaryString : string) (p : Page)
    (ctx : AudioContextState) :
  audioContextRef p = Some ctx ->
  atob pf base64Audio = Some binaryString ->
  binaryString <> EmptyString ->
  let p' := playAudioChunk pf t base64Audio p in
  let samples := ((String.length binaryString + 1) / 2)%nat in
  let exact := inject_Z (Z.of_nat samples) / 24000 in
  exists src,
    nodes p' = nodes p ++ [src]
    /\ List.length (channelData src) = samples
    /\ startTime src = Qmax t (nextStartTimeRef p)
    /\ duration src = to_double exact
    /\ exact - exact * pow2 (-53) <= duration src
    /\ duration src <= exact + exact * pow2 (-53)
    /\ nextStartTimeRef p' = to_double (startTime src + duration src).
Proof.
  intros Hctx Ha Hne p' samples exact. subst p' samples exact.
  destruct (decode_chunk_returns pf base64Audio binaryString Ha) as (float32 & D & L).
  assert (N : float32 <> []).
  { intros ->. change (List.length (@nil Q)) with 0%nat in L.
    destruct binaryString as [|c r]; [congruence|].
    cbn [String.length] in L.
    assert (1 <= (S (String.length r) + 1) / 2)%nat
      by (apply Nat.div_le_lower_bound; lia).
    lia. }
  unfold playAudioChunk. rewrite Hctx, D. cbn [bind].
  destruct float32 as [|x xs]; [congruence|]. cbn [createBuffer nodes nextStartTimeRef].
  eexists. split; [reflexivity|]. cbn [channelData startTime].
  split; [exact L|]. split; [reflexivity|].
  unfold duration. cbn [channelData]. rewrite L.
  split; [reflexivity|].
  assert (B : pow2 (-1074 + (53 - 1))
              <= inject_Z (Z.of_nat ((String.length binaryString + 1) / 2)) / 24000).
  { assert (P : pow2 (-1074 + (53 - 1)) <= pow2 (-15)) by (apply pow2_le; lia).
    assert (H1 : inject_Z 1
                 <= inject_Z (Z.of_nat ((String.length binaryString + 1) / 2))).
    { rewrite <- Zle_Qle. rewrite <- L. cbn [List.length]. lia. }
    change (inject_Z 1) with 1 in H1. change (pow2 (-15)) with (1 # 32768) in P.
    unfold Qdiv. change (/ 24000) with (1 # 24000). lra. }
  destruct (round_to_error 53 (-1074) _ ltac:(lia) B) as [Hlow Hhigh].
  split; [exact Hlow|]. split; [exact Hhigh | reflexivity].
Qed.

Lemma chunk_duration_from_payload_size_witness :
  exists src,
    nodes (playAudioChunk browser 5 "QUJD" page_started) = nodes page_started ++ [src]
    /\ List.length (channelData src) = 2%nat
    /\ startTime src = Qmax 5 0
    /\ duration src = to_double (inject_Z 2 / 24000)
    /\ inject_Z 2 / 24000 - inject_Z 2 / 24000 * pow2 (-53) <= duration src
    /\ duration src <= inject_Z 2 / 24000 + inject_Z 2 / 24000 * pow2 (-53)
    /\ nextStartTimeRef (playAudioChunk browser 5 "QUJD" page_started)
       = to_double (startTime src + duration src).
Proof.
  apply (chunk_duration_from_payload_size browser 5 "QUJD" "ABC" page_started running);
    [reflexivity | reflexivity | discriminate].
Defined.

(** ** Relay session: advertised tools are answered *)

Open Scope list_scope.

(** X27: a tool call for one of the advertised tools whose arguments
    follow the tool's descriptor, received while the upstream connection
    is open, is always answered: the dispatcher returns a result, and the
    relay sends upstream the [function_call_output] with that result
    under the same [call_id], followed by the [response.create]. *)
Theorem advertised_tool_calls_are_answered
    (pf : Platform) (kb : KnowledgeBase) (s : RelaySession)
    (data : string) (msg d : json) (fields : list (string * json)) :
  JSON_parse pf (toString pf data) = Some msg ->
  prop msg "type" = Some (JStr "response.function_call_arguments.done") ->
  readyState (openaiWs s) = OPEN ->
  In d tools ->
  prop msg "name" = descriptor_name d ->
  JSON_parse pf (ToString_val (prop msg "arguments")) = Some (JObj fields) ->
  (forall k, In k (descriptor_required d) -> is_string (assoc k fields) = true) ->
  (forall k, In k (descriptor_properties d) ->
             assoc k fields = None \/ is_string (assoc k fields) = true) ->
  exists result,
    executeTool pf kb (descriptor_name d) (JObj fields) = Returned result
    /\ sent (openaiWs (on_openai_message pf kb s data))
       = sent (openaiWs s)
         ++ [JSON_stringify pf
               (function_call_output
                  (prop msg "call_id")
                  (JSON_stringify pf (ToolResult_to_json result)));
             JSON_stringify pf response_create].
Proof.
  intros Hp Ht Hopen Hd Hname Hargs Hreq Hprop.
  pose proof (descriptor_args_accepted d fields Hd Hreq Hprop) as A.
  rewrite <- executeTool_returns with (pf := pf) (kb := kb) in A.
  destruct (executeTool pf kb (descriptor_name d) (JObj fields)) as [result|e] eqn:E;
    [|discriminate].
  exists result. split; [reflexivity|].
  rewrite (on_openai_message_tool_call _ _ _ _ _ Hp Ht).
  unfold handle_tool_call, parse. rewrite Hargs. cbn [bind]. rewrite Hname, E.
  rewrite (ws_send_open _ _ Hopen). rewrite ws_send_open by reflexivity.
  cbn [sent]. now rewrite <- app_assoc.
Qed.

Lemma advertised_tool_calls_are_answered_witness :
  let data := tool_call_frame "call_9" "getServices" "{}" in
  exists result,
    executeTool browser demo_kb (Some (JStr "getServices")) (JObj []) = Returned result
    /\ sent (openaiWs (on_openai_message browser demo_kb session_active data))
       = [JsonText.stringify
            (function_call_output
               (Some (JStr "call_9"))
               (JsonText.stringify (ToolResult_to_json result)));
          JsonText.stringify response_create].
Proof.
  cbv zeta.
  apply (advertised_tool_calls_are_answered browser demo_kb session_active
           (tool_call_frame "call_9" "getServices" "{}")
           (JObj [("type", JStr "response.function_call_arguments.done");
                  ("call_id", JStr "call_9");
                  ("name", JStr "getServices");
                  ("arguments", JStr "{}")])
           (tool_descriptor "getServices"
              "Get list of services offered by StrategyByte"
              [("serviceName",
                "Optional service name to filter (e.g., 'Website', 'SEO', 'Brand')")]
              [])
           []).
  - vm_compute. reflexivity.
  - reflexivity.
  - reflexivity.
  - simpl. tauto.
  - reflexivity.
  - vm_compute. reflexivity.
  - intros k [].
  - intros k _. now left.
Defined.
